(** * swungdash / squigglypy: lazy evaluation of stochastic expression trees

    A shallow embedding of [swungdash/context.py] and [squigglypy/tree.py].

    Python objects whose identity or mutation matters live in explicit
    stores: tree nodes in a heap indexed by address, cache dictionaries in
    a store indexed by reference.  Objects that the source never mutates
    after construction (context records, sample arrays) are carried by
    value together with the identity token they received at allocation, so
    that "the same object" is "the same token".  Exceptions are the left
    summand of [result]; every effectful function is a state transformer
    that returns the state also when it raises, as mutations made before a
    Python exception stay in place. *)

From Stdlib Require Import ZArith Lia.
From Stdlib Require Import OrderedTypeEx.
From stdpp Require Import base option list strings gmap sorting.

Set Default Proof Using "Type".

(** ** Exceptions and the state-and-exception monad *)

Inductive exn : Type :=
  | TypeError
  | AttributeError
  | ZeroDivisionError
  | ValueError
  | KeyError
  | AssertionError
  | External (code : nat)   (* raised by an external callable *)
  | Dangling                (* address without object: no Python counterpart *)
  | IllTyped                (* value of a type the annotations exclude *)
  | OutOfFuel.              (* recursion budget exhausted *)

Inductive result (A : Type) : Type :=
  | Ok (a : A)
  | Err (e : exn).
Arguments Ok {A} a.
Arguments Err {A} e.

Definition ST (S A : Type) : Type := S → result A * S.

Definition ret {S A} (a : A) : ST S A := λ s, (Ok a, s).
Definition raise {S A} (e : exn) : ST S A := λ s, (Err e, s).
Definition bind {S A B} (k : A → ST S B) (m : ST S A) : ST S B :=
  λ s, match m s with
       | (Ok a, s') => k a s'
       | (Err e, s') => (Err e, s')
       end.
Definition gets {S A} (f : S → A) : ST S A := λ s, (Ok (f s), s).
Definition modify {S} (f : S → S) : ST S unit := λ s, (Ok tt, f s).

Notation "'do' x ← m ; k" := (bind (λ x, k) m)
  (at level 10, x name, m at level 100, k at level 200,
   format "'[v' 'do'  x  ←  m ;  '/' k ']'").
Notation "'do' ' p ← m ; k" := (bind (λ x, match x with p => k end) m)
  (at level 10, p pattern, m at level 100, k at level 200,
   format "'[v' 'do'  ' p  ←  m ;  '/' k ']'").

(** [for x in xs: body x], collecting the results. *)
Fixpoint for_each {S A B} (f : A → ST S B) (xs : list A) : ST S (list B) :=
  match xs with
  | [] => ret []
  | x :: xs' => do y ← f x; do ys ← for_each f xs'; ret (y :: ys)
  end.

(** ** Cache keys ([context.py], [CacheKey])

    Function objects are compared by identity; a function is named by a
    string.  [Value.cache_key] may also return the wrapped raw content,
    which is a number or the empty sentinel and not a [CacheKey] record. *)

Abbreviation fn := string (only parsing).

#[warnings="-register-all"]
Inductive key : Type :=
  | KNum (z : Z)
  | KEmpty
  | CacheKey (function : option fn) (args : option (list Z))
             (kwargs : option (list (string * Z)))
             (sample_count : option Z) (nested : option (list key)).

Global Instance key_eq_dec : EqDecision key.
Proof.
  refine (fix go (k1 k2 : key) {struct k1} : Decision (k1 = k2) :=
    let _ : EqDecision key := go in
    match k1, k2 with
    | KNum z1, KNum z2 => cast_if (decide (z1 = z2))
    | KEmpty, KEmpty => left _
    | CacheKey f1 a1 w1 s1 n1, CacheKey f2 a2 w2 s2 n2 =>
        cast_if_and5 (decide (f1 = f2)) (decide (a1 = a2)) (decide (w1 = w2))
                     (decide (s1 = s2)) (decide (n1 = n2))
    | _, _ => right _
    end); abstract congruence.
Defined.

(** Keys are countable, so that a cache is a [gmap key _]. *)
Abbreviation key_leaf :=
  (Z + option string * option (list Z) * option (list (string * Z)) * option Z)%type
  (only parsing).

Fixpoint key_to_tree (k : key) : gen_tree key_leaf :=
  match k with
  | KNum z => GenLeaf (inl z)
  | KEmpty => GenNode 0 []
  | CacheKey f a w s None => GenNode 1 [GenLeaf (inr (f, a, w, s))]
  | CacheKey f a w s (Some ns) =>
      GenNode 2 (GenLeaf (inr (f, a, w, s)) :: map key_to_tree ns)
  end.

Fixpoint key_of_tree (t : gen_tree key_leaf) : option key :=
  match t with
  | GenLeaf (inl z) => Some (KNum z)
  | GenNode 0 [] => Some KEmpty
  | GenNode 1 [GenLeaf (inr (f, a, w, s))] => Some (CacheKey f a w s None)
  | GenNode 2 (GenLeaf (inr (f, a, w, s)) :: ts) =>
      ns ← (fix go ts :=
              match ts with
              | [] => Some []
              | t :: ts => k ← key_of_tree t; ks ← go ts; Some (k :: ks)
              end) ts;
      Some (CacheKey f a w s (Some ns))
  | _ => None
  end.

Global Instance key_countable : Countable key.
Proof.
  refine (inj_countable key_to_tree key_of_tree _).
  abstract (
    fix IH 1; intros [z| |f a w s [ns|]]; [reflexivity..| |reflexivity];
    cbn [key_to_tree key_of_tree];
    match goal with
    | |- mbind _ (?go _) = _ => assert (go (map key_to_tree ns) = Some ns) as ->
    end;
    [revert ns; fix IHns 1; intros [|n ns];
       [reflexivity|cbn [map]; rewrite (IH n); cbn; rewrite (IHns ns); reflexivity]
    |reflexivity]).
Defined.

(** ** Tree nodes ([tree.py]) and resolved values

    A [pyval] is what a variable of type [Union[float, Resolveable, Empty]]
    holds: a raw number, the sentinel [_empty], or a reference to a node.
    Numbers are Python integers.  [Operation.this] and [Mixture.values]
    hold references to nodes as annotated; [Operation.other] is a reference
    or, where the code tests [other is _empty], the sentinel itself
    ([None]).  The field [constant] is what reading [node.constant] finds,
    on the instance or else on its class: [None] for a new [Value] or
    [Mixture], [True] for a new [Distribution]. *)

Inductive pyval : Type :=
  | PNum (z : Z)
  | PEmpty
  | PObj (a : nat).

Inductive obj : Type :=
  | Value (value : pyval) (constant : option bool) (name : option string)
  | Operation (function : fn) (this : nat) (other : option nat)
  | Distribution (function : fn) (args : list Z) (kwargs : list (string * Z))
                 (name : option string) (constant : option bool)
  | Mixture (values : list nat) (name : option string) (constant : option bool).

(** What [~node] returns: a number, the sentinel, or a sample array.  An
    array carries the identity it received when it was created. *)
Inductive rv : Type :=
  | RNum (z : Z)
  | REmpty
  | RArr (id : nat) (data : list Z).

Global Instance pyval_eq_dec : EqDecision pyval.
Proof. solve_decision. Defined.
Global Instance obj_eq_dec : EqDecision obj.
Proof. solve_decision. Defined.
Global Instance rv_eq_dec : EqDecision rv.
Proof. solve_decision. Defined.

(** ** The execution context ([context.py]) *)

Definition DEFAULT_SAMPLE_COUNT : Z := 1000%Z.

(** A [SwungdashContext] instance.  The source never assigns to a field of
    a context after constructing it, so an instance is its identity
    [ctx_id] together with its field values; [cache] is a reference into
    the store of dictionaries. *)
Record SwungdashContext : Type := {
  ctx_id : nat;
  cache : nat;
  cache_rule : string;
  sample_count : Z;
}.

Global Instance SwungdashContext_eq_dec : EqDecision SwungdashContext.
Proof. solve_decision. Defined.

(** The keyword arguments of [Context(kwargs)], restricted to the three
    fields of the dataclass (any other keyword makes the dataclass
    constructor raise before a scope is entered). *)
Record overrides : Type := {
  kw_cache : option nat;
  kw_cache_rule : option string;
  kw_sample_count : option Z;
}.

Definition no_overrides : overrides :=
  {| kw_cache := None; kw_cache_rule := None; kw_sample_count := None |}.
Definition with_sample_count (n : Z) : overrides :=
  {| kw_cache := None; kw_cache_rule := None; kw_sample_count := Some n |}.

(** One invocation of an external sampling function. *)
Record call : Type := {
  call_function : fn;
  call_args : list Z;
  call_kwargs : list (string * Z);
  call_size : Z;
}.

Record world : Type := {
  heap : list obj;                  (* tree nodes, by address *)
  contextvar : option SwungdashContext;   (* [Context.context]; [None]: unset *)
  next_context : nat;               (* identity of the next context instance *)
  dicts : gmap nat (gmap key rv);   (* dictionaries, by reference *)
  next_dict : nat;
  calls : list call;                (* sampler invocations so far, oldest first *)
  next_array : nat;                 (* identity of the next array *)
  rand : list nat;                  (* the draws [random] will make *)
}.

Abbreviation M := (ST world).

Definition set_heap (h : list obj) (w : world) : world :=
  {| heap := h; contextvar := contextvar w; next_context := next_context w;
     dicts := dicts w; next_dict := next_dict w; calls := calls w;
     next_array := next_array w; rand := rand w |}.
Definition set_contextvar (c : option SwungdashContext) (w : world) : world :=
  {| heap := heap w; contextvar := c; next_context := next_context w;
     dicts := dicts w; next_dict := next_dict w; calls := calls w;
     next_array := next_array w; rand := rand w |}.
Definition set_next_context (n : nat) (w : world) : world :=
  {| heap := heap w; contextvar := contextvar w; next_context := n;
     dicts := dicts w; next_dict := next_dict w; calls := calls w;
     next_array := next_array w; rand := rand w |}.
Definition set_dicts (d : gmap nat (gmap key rv)) (w : world) : world :=
  {| heap := heap w; contextvar := contextvar w; next_context := next_context w;
     dicts := d; next_dict := next_dict w; calls := calls w;
     next_array := next_array w; rand := rand w |}.
Definition set_next_dict (n : nat) (w : world) : world :=
  {| heap := heap w; contextvar := contextvar w; next_context := next_context w;
     dicts := dicts w; next_dict := n; calls := calls w;
     next_array := next_array w; rand := rand w |}.
Definition set_calls (l : list call) (w : world) : world :=
  {| heap := heap w; contextvar := contextvar w; next_context := next_context w;
     dicts := dicts w; next_dict := next_dict w; calls := l;
     next_array := next_array w; rand := rand w |}.
Definition set_next_array (n : nat) (w : world) : world :=
  {| heap := heap w; contextvar := contextvar w; next_context := next_context w;
     dicts := dicts w; next_dict := next_dict w; calls := calls w;
     next_array := n; rand := rand w |}.
Definition set_rand (l : list nat) (w : world) : world :=
  {| heap := heap w; contextvar := contextvar w; next_context := next_context w;
     dicts := dicts w; next_dict := next_dict w; calls := calls w;
     next_array := next_array w; rand := l |}.

(** The dictionary behind a reference. *)
Definition dict_of (w : world) (d : nat) : gmap key rv := dicts w !!! d.

(** [d[k] = v] *)
Definition dict_setitem (d : nat) (k : key) (v : rv) : M unit :=
  modify (λ w, set_dicts (<[d := <[k := v]> (dict_of w d)]> (dicts w)) w).

(** [SwungdashContext()]: a fresh instance with a fresh empty cache. *)
Definition new_default_context (w : world) : SwungdashContext * world :=
  let c := {| ctx_id := next_context w; cache := next_dict w;
              cache_rule := "constant"; sample_count := DEFAULT_SAMPLE_COUNT |} in
  (c, set_next_context (S (next_context w))
        (set_next_dict (S (next_dict w))
           (set_dicts (<[next_dict w := ∅]> (dicts w)) w))).

(** [SwungdashContext(fields)]: a fresh instance with given fields. *)
Definition new_context_with (d : nat) (rule : string) (n : Z) (w : world)
  : SwungdashContext * world :=
  ({| ctx_id := next_context w; cache := d; cache_rule := rule; sample_count := n |},
   set_next_context (S (next_context w)) w).

Definition getcontext : M SwungdashContext := λ w,
  match contextvar w with
  | Some c => (Ok c, w)
  | None =>
      let '(c, w') := new_default_context w in
      (Ok c, set_contextvar (Some c) w')
  end.

Definition setcontext (c : SwungdashContext) : M unit :=
  modify (set_contextvar (Some c)).

(** The context manager object [Context(kwargs)]. *)
Record Context : Type := {
  kwargs : overrides;
  saved_context : option SwungdashContext;
  new_context : option SwungdashContext;
}.

Definition Context_init (kw : overrides) : Context :=
  {| kwargs := kw; saved_context := None; new_context := None |}.

(** [dict(vars(saved), **kwargs)] followed by the dataclass constructor. *)
Definition Context_enter (self : Context) : M (Context * SwungdashContext) :=
  do saved ← getcontext;
  λ w,
    let '(new, w') :=
      new_context_with (default (cache saved) (kw_cache (kwargs self)))
                       (default (cache_rule saved) (kw_cache_rule (kwargs self)))
                       (default (sample_count saved) (kw_sample_count (kwargs self)))
                       w in
    (Ok ({| kwargs := kwargs self; saved_context := Some saved;
            new_context := Some new |}, new),
     set_contextvar (Some new) w').

(** [__exit__] hands [self.saved_context] to [setcontext].  On a manager
    that was never entered the attribute still holds [None], which is not a
    [SwungdashContext]: the context variable of this model holds contexts
    only, so that call is marked [IllTyped]. *)
Definition Context_exit (self : Context) : M unit :=
  match saved_context self with
  | Some saved => setcontext saved
  | None => raise IllTyped
  end.

(** [with Context(kw) as context: body context].  [__exit__] returns
    [None], so an exception of the body propagates after the exit. *)
Definition with_Context {A} (kw : overrides) (body : SwungdashContext → M A) : M A :=
  λ w,
    match Context_enter (Context_init kw) w with
    | (Ok (self, context), w1) =>
        let '(r, w2) := body context w1 in
        (r, snd (Context_exit self w2))
    | (Err e, w1) => (Err e, w1)
    end.

(** ** Library functions used by [tree.py] *)

(** [sorted(kwargs.items())]: tuples compare by key, then by value. *)
Definition item_leb (x y : string * Z) : bool :=
  match String.compare x.1 y.1 with
  | Lt => true
  | Eq => bool_decide (x.2 ≤ y.2)%Z
  | Gt => false
  end.
Definition item_le (x y : string * Z) : Prop := item_leb x y.
Global Instance item_le_dec : RelDecision item_le.
Proof. intros x y. unfold item_le. apply _. Defined.

Definition sorted (items : list (string * Z)) : list (string * Z) :=
  merge_sort item_le items.

(** [dataclasses.replace(k, sample_count=None)]: a [TypeError] unless [k]
    is a dataclass instance. *)
Definition replace_sample_count {S} (k : key) : ST S key :=
  match k with
  | CacheKey f a w _ n => ret (CacheKey f a w None n)
  | KNum _ | KEmpty => raise TypeError
  end.

(** [random.sample(population, k)] as CPython runs it when [k] is the
    length of the population (the pool branch): draw [j] below the number
    of items left, take [pool[j]], move the last item left into the
    vacancy.  A draw [r] of the random source stands for [r mod m]. *)
Definition randbelow (m : nat) : M nat := λ w,
  match rand w with
  | [] => (Ok 0, w)
  | r :: rs => (Ok (r mod m), set_rand rs w)
  end.

Fixpoint random_sample {A} (pool : list A) (k : nat) : M (list A) :=
  match k with
  | O => ret []
  | S k' =>
      do j ← randbelow (length pool);
      match pool !! j, last pool with
      | Some x, Some y =>
          do rest ← random_sample (take (length pool - 1) (<[j := y]> pool)) k';
          ret (x :: rest)
      | _, _ => raise ValueError
      end
  end.

(** [np.concatenate(samples)]: a new array; a [ValueError] for an empty
    sequence or for an item that is not an array. *)
Definition array_data (v : rv) : option (list Z) :=
  match v with
  | RArr _ data => Some data
  | _ => None
  end.

Definition new_array (data : list Z) : M rv := λ w,
  (Ok (RArr (next_array w) data), set_next_array (S (next_array w)) w).

Definition np_concatenate (samples : list rv) : M rv :=
  match samples, mapM array_data samples with
  | _ :: _, Some datas => new_array (concat datas)
  | _, _ => raise ValueError
  end.

(** [n % k] and [n // k] on Python integers; [Z.modulo] and [Z.div] round
    as Python does, and Python raises where the divisor is zero. *)
Definition py_mod {S} (n k : Z) : ST S Z :=
  if decide (k = 0)%Z then raise ZeroDivisionError else ret (n mod k)%Z.
Definition py_floordiv {S} (n k : Z) : ST S Z :=
  if decide (k = 0)%Z then raise ZeroDivisionError else ret (n / k)%Z.

(** ** External callables

    The sampling functions and the operator functions are not part of the
    repository.  A sampling function [f(args, size=n, kwargs)] is
    [draw f args kwargs n t], where [t] counts the invocations made before
    this one (its source of randomness); it returns the drawn numbers, which
    the engine receives as a new array, or raises.  An operator returns a
    scalar or the items of a new array. *)
Inductive payload : Type :=
  | Scalar (z : Z)
  | Vector (data : list Z).

Record externals : Type := {
  draw : fn → list Z → list (string * Z) → Z → nat → result (list Z);
  apply1 : fn → rv → result payload;
  apply2 : fn → rv → rv → result payload;
}.

(** ** Nodes in the heap *)

Definition obj_at (a : nat) : M obj := λ w,
  match heap w !! a with
  | Some o => (Ok o, w)
  | None => (Err Dangling, w)
  end.

(** Constructing an object: it gets the next address. *)
Definition alloc (o : obj) : M nat := λ w,
  (Ok (length (heap w)), set_heap (heap w ++ [o]) w).

(** ** Cache keys of nodes ([cache_key] properties)

    [Value.cache_key] forwards to the wrapped node or returns the raw
    content; [Operation.cache_key] nests the operands' keys;
    [Distribution.cache_key] and [Mixture.cache_key] read [sample_count]
    inside a scope of their own.  The recursion follows references in the
    heap and is bounded by [fuel]. *)
Fixpoint cache_key (fuel : nat) (a : nat) : M key :=
  match fuel with
  | O => raise OutOfFuel
  | S fuel' =>
      do o ← obj_at a;
      match o with
      | Value (PObj b) _ _ => cache_key fuel' b
      | Value (PNum z) _ _ => ret (KNum z)
      | Value PEmpty _ _ => ret KEmpty
      | Operation f this other =>
          do this_key ← cache_key fuel' this;
          do other_key ← match other with
                          | Some b => cache_key fuel' b
                          | None => raise AttributeError
                          end;
          ret (CacheKey (Some f) None None None (Some [this_key; other_key]))
      | Distribution f args kw _ _ =>
          with_Context no_overrides (λ context,
            ret (CacheKey (Some f) (Some args) (Some (sorted kw))
                          (Some (sample_count context)) None))
      | Mixture values _ _ =>
          with_Context no_overrides (λ context,
            do nested ← for_each (λ value,
                           do k ← cache_key fuel' value;
                           replace_sample_count k) values;
            ret (CacheKey None None None (Some (sample_count context)) (Some nested)))
      end
  end.

(** ** Resolution ([_resolve] methods, [Mixture._sample]) *)

(** The stratified allocation of [Mixture._sample] before shuffling. *)
Definition allocation (n : Z) (k : nat) : list Z :=
  imap (λ i count, (count + Z.b2z (bool_decide (Z.of_nat i < n mod Z.of_nat k)))%Z)
       (replicate k (n / Z.of_nat k)%Z).

(** [Mixture._sample], in its three steps: the counts (allocation, then
    shuffle), the resolution of every component in a scope with its count as
    [sample_count], and the concatenation. *)
Definition _sample_counts (values : list nat) : M (list Z) :=
  do '(remainder, sample_counts) ←
    with_Context no_overrides (λ context,
      do remainder ← py_mod (sample_count context) (Z.of_nat (length values));
      do quotient ← py_floordiv (sample_count context) (Z.of_nat (length values));
      ret (remainder, replicate (length values) quotient));
  let sample_counts :=
    imap (λ i count, (count + Z.b2z (bool_decide (Z.of_nat i < remainder)))%Z)
         sample_counts in
  random_sample sample_counts (length sample_counts).

Definition _sample_draws (resolve : nat → M rv) (values : list nat)
    (sample_counts : list Z) : M (list rv) :=
  for_each (λ '(value, count),
              with_Context (with_sample_count count) (λ _, resolve value))
           (zip values sample_counts).

Definition _sample (resolve : nat → M rv) (values : list nat) : M rv :=
  do sample_counts ← _sample_counts values;
  do samples ← _sample_draws resolve values sample_counts;
  np_concatenate samples.

Section Engine.
Variable E : externals.

(** [function(args, size=n, kwargs)] *)
Definition call_sampler (f : fn) (args : list Z) (kw : list (string * Z)) (n : Z)
  : M rv := λ w,
  let w' := set_calls (calls w ++ [{| call_function := f; call_args := args;
                                      call_kwargs := kw; call_size := n |}]) w in
  match draw E f args kw n (length (calls w)) with
  | Ok data => new_array data w'
  | Err e => (Err e, w')
  end.

Definition of_payload (r : result payload) : M rv :=
  match r with
  | Ok (Scalar z) => ret (RNum z)
  | Ok (Vector data) => new_array data
  | Err e => raise e
  end.

(** [~node]: dispatch on the class of the node at [a]. *)
Fixpoint resolve (fuel : nat) (a : nat) : M rv :=
  match fuel with
  | O => raise OutOfFuel
  | S fuel' =>
      do o ← obj_at a;
      match o with
      | Value (PObj b) _ _ => resolve fuel' b
      | Value (PNum z) _ _ => ret (RNum z)
      | Value PEmpty _ _ => ret REmpty
      | Operation f this other =>
          do x ← resolve fuel' this;
          do y ← match other with
                 | Some b => resolve fuel' b
                 | None => raise TypeError
                 end;
          match y with
          | REmpty => of_payload (apply1 E f x)
          | _ => of_payload (apply2 E f x y)
          end
      | Distribution f args kw _ _ =>
          with_Context no_overrides (λ context,
            do k ← cache_key fuel a;
            do store ← gets (λ w, dict_of w (cache context));
            match store !! k with
            | Some _ =>
                do k' ← cache_key fuel a;
                do store' ← gets (λ w, dict_of w (cache context));
                match store' !! k' with
                | Some v => ret v
                | None => raise KeyError
                end
            | None =>
                do value ← call_sampler f args kw (sample_count context);
                do k' ← cache_key fuel a;
                do _ ← dict_setitem (cache context) k' value;
                ret value
            end)
      | Mixture values _ _ =>
          with_Context no_overrides (λ context,
            do k ← cache_key fuel a;
            do store ← gets (λ w, dict_of w (cache context));
            match store !! k with
            | Some _ =>
                do k' ← cache_key fuel a;
                do store' ← gets (λ w, dict_of w (cache context));
                match store' !! k' with
                | Some v => ret v
                | None => raise KeyError
                end
            | None =>
                do value ← _sample (resolve fuel') values;
                do k' ← cache_key fuel a;
                do _ ← dict_setitem (cache context) k' value;
                ret value
            end)
      end
  end.

End Engine.

(** ** Constancy analysis ([_mark_constancy], [mark_constancy])

    The analysis reads and writes the [constant] attribute of nodes, so it
    is a transformer of the heap alone. *)

Abbreviation H := (ST (list obj)).

(** Run a heap transformer in the world. *)
Definition in_heap {A} (m : H A) : M A := λ w,
  let '(r, h) := m (heap w) in (r, set_heap h w).

(** The module-level objects, in order of creation: the default argument
    [Value(_empty)] of [Operation.__init__], then [_tracer = Value(0, name="x")]. *)
Definition _tracer : nat := 1.
Definition module_heap : list obj :=
  [Value PEmpty None None; Value (PNum 0) None (Some "x"%string)].

Definition node_at (a : nat) : H obj := λ h,
  match h !! a with
  | Some o => (Ok o, h)
  | None => (Err Dangling, h)
  end.

(** [isinstance(o, Value)]: [Distribution] and [Mixture] are subclasses. *)
Definition is_Value (o : obj) : bool :=
  match o with
  | Operation _ _ _ => false
  | _ => true
  end.

Definition get_constant (o : obj) : option bool :=
  match o with
  | Value _ c _ => c
  | Distribution _ _ _ _ c => c
  | Mixture _ _ c => c
  | Operation _ _ _ => None
  end.

Definition set_constant (c : option bool) (o : obj) : obj :=
  match o with
  | Value v _ n => Value v c n
  | Distribution f a k n _ => Distribution f a k n c
  | Mixture vs n _ => Mixture vs n c
  | Operation f x y => Operation f x y
  end.

(** [node.constant = c] for a node that the annotations make a [Value]. *)
Definition assign_constant (a : nat) (c : option bool) : H unit := λ h,
  match h !! a with
  | Some o =>
      if is_Value o then (Ok tt, <[a := set_constant c o]> h)
      else (Err IllTyped, h)
  | None => (Err Dangling, h)
  end.

Definition read_constant (a : nat) : H (option bool) :=
  do o ← node_at a;
  if is_Value o then ret (get_constant o) else raise IllTyped.

(** Python's [x and y] and truth value, on [Optional[bool]]. *)
Definition py_and (x y : option bool) : option bool :=
  match x with
  | Some true => y
  | _ => x
  end.
Definition truthy (x : option bool) : bool :=
  match x with
  | Some true => true
  | _ => false
  end.

Fixpoint _mark_constancy (fuel : nat) (tree : pyval) : H (option bool) :=
  match fuel with
  | O => raise OutOfFuel
  | S fuel' =>
      match tree with
      | PNum _ | PEmpty => ret (Some true)
      | PObj a =>
          if decide (a = _tracer) then ret (Some false) else
          do o ← node_at a;
          if negb (is_Value o) then ret (Some true) else
          match get_constant o with
          | Some b => ret (Some b)
          | None =>
              match o with
              | Mixture values _ _ =>
                  do _ ← for_each (λ value,
                           do c ← _mark_constancy fuel' (PObj value);
                           assign_constant value c) values;
                  do cs ← for_each read_constant values;
                  ret (Some (forallb truthy cs))
              | Value (PObj b) _ _ =>
                  do inner ← node_at b;
                  match inner with
                  | Operation _ this other =>
                      do c ← _mark_constancy fuel' (PObj this);
                      do _ ← assign_constant this c;
                      match other with
                      | None => read_constant this
                      | Some other =>
                          do c' ← _mark_constancy fuel' (PObj other);
                          do _ ← assign_constant other c';
                          do x ← read_constant this;
                          do y ← read_constant other;
                          ret (py_and x y)
                      end
                  | _ =>
                      do c ← _mark_constancy fuel' (PObj b);
                      do _ ← assign_constant b c;
                      read_constant b
                  end
              | Value _ _ _ => ret (Some true)
              | _ => raise AttributeError
              end
          end
      end
  end.

Definition mark_constancy (fuel : nat) (tree : pyval) : H pyval :=
  match tree with
  | PNum _ | PEmpty => ret tree
  | PObj a =>
      do o ← node_at a;
      if is_Value o then
        do c ← _mark_constancy fuel tree;
        do _ ← assign_constant a c;
        ret tree
      else ret tree
  end.

(** ** Structural traversal ([_bfs], [bfs], [as_model]) *)

Fixpoint _bfs (fuel : nat) (tree : pyval) : H (list nat) :=
  match fuel with
  | O => raise OutOfFuel
  | S fuel' =>
      match tree with
      | PNum _ | PEmpty => ret []
      | PObj a =>
          do o ← node_at a;
          match o with
          | Distribution _ _ _ _ _ => ret [a]
          | Mixture values _ _ =>
              do nested ← for_each (λ value_, _bfs fuel' (PObj value_)) values;
              ret (a :: concat nested)
          | Value v _ _ =>
              do rest ← _bfs fuel' v;
              ret (a :: rest)
          | Operation _ this other =>
              do l ← _bfs fuel' (PObj this);
              do r ← _bfs fuel' (from_option PObj PEmpty other);
              ret (l ++ r)
          end
      end
  end.

(** [copy(node)]: a new object with the same attributes. *)
Definition copy (a : nat) : M nat :=
  do o ← obj_at a;
  alloc o.

(** A model is a Python callable from the tracer to the root of a tree; it
    may do anything to the world on the way. *)
Definition bfs (fuel : nat) (model : pyval → M pyval) : M (list nat * nat) :=
  do tracer ← copy _tracer;
  do tree ← model (PObj _tracer);
  do tree ← in_heap (mark_constancy fuel tree);
  do parts ← in_heap (_bfs fuel tree);
  ret (parts, tracer).

(** [node.value = x] *)
Definition assign_value (a : nat) (x : pyval) : M unit :=
  do o ← obj_at a;
  match o with
  | Value _ c n => modify (λ w, set_heap (<[a := Value x c n]> (heap w)) w)
  | _ => raise IllTyped
  end.

Definition as_model (part : pyval) (tracer : nat) : pyval → M pyval :=
  λ x, do _ ← assign_value tracer x; ret part.

(** ** Tree construction (the constructors, [Value._operation]) *)

Definition new_Value (value : pyval) (constant : option bool) (name : option string)
  : M nat := alloc (Value value constant name).
Definition new_Distribution (function : fn) (args : list Z) (kw : list (string * Z))
    (name : option string) : M nat :=
  alloc (Distribution function args kw name (Some true)).
Definition new_Mixture (values : list nat) (name : option string) : M nat :=
  alloc (Mixture values name None).

Definition _operation (self : nat) (function : fn) (other : pyval) (reverse : bool)
  : M nat :=
  do other ← match other with
             | PObj b => ret b
             | _ => alloc (Value other None None)
             end;
  if reverse then
    do o ← obj_at other;
    do v ← match o with
           | Value v _ _ => ret v
           | _ => raise AttributeError
           end;
    if decide (v = PEmpty) then raise AssertionError else
    do op ← alloc (Operation function other (Some self));
    alloc (Value (PObj op) None None)
  else
    do op ← alloc (Operation function self (Some other));
    alloc (Value (PObj op) None None).

(** The key of the node at [a] as a function of the heap and of the active
    sample count alone; [cache_key] computes it (lemma [cache_key_pure]). *)
Fixpoint key_at (h : list obj) (n : Z) (fuel : nat) (a : nat) : ST unit key :=
  match fuel with
  | O => raise OutOfFuel
  | S fuel' =>
      match h !! a with
      | None => raise Dangling
      | Some (Value (PObj b) _ _) => key_at h n fuel' b
      | Some (Value (PNum z) _ _) => ret (KNum z)
      | Some (Value PEmpty _ _) => ret KEmpty
      | Some (Operation f this other) =>
          do this_key ← key_at h n fuel' this;
          do other_key ← match other with
                          | Some b => key_at h n fuel' b
                          | None => raise AttributeError
                          end;
          ret (CacheKey (Some f) None None None (Some [this_key; other_key]))
      | Some (Distribution f args kw _ _) =>
          ret (CacheKey (Some f) (Some args) (Some (sorted kw)) (Some n) None)
      | Some (Mixture values _ _) =>
          do nested ← for_each (λ value,
                         do k ← key_at h n fuel' value;
                         replace_sample_count k) values;
          ret (CacheKey None None None (Some n) (Some nested))
      end
  end.

(** ** The constancy rules, as the specification words them

    [classified h tree b]: in heap [h], the rules give [tree] the
    classification [b].  The tracer is [false]; what is not a [Value] node
    (a raw number, the sentinel, an [Operation] object) is [true]; a node
    whose [constant] is set has that value; a [Mixture] is [true] iff every
    component is; a [Value] wrapping an [Operation] is [true] iff all present
    operands are; a [Value] wrapping a [Value] inherits; anything else is
    [true]. *)
Inductive classified (h : list obj) : pyval → bool → Prop :=
  | classified_tracer :
      classified h (PObj _tracer) false
  | classified_number z :
      classified h (PNum z) true
  | classified_empty :
      classified h PEmpty true
  | classified_Operation a f this other :
      a ≠ _tracer → h !! a = Some (Operation f this other) →
      classified h (PObj a) true
  | classified_declared a o b :
      a ≠ _tracer → h !! a = Some o → is_Value o = true →
      get_constant o = Some b →
      classified h (PObj a) b
  | classified_Mixture a values nm bs :
      a ≠ _tracer → h !! a = Some (Mixture values nm None) →
      length bs = length values →
      (∀ i v b, values !! i = Some v → bs !! i = Some b → classified h (PObj v) b) →
      classified h (PObj a) (forallb id bs)
  | classified_unary a nm b f this x :
      a ≠ _tracer → h !! a = Some (Value (PObj b) None nm) →
      h !! b = Some (Operation f this None) →
      classified h (PObj this) x →
      classified h (PObj a) x
  | classified_binary a nm b f this other x y :
      a ≠ _tracer → h !! a = Some (Value (PObj b) None nm) →
      h !! b = Some (Operation f this (Some other)) →
      classified h (PObj this) x → classified h (PObj other) y →
      classified h (PObj a) (x && y)
  | classified_wrapped a nm b o x :
      a ≠ _tracer → h !! a = Some (Value (PObj b) None nm) →
      h !! b = Some o → is_Value o = true →
      classified h (PObj b) x →
      classified h (PObj a) x
  | classified_other a nm v :
      a ≠ _tracer → h !! a = Some (Value v None nm) →
      (∀ b, v ≠ PObj b) →
      classified h (PObj a) true.

(** [marked h h']: [h'] is [h] with the [constant] of some [Value] nodes
    set, each to the classification the rules give that node in [h]. *)
Definition marked (h h' : list obj) : Prop :=
  length h' = length h ∧
  ∀ a o, h !! a = Some o →
    h' !! a = Some o ∨
    (is_Value o = true ∧
     ∃ b, h' !! a = Some (set_constant (Some b) o) ∧ classified h (PObj a) b).

(** [settled h h' v]: in [h'] the [constant] of node [v] is set, to the
    classification the rules give [v] in [h]. *)
Definition settled (h h' : list obj) (v : nat) : Prop :=
  ∃ o b, h' !! v = Some o ∧ is_Value o = true ∧ get_constant o = Some b ∧
         classified h (PObj v) b.

(** Heaps as the constructors build them: a node refers to nodes created
    before it, operands and components are [Value] instances, and a
    [Distribution] has its declared [constant]. *)
Definition Value_at (h : list obj) (a : nat) : Prop :=
  ∃ o, h !! a = Some o ∧ is_Value o = true.

Definition ordered_obj (h : list obj) (a : nat) (o : obj) : Prop :=
  match o with
  | Value (PObj b) _ _ => b < a
  | Value _ _ _ => True
  | Operation _ this other =>
      this < a ∧ Value_at h this ∧
      match other with
      | Some b => b < a ∧ Value_at h b
      | None => True
      end
  | Distribution _ _ _ _ c => is_Some c
  | Mixture values _ _ => Forall (λ v, v < a ∧ Value_at h v) values
  end.

Definition ordered (h : list obj) : Prop :=
  ∀ a o, h !! a = Some o → ordered_obj h a o.

(** A decision procedure for [ordered]. *)
Definition Value_atb (h : list obj) (a : nat) : bool :=
  match h !! a with
  | Some o => is_Value o
  | None => false
  end.

Definition ordered_objb (h : list obj) (a : nat) (o : obj) : bool :=
  match o with
  | Value (PObj b) _ _ => bool_decide (b < a)
  | Value _ _ _ => true
  | Operation _ this other =>
      bool_decide (this < a) && Value_atb h this &&
      match other with
      | Some b => bool_decide (b < a) && Value_atb h b
      | None => true
      end
  | Distribution _ _ _ _ c => bool_decide (is_Some c)
  | Mixture values _ _ => forallb (λ v, bool_decide (v < a) && Value_atb h v) values
  end.

Definition orderedb (h : list obj) : bool :=
  forallb (λ '(a, o), ordered_objb h a o) (imap pair h).

(** ** Auxiliary definitions for the statements *)

(** The context that [getcontext] finds or installs, and the world once
    it is installed. *)
Definition active (w : world) : SwungdashContext :=
  match contextvar w with
  | Some c => c
  | None => fst (new_default_context w)
  end.

Definition activate (w : world) : world :=
  match contextvar w with
  | Some _ => w
  | None => set_contextvar (Some (active w)) (snd (new_default_context w))
  end.

(** The context that [Context(kw).__enter__] builds from [saved]. *)
Definition derive (id : nat) (saved : SwungdashContext) (kw : overrides)
  : SwungdashContext :=
  {| ctx_id := id;
     cache := default (cache saved) (kw_cache kw);
     cache_rule := default (cache_rule saved) (kw_cache_rule kw);
     sample_count := default (sample_count saved) (kw_sample_count kw) |}.

(** The world in which the body of a scope starts. *)
Definition entered (kw : overrides) (w : world) : world :=
  set_contextvar (Some (derive (next_context (activate w)) (active w) kw))
    (set_next_context (S (next_context (activate w))) (activate w)).

(** The world after one more context instance was created. *)
Definition bump (w : world) : world := set_next_context (S (next_context w)) w.

(** The key of a [Distribution] under sample count [n]. *)
Definition Distribution_key (f : fn) (args : list Z) (kw : list (string * Z)) (n : Z)
  : key :=
  CacheKey (Some f) (Some args) (Some (sorted kw)) (Some n) None.

(** The record of the invocation [f(args, size=n, kw)]. *)
Definition sampler_call (f : fn) (args : list Z) (kw : list (string * Z)) (n : Z) : call :=
  {| call_function := f; call_args := args; call_kwargs := kw; call_size := n |}.

(** The world after [m] more context instances were created. *)
Definition bump_by (m : nat) (w : world) : world :=
  set_next_context (m + next_context w) w.

(** [pure_as h n mw mp]: in every world with heap [h] and active sample
    count [n], the computation [mw] has the outcome of the pure [mp] and
    only creates context instances. *)
Definition pure_as {A} (h : list obj) (n : Z) (mw : M A) (mp : ST unit A) : Prop :=
  ∀ w c, heap w = h → contextvar w = Some c → sample_count c = n →
    ∃ m, mw w = (fst (mp tt), bump_by m w).

(** Whether a key is an instance of the dataclass [CacheKey]. *)
Definition is_CacheKey (k : key) : bool :=
  match k with
  | CacheKey _ _ _ _ _ => true
  | _ => false
  end.

(** The key of a [Mixture] under sample count [n], given the blanked keys of
    its components. *)
Definition Mixture_key (n : Z) (nested : list key) : key :=
  CacheKey None None None (Some n) (Some nested).

(** The keys of the components, blanked, as [Mixture.cache_key] nests them. *)
Definition nested_keys (h : list obj) (n : Z) (fuel : nat) (values : list nat)
  : ST unit (list key) :=
  for_each (λ value, do k ← key_at h n fuel value; replace_sample_count k) values.

(** [sum(l)] *)
Definition sumZ (l : list Z) : Z := foldr Z.add 0%Z l.

(** With budget [fuel], whatever [_mark_constancy] returns is a boolean, the
    one the rules give, and the heap is marked. *)
Definition sound (fuel : nat) : Prop :=
  ∀ t h r h', _mark_constancy fuel t h = (Ok r, h') →
    ∃ b, r = Some b ∧ classified h t b ∧ marked h h'.

(** The statement [node.constant = _mark_constancy(node)]. *)
Definition mark_and_assign (fuel : nat) (v : nat) : H unit :=
  do c ← _mark_constancy fuel (PObj v);
  assign_constant v c.

(** With budget [fuel], [_mark_constancy] returns on every node of an
    ordered heap whose address is below [fuel]. *)
Definition total (fuel : nat) : Prop :=
  ∀ h a, ordered h → a < fuel → is_Some (h !! a) →
    ∃ r h', _mark_constancy fuel (PObj a) h = (Ok r, h').

(** ** Concrete instances, for the examples

    A sampling function that returns [n] copies of the number of the
    invocation (and rejects a negative size, as numpy does), and the
    functions of the module [operator] on integers, by name: [neg], [pos],
    [abs] with one argument, [add], [sub], [mul], [floordiv], [mod], [pow]
    with two.  A call with the wrong number of arguments and a call on the
    sentinel raise [TypeError], a zero divisor raises [ZeroDivisionError].
    What leaves the integers (true division, a negative exponent,
    comparisons) and binary operations on arrays are not part of this
    instance; [External 1] stands for them. *)
Definition demo_unary (f : fn) : option (Z → Z) :=
  if decide (f = "neg") then Some Z.opp
  else if decide (f = "pos") then Some id
  else if decide (f = "abs") then Some Z.abs
  else None.

Definition demo_binary (f : fn) : option (Z → Z → result Z) :=
  if decide (f = "add") then Some (λ a b, Ok (a + b)%Z)
  else if decide (f = "sub") then Some (λ a b, Ok (a - b)%Z)
  else if decide (f = "mul") then Some (λ a b, Ok (a * b)%Z)
  else if decide (f = "floordiv") then
    Some (λ a b, if decide (b = 0)%Z then Err ZeroDivisionError else Ok (a / b)%Z)
  else if decide (f = "mod") then
    Some (λ a b, if decide (b = 0)%Z then Err ZeroDivisionError else Ok (a mod b)%Z)
  else if decide (f = "pow") then
    Some (λ a b, if decide (0 ≤ b)%Z then Ok (a ^ b)%Z else Err (External 1))
  else None.

Definition demo_externals : externals :=
  {| draw := λ f args kw n t,
       if decide (0 ≤ n)%Z then Ok (replicate (Z.to_nat n) (Z.of_nat t))
       else Err (External 0);
     apply1 := λ f x,
       match demo_unary f, x with
       | Some g, RNum z => Ok (Scalar (g z))
       | Some g, RArr _ data => Ok (Vector (g <$> data))
       | Some _, REmpty => Err TypeError
       | None, _ =>
           match demo_binary f with
           | Some _ => Err TypeError
           | None => Err (External 1)
           end
       end;
     apply2 := λ f x y,
       match demo_binary f, x, y with
       | Some g, RNum a, RNum b =>
           match g a b with
           | Ok z => Ok (Scalar z)
           | Err e => Err e
           end
       | Some _, REmpty, _ | Some _, _, REmpty => Err TypeError
       | Some _, _, _ => Err (External 1)
       | None, _, _ =>
           match demo_unary f with
           | Some _ => Err TypeError
           | None => Err (External 1)
           end
       end |}.

(** The world after the modules are imported: no context yet. *)
Definition module_world : world :=
  {| heap := module_heap; contextvar := None; next_context := 0;
     dicts := ∅; next_dict := 0; calls := []; next_array := 0;
     rand := [3; 1; 4; 1; 5] |}.

(** Two [Distribution]s built with the same keywords in another order, a
    [Mixture] of them, an empty [Mixture], and a [Mixture] with a raw-number
    component; the active context has sample count 7. *)
Definition demo_heap : list obj :=
  module_heap ++
  [ Distribution "normal" [0%Z] [("loc", 1%Z); ("scale", 2%Z)] None (Some true);
    Distribution "normal" [0%Z] [("scale", 2%Z); ("loc", 1%Z)] None (Some true);
    Mixture [2; 3] None None;
    Mixture [] None None;
    Value (PNum 5) None None;
    Mixture [2; 6] None None ].

Definition demo_context : SwungdashContext :=
  {| ctx_id := 0; cache := 0; cache_rule := "constant"; sample_count := 7 |}.

Definition demo_world : world :=
  {| heap := demo_heap; contextvar := Some demo_context; next_context := 1;
     dicts := {[ 0 := ∅ ]}; next_dict := 1; calls := []; next_array := 0;
     rand := [3; 1; 4; 1; 5] |}.

(** The same world with a cache that already holds an entry under the key
    of the empty [Mixture]. *)
Definition seeded_world : world :=
  set_dicts {[ 0 := {[ Mixture_key 7 [] := RArr 99 [] ]} ]} demo_world.

(** The model of [test_tree.py]: [weight * x ** 2 + bias / 5]. *)
Definition test_model (x : pyval) : M pyval :=
  do n1 ← new_Distribution "normal" [2; 1]%Z [] None;
  do n2 ← new_Distribution "normal" [0; 1]%Z [] None;
  do weight ← new_Mixture [n1; n2] None;
  do bias ← new_Distribution "uniform" [100; 200]%Z [] None;
  match x with
  | PObj x =>
      do x2 ← _operation x "pow" (PNum 2) false;
      do wx ← _operation weight "mul" (PObj x2) false;
      do b5 ← _operation bias "truediv" (PNum 5) false;
      do root ← _operation wx "add" (PObj b5) false;
      ret (PObj root)
  | _ => raise TypeError
  end.

Definition test_heap : list obj :=
  Eval vm_compute in heap (snd (test_model (PObj _tracer) module_world)).

(** [lambda x: x] *)
Definition identity_model (x : pyval) : M pyval := ret x.

(** ** A manager object used for more than one scope

    A [with] statement on an existing manager object.  The object is part
    of the state here, beside the world, so that the body of a scope can
    enter the very manager whose scope it runs in: [__enter__] assigns to
    the attributes of that one object. *)
Definition manager_enter : ST (Context * world) SwungdashContext := λ '(self, w),
  match Context_enter self w with
  | (Ok (self', new), w') => (Ok new, (self', w'))
  | (Err e, w') => (Err e, (self, w'))
  end.

Definition manager_exit : ST (Context * world) unit := λ '(self, w),
  let '(r, w') := Context_exit self w in (r, (self, w')).

(** [with manager as context: body context] *)
Definition with_manager {A} (body : SwungdashContext → ST (Context * world) A)
  : ST (Context * world) A :=
  λ s,
    match manager_enter s with
    | (Ok context, s1) =>
        let '(r, s2) := body context s1 in
        (r, snd (manager_exit s2))
    | (Err e, s1) => (Err e, s1)
    end.

(** The manager object as [__enter__] leaves it. *)
Definition entered_manager (self : Context) (w : world) : Context :=
  {| kwargs := kwargs self; saved_context := Some (active w);
     new_context := Some (derive (next_context (activate w)) (active w) (kwargs self)) |}.

(** A body that does not enter the manager of the state again: it leaves
    the saved context of that object as it found it. *)
Definition leaves_manager {A} (body : SwungdashContext → ST (Context * world) A) : Prop :=
  ∀ c s, saved_context (fst (snd (body c s))) = saved_context (fst s).

(** [reads_heap m]: whatever [m] does, the tree is afterwards as it was. *)
Definition reads_heap {A} (m : M A) : Prop := ∀ w, heap (snd (m w)) = heap w.

(** The module's objects and three more: [Value(3)], its negation
    [-Value(3)] (whose other operand is the default [Value(_empty)], at
    address 0), and an addition whose first operand is that
    [Value(_empty)]. *)
Definition sentinel_world : world :=
  set_heap (module_heap ++
            [Value (PNum 3) None None;
             Operation "neg" 2 (Some 0);
             Operation "add" 0 (Some 2)]) module_world.

(** A model whose root is created with [constant=False]:
    [Value(Value(1) + Value(2), constant=False)], built from the objects. *)
Definition declared_model (x : pyval) : M pyval :=
  do a ← new_Value (PNum 1) None None;
  do b ← new_Value (PNum 2) None None;
  do op ← alloc (Operation "add" a (Some b));
  do root ← new_Value (PObj op) (Some false) None;
  ret (PObj root).

(** * Definitions for further properties *)

(** ** What a resolution may change

    [within c w w']: [w'] is a world that a computation started in [w]
    under the active context [c] may end in: [c] is active again, the heap
    is the same, the log of sampler invocations is extended, no array
    identity is given twice, no dictionary was created, every entry of every
    cache is still there, and only the cache of [c] was written. *)
Definition within (c : SwungdashContext) (w w' : world) : Prop :=
  contextvar w' = Some c ∧
  heap w' = heap w ∧
  calls w `prefix_of` calls w' ∧
  next_array w ≤ next_array w' ∧
  next_dict w' = next_dict w ∧
  (∀ d k, is_Some (dict_of w d !! k) → is_Some (dict_of w' d !! k)) ∧
  ∀ d, d ≠ cache c → dict_of w' d = dict_of w d.

(** [keeps c m]: whatever [m] returns or raises when [c] is the active
    context, it ends within the world it started in. *)
Definition keeps {A} (c : SwungdashContext) (m : M A) : Prop :=
  ∀ w, contextvar w = Some c → within c w (snd (m w)).

(** ** Nodes of the same structure

    [alike h a b]: the nodes at [a] and [b] are built alike: the same class,
    the same number or function and arguments, keyword dictionaries with the
    same items (in whatever order), operands and components alike in turn.
    The attributes [name] and [constant] are free. *)
Inductive alike (h : list obj) : nat → nat → Prop :=
  | alike_number a b z c1 n1 c2 n2 :
      h !! a = Some (Value (PNum z) c1 n1) → h !! b = Some (Value (PNum z) c2 n2) →
      alike h a b
  | alike_empty a b c1 n1 c2 n2 :
      h !! a = Some (Value PEmpty c1 n1) → h !! b = Some (Value PEmpty c2 n2) →
      alike h a b
  | alike_wrapped a b a' b' c1 n1 c2 n2 :
      h !! a = Some (Value (PObj a') c1 n1) → h !! b = Some (Value (PObj b') c2 n2) →
      alike h a' b' →
      alike h a b
  | alike_Operation a b f this1 other1 this2 other2 :
      h !! a = Some (Operation f this1 (Some other1)) →
      h !! b = Some (Operation f this2 (Some other2)) →
      alike h this1 this2 → alike h other1 other2 →
      alike h a b
  | alike_Distribution a b f args kw1 kw2 n1 c1 n2 c2 :
      h !! a = Some (Distribution f args kw1 n1 c1) →
      h !! b = Some (Distribution f args kw2 n2 c2) →
      kw1 ≡ₚ kw2 →
      alike h a b
  | alike_Mixture a b values1 values2 n1 c1 n2 c2 :
      h !! a = Some (Mixture values1 n1 c1) →
      h !! b = Some (Mixture values2 n2 c2) →
      length values1 = length values2 →
      (∀ i v1 v2, values1 !! i = Some v1 → values2 !! i = Some v2 → alike h v1 v2) →
      alike h a b.

(** ** Trees without random parts

    [sample_free h a]: from the node at [a] only plain [Value]s and
    [Operation]s are reached, no [Distribution] and no [Mixture]. *)
Inductive sample_free (h : list obj) : nat → Prop :=
  | sample_free_Value a v c n :
      h !! a = Some (Value v c n) →
      (∀ b, v = PObj b → sample_free h b) →
      sample_free h a
  | sample_free_Operation a f this other :
      h !! a = Some (Operation f this other) →
      sample_free h this →
      (∀ b, other = Some b → sample_free h b) →
      sample_free h a.

(** ** What a constructor does to the world

    [builds w m]: run in [w], the construction [m] leaves an ordered heap
    that extends the one of [w] (no existing node is touched), changes
    nothing else, and the node it returns is a new [Value] instance. *)
Definition builds (w : world) (m : M nat) : Prop :=
  let '(r, w') := m w in
  ordered (heap w') ∧
  heap w `prefix_of` heap w' ∧
  w' = set_heap (heap w') w ∧
  ∀ a, r = Ok a → length (heap w) ≤ a ∧ Value_at (heap w') a.

(** What a [Value] that wraps no node resolves to: its content. *)
Definition raw (v : pyval) : rv :=
  match v with
  | PNum z => RNum z
  | _ => REmpty
  end.

(** ** Parts that have their [constant] set

    [children h o]: the [Value] instances that [_bfs] lists next below a
    [Value] instance [o]: the components of a [Mixture], the operands of a
    wrapped [Operation], a wrapped [Value].  [decided h p]: the node at [p]
    has its [constant] set.  [closed h]: below a node whose [constant] is
    set, every child has it set as well. *)
Definition children (h : list obj) (o : obj) : list nat :=
  match o with
  | Mixture values _ _ => values
  | Value (PObj b) _ _ =>
      match h !! b with
      | Some (Operation _ this other) => this :: from_option (λ b, [b]) [] other
      | Some _ => [b]
      | None => []
      end
  | _ => []
  end.

Definition decided (h : list obj) (p : nat) : Prop :=
  ∃ o, h !! p = Some o ∧ is_Some (get_constant o).

Definition closed (h : list obj) : Prop :=
  ∀ a o, h !! a = Some o → is_Some (get_constant o) → Forall (decided h) (children h o).

(** The tracer holds a number, as it does from its creation. *)
Definition tracer_raw (h : list obj) : Prop :=
  match h !! _tracer with
  | Some (Value (PObj _) _ _) => False
  | Some (Value _ _ _) => True
  | _ => False
  end.

(** A decision procedure for [closed]. *)
Definition decidedb (h : list obj) (p : nat) : bool :=
  match h !! p with
  | Some o => bool_decide (is_Some (get_constant o))
  | None => false
  end.

Definition closedb (h : list obj) : bool :=
  forallb (λ o, negb (bool_decide (is_Some (get_constant o)))
                || forallb (decidedb h) (children h o)) h.

(** What [_bfs] needs of the root of a tree to list decided parts only. *)
Definition covered (h : list obj) (tree : pyval) : Prop :=
  match tree with
  | PObj a =>
      match h !! a with
      | Some (Operation _ this other) =>
          decided h this ∧ ∀ b, other = Some b → decided h b
      | Some _ => decided h a
      | None => True
      end
  | _ => True
  end.

(** With budget [fuel], [_mark_constancy] keeps the heap closed and leaves
    the children of the node it was called on decided. *)
Definition thorough (fuel : nat) : Prop :=
  ∀ t h r h', ordered h → closed h → tracer_raw h →
    _mark_constancy fuel t h = (Ok r, h') →
    closed h' ∧
    ∀ a o', t = PObj a → h' !! a = Some o' → is_Value o' = true →
      Forall (decided h') (children h' o').

(** The demo world under other sample counts: one below the number of
    components of the [Mixture] at address 4, and a negative one, which the
    demo sampling function rejects; and the demo heap before any context
    was set. *)
Definition scarce_world : world :=
  set_contextvar (Some (derive 0 demo_context (with_sample_count 1))) demo_world.

Definition failing_world : world :=
  set_contextvar (Some (derive 0 demo_context (with_sample_count (-1)))) demo_world.

Definition unset_world : world := set_heap demo_heap module_world.

(** A scope with a cache of its own, the dictionary at reference 1. *)
Definition with_cache (d : nat) : overrides :=
  {| kw_cache := Some d; kw_cache_rule := None; kw_sample_count := None |}.

(** The tree of [test_tree.py] in a world. *)
Definition test_world : world := set_heap test_heap module_world.

(** * Properties *)

Ltac world_eq :=
  repeat match goal with w : world |- _ => destruct w end;
  cbn in *; simplify_eq;
  unfold set_heap, set_contextvar, set_next_context, set_dicts, set_next_dict,
    set_calls, set_next_array, set_rand; cbn;
  try reflexivity; f_equal; try lia.

(** ** The execution context *)

Lemma getcontext_eq w : getcontext w = (Ok (active w), activate w).
Proof.
  unfold getcontext, activate, active, new_default_context.
  destruct (contextvar w); reflexivity.
Qed.

Lemma contextvar_activate w : contextvar (activate w) = Some (active w).
Proof. unfold activate, active. by destruct (contextvar w) eqn:E. Qed.

Lemma active_activate w : active (activate w) = active w.
Proof. unfold active at 1. by rewrite contextvar_activate. Qed.

Lemma activate_idem w : activate (activate w) = activate w.
Proof. unfold activate at 1. by rewrite contextvar_activate. Qed.

Lemma activate_Some w c : contextvar w = Some c → activate w = w ∧ active w = c.
Proof. unfold activate, active. by intros ->. Qed.

Lemma Context_enter_eq kw w :
  Context_enter (Context_init kw) w =
    (Ok ({| kwargs := kw; saved_context := Some (active w);
            new_context := Some (derive (next_context (activate w)) (active w) kw) |},
         derive (next_context (activate w)) (active w) kw),
     entered kw w).
Proof. unfold Context_enter, bind. by rewrite getcontext_eq. Qed.

Lemma with_Context_eq {A} kw (body : SwungdashContext → M A) w :
  with_Context kw body w =
    (fst (body (derive (next_context (activate w)) (active w) kw) (entered kw w)),
     set_contextvar (Some (active w))
       (snd (body (derive (next_context (activate w)) (active w) kw) (entered kw w)))).
Proof.
  unfold with_Context. rewrite Context_enter_eq.
  by destruct (body _ _) as [r w2].
Qed.

Lemma with_Context_activate {A} kw (body : SwungdashContext → M A) w :
  with_Context kw body (activate w) = with_Context kw body w.
Proof.
  rewrite !with_Context_eq. unfold entered.
  by rewrite !activate_idem, !active_activate.
Qed.

Lemma Context_enter_manager self w :
  Context_enter self w =
    (Ok (entered_manager self w,
         derive (next_context (activate w)) (active w) (kwargs self)),
     entered (kwargs self) w).
Proof. unfold Context_enter, bind. by rewrite getcontext_eq. Qed.

Lemma with_manager_eq {A} (body : SwungdashContext → ST (Context * world) A) self w :
  with_manager body (self, w) =
    let r := body (derive (next_context (activate w)) (active w) (kwargs self))
                  (entered_manager self w, entered (kwargs self) w) in
    (fst r, (fst (snd r), snd (Context_exit (fst (snd r)) (snd (snd r))))).
Proof.
  unfold with_manager, manager_enter. rewrite Context_enter_manager.
  destruct (body _ _) as [r [self2 w2]]. cbn.
  by destruct (Context_exit self2 w2).
Qed.

(** A scope on a manager object that is not entered again before the scope
    is left. *)
Lemma with_manager_restores {A} (body : SwungdashContext → ST (Context * world) A)
    self w :
  leaves_manager body →
  ∃ self' w',
    with_manager body (self, w)
    = (fst (body (derive (next_context (activate w)) (active w) (kwargs self))
                 (entered_manager self w, entered (kwargs self) w)),
       (self', w')) ∧
    contextvar w' = Some (active w) ∧ saved_context self' = Some (active w).
Proof.
  intros Hb. rewrite with_manager_eq. cbv zeta.
  specialize (Hb (derive (next_context (activate w)) (active w) (kwargs self))
                 (entered_manager self w, entered (kwargs self) w)).
  destruct (body _ _) as [r [self2 w2]]. cbn in *.
  eexists _, _. split; [reflexivity|]. unfold Context_exit. rewrite Hb. done.
Qed.

(** The same manager object entered again inside its own scope. *)
Lemma with_manager_reentered {A} (body : SwungdashContext → ST (Context * world) A)
    self w :
  leaves_manager body →
  ∃ r self' w',
    with_manager (λ _, with_manager body) (self, w) = (r, (self', w')) ∧
    contextvar w'
    = Some (derive (next_context (activate w)) (active w) (kwargs self)).
Proof.
  intros Hb. rewrite with_manager_eq. cbv zeta.
  destruct (with_manager_restores body (entered_manager self w)
              (entered (kwargs self) w) Hb) as (self2 & w2 & -> & Hc & Hs).
  cbn [fst snd]. eexists _, _, _. split; [reflexivity|].
  unfold Context_exit. rewrite Hs. done.
Qed.

(** C4, as the code has it.  Leaving the scope of a [with Context(...)]
    statement, by completion or by an exception of the body, installs again
    the very context instance that [getcontext] found at entry; the outcome
    of the body is the outcome of the statement.  Nested scopes form a
    stack: the body of the inner scope runs under the inner scope's context,
    where a field overridden by the inner scope has the inner value whatever
    the outer scope chose, and leaving the inner scope makes the outer
    scope's own context instance active again.  The same holds for a scope
    on an existing manager object, whatever its state, as long as the body
    does not enter that object again.  Where it does, the inner entry
    overwrites the saved context of the object: leaving the outer scope then
    installs the outer scope's own context, not the one found at its
    entry. *)
Theorem Context_exit_restores {A} (kw : overrides) (body : SwungdashContext → M A)
    (w : world) :
  ∃ saved self new w1,
    fst (getcontext w) = Ok saved ∧
    Context_enter (Context_init kw) w = (Ok (self, new), w1) ∧
    contextvar w1 = Some new ∧
    fst (with_Context kw body w) = fst (body new w1) ∧
    contextvar (snd (with_Context kw body w)) = Some saved ∧
    (∀ (kw' : overrides) (inner : SwungdashContext → M A),
       ∃ self' new' w2,
         Context_enter (Context_init kw') w1 = (Ok (self', new'), w2) ∧
         contextvar w2 = Some new' ∧
         cache new' = default (cache new) (kw_cache kw') ∧
         cache_rule new' = default (cache_rule new) (kw_cache_rule kw') ∧
         sample_count new' = default (sample_count new) (kw_sample_count kw') ∧
         fst (with_Context kw' inner w1) = fst (inner new' w2) ∧
         contextvar (snd (with_Context kw' inner w1)) = Some new) ∧
    (∀ (manager : Context) (scope : SwungdashContext → ST (Context * world) A),
       leaves_manager scope →
       let own := derive (next_context (activate w)) saved (kwargs manager) in
       (∃ manager' w',
          with_manager scope (manager, w)
          = (fst (scope own (entered_manager manager w, entered (kwargs manager) w)),
             (manager', w')) ∧
          contextvar w' = Some saved) ∧
       (∃ r manager' w',
          with_manager (λ _, with_manager scope) (manager, w) = (r, (manager', w')) ∧
          contextvar w' = Some own)).
Proof.
  eexists _, _, _, _. rewrite getcontext_eq, Context_enter_eq.
  split; [done|]. split; [done|]. split; [done|].
  rewrite with_Context_eq. split; [done|]. split; [done|].
  split.
  - intros kw' inner. eexists _, _, _.
    rewrite Context_enter_eq, with_Context_eq.
    assert (active (entered kw w)
            = derive (next_context (activate w)) (active w) kw) as -> by done.
    done.
  - intros manager scope Hscope own. split.
    + destruct (with_manager_restores scope manager w Hscope)
        as (manager' & w' & Hrun & Hc & _).
      by exists manager', w'.
    + apply with_manager_reentered, Hscope.
Qed.

(** C6. Entering a scope builds a new context instance from the enclosing
    one: a field without override has the enclosing context's value, and
    for [cache] that value is the reference to the same dictionary.  So an
    entry that the body stores through the new context's cache is, after
    the exit, found through the enclosing context's cache; with a [cache]
    override the new context uses the given dictionary instead. *)
Theorem Context_enter_shallow_copy (kw : overrides) (w : world) :
  ∃ saved self new w1,
    fst (getcontext w) = Ok saved ∧
    Context_enter (Context_init kw) w = (Ok (self, new), w1) ∧
    contextvar w1 = Some new ∧
    ctx_id new = next_context (snd (getcontext w)) ∧
    cache new = default (cache saved) (kw_cache kw) ∧
    cache_rule new = default (cache_rule saved) (kw_cache_rule kw) ∧
    sample_count new = default (sample_count saved) (kw_sample_count kw) ∧
    dicts w1 = dicts (snd (getcontext w)) ∧
    (kw_cache kw = None →
     ∀ k v,
       let w2 := snd (with_Context kw (λ context, dict_setitem (cache context) k v) w) in
       contextvar w2 = Some saved ∧ dict_of w2 (cache saved) !! k = Some v) ∧
    (∀ d, kw_cache kw = Some d → cache new = d).
Proof.
  eexists _, _, _, _. rewrite getcontext_eq, Context_enter_eq. cbn [fst snd].
  do 8 (split; [reflexivity|]). split.
  - intros Hkw k v. rewrite with_Context_eq. cbn [fst snd].
    split; [done|].
    unfold dict_setitem, modify, dict_of. cbn. rewrite Hkw. cbn.
    by rewrite lookup_total_insert_eq, lookup_insert_eq.
  - intros d Hd. cbn. by rewrite Hd.
Qed.

(** ** Sorting keyword items *)

Lemma compare_Lt_trans (a b c : string) :
  String.compare a b = Lt → String.compare b c = Lt → String.compare a c = Lt.
Proof.
  intros Hab Hbc. apply String_as_OT.cmp_lt.
  eapply String_as_OT.lt_trans; apply String_as_OT.cmp_lt; eassumption.
Qed.

Lemma compare_refl (a : string) : String.compare a a = Eq.
Proof. by apply String_as_OT.cmp_eq. Qed.

Lemma compare_Gt_Lt (a b : string) : String.compare a b = Gt → String.compare b a = Lt.
Proof. intros H. rewrite String.compare_antisym, H. done. Qed.

Global Instance item_le_trans : Transitive item_le.
Proof.
  intros [k1 v1] [k2 v2] [k3 v3]. unfold item_le, item_leb. cbn.
  destruct (String.compare k1 k2) eqn:E12; [|  |done];
    destruct (String.compare k2 k3) eqn:E23; try done.
  - apply String_as_OT.cmp_eq in E12, E23. subst. rewrite compare_refl.
    rewrite !bool_decide_spec. lia.
  - apply String_as_OT.cmp_eq in E12. subst. by rewrite E23.
  - apply String_as_OT.cmp_eq in E23. subst. by rewrite E12.
  - by rewrite (compare_Lt_trans _ _ _ E12 E23).
Qed.

Global Instance item_le_antisym : AntiSymm (=) item_le.
Proof.
  intros [k1 v1] [k2 v2]. unfold item_le, item_leb. cbn.
  destruct (String.compare k1 k2) eqn:E12.
  - apply String_as_OT.cmp_eq in E12. subst. rewrite compare_refl.
    rewrite !bool_decide_spec. intros. f_equal. lia.
  - rewrite String.compare_antisym, E12. done.
  - done.
Qed.

Global Instance item_le_total : Total item_le.
Proof.
  intros [k1 v1] [k2 v2]. unfold item_le, item_leb. cbn.
  destruct (String.compare k1 k2) eqn:E12.
  - apply String_as_OT.cmp_eq in E12. subst. rewrite compare_refl.
    rewrite !bool_decide_spec. lia.
  - by left.
  - right. by rewrite (compare_Gt_Lt _ _ E12).
Qed.

(** Two dictionaries with the same items, in whatever order they were
    inserted, have the same sorted items. *)
Lemma sorted_Permutation (kw1 kw2 : list (string * Z)) :
  kw1 ≡ₚ kw2 → sorted kw1 = sorted kw2.
Proof.
  intros Hp. unfold sorted.
  apply (Sorted_unique item_le); [apply Sorted_merge_sort, _..|].
  by rewrite !merge_sort_Permutation.
Qed.

(** ** Worlds *)

Lemma set_contextvar_id w c : contextvar w = Some c → set_contextvar (Some c) w = w.
Proof. destruct w. cbn. by intros ->. Qed.

Lemma heap_activate w : heap (activate w) = heap w.
Proof. unfold activate. by destruct (contextvar w). Qed.
Lemma calls_activate w : calls (activate w) = calls w.
Proof. unfold activate. by destruct (contextvar w). Qed.
Lemma next_array_activate w : next_array (activate w) = next_array w.
Proof. unfold activate. by destruct (contextvar w). Qed.
Lemma rand_activate w : rand (activate w) = rand w.
Proof. unfold activate. by destruct (contextvar w). Qed.

Lemma active_set_contextvar c w : active (set_contextvar (Some c) w) = c.
Proof. done. Qed.
Lemma activate_set_contextvar c w :
  activate (set_contextvar (Some c) w) = set_contextvar (Some c) w.
Proof. done. Qed.

Lemma restore_context w c c' n :
  contextvar w = Some c →
  set_contextvar (Some c) (set_contextvar c' (set_next_context n w))
  = set_next_context n w.
Proof. destruct w. cbn. by intros ->. Qed.

(** ** Resolving a [Distribution] *)

Lemma cache_key_Distribution fuel a w f args kw nm cst :
  heap w !! a = Some (Distribution f args kw nm cst) →
  cache_key (S fuel) a w =
    (Ok (Distribution_key f args kw (sample_count (active w))), bump (activate w)).
Proof.
  intros Ha. cbn [cache_key]. unfold bind at 1, obj_at. rewrite Ha.
  rewrite with_Context_eq. cbn [fst snd ret sample_count derive default kw_sample_count no_overrides].
  f_equal. unfold entered, bump.
  apply restore_context, contextvar_activate.
Qed.

Lemma heap_entered kw w : heap (entered kw w) = heap w.
Proof. unfold entered. cbn. apply heap_activate. Qed.
Lemma active_entered kw w :
  active (entered kw w) = derive (next_context (activate w)) (active w) kw.
Proof. done. Qed.
Lemma activate_entered kw w : activate (entered kw w) = entered kw w.
Proof. done. Qed.

Lemma bind_Ok {S A B} (m : ST S A) (k : A → ST S B) s a s' :
  m s = (Ok a, s') → bind k m s = k a s'.
Proof. unfold bind. by intros ->. Qed.
Lemma bind_Err {S A B} (m : ST S A) (k : A → ST S B) s e s' :
  m s = (Err e, s') → bind k m s = (Err e, s').
Proof. unfold bind. by intros ->. Qed.

(** Running a scope whose body's outcome is known. *)
Lemma with_Context_run {A} kw (body : SwungdashContext → M A) w r w2 :
  body (derive (next_context (activate w)) (active w) kw) (entered kw w) = (r, w2) →
  with_Context kw body w = (r, set_contextvar (Some (active w)) w2).
Proof. intros Hb. by rewrite with_Context_eq, Hb. Qed.

Lemma with_Context_Some {A} kw (body : SwungdashContext → M A) w c r w2 :
  contextvar w = Some c →
  body (derive (next_context w) c kw)
       (set_contextvar (Some (derive (next_context w) c kw)) (bump w)) = (r, w2) →
  with_Context kw body w = (r, set_contextvar (Some c) w2).
Proof.
  intros Hc Hb. destruct (activate_Some _ _ Hc) as [Hw Hact].
  rewrite (with_Context_run kw body w r w2); [by rewrite Hact|].
  unfold entered. rewrite Hw, Hact. rewrite <-Hb. f_equal.
Qed.

Lemma cache_key_Distribution_Some fuel a w c f args kw nm cst :
  contextvar w = Some c →
  heap w !! a = Some (Distribution f args kw nm cst) →
  cache_key (S fuel) a w = (Ok (Distribution_key f args kw (sample_count c)), bump w).
Proof.
  intros Hc Ha. destruct (activate_Some _ _ Hc) as [Hw Hact].
  erewrite cache_key_Distribution by done. by rewrite Hw, Hact.
Qed.

Lemma resolve_Distribution_hit E fuel a w c f args kw nm cst v :
  contextvar w = Some c →
  heap w !! a = Some (Distribution f args kw nm cst) →
  dict_of w (cache c) !! Distribution_key f args kw (sample_count c) = Some v →
  resolve E (S fuel) a w = (Ok v, set_next_context (3 + next_context w) w).
Proof.
  intros Hc Ha Hv. cbn [resolve].
  rewrite (bind_Ok _ _ w _ w) by (unfold obj_at; by rewrite Ha).
  unfold dict_of in Hv. cbv beta match.
  erewrite with_Context_Some; [|done|].
  2:{ erewrite bind_Ok; [|by eapply cache_key_Distribution_Some].
      erewrite bind_Ok by reflexivity.
      unfold dict_of. cbn -[Distribution_key]. rewrite Hv.
      erewrite bind_Ok; [|by eapply cache_key_Distribution_Some].
      erewrite bind_Ok by reflexivity.
      unfold dict_of. cbn -[Distribution_key]. rewrite Hv. reflexivity. }
  f_equal. world_eq.
Qed.

Lemma resolve_Distribution_miss E fuel a w c f args kw nm cst :
  contextvar w = Some c →
  heap w !! a = Some (Distribution f args kw nm cst) →
  dict_of w (cache c) !! Distribution_key f args kw (sample_count c) = None →
  resolve E (S fuel) a w =
    match draw E f args kw (sample_count c) (length (calls w)) with
    | Ok data =>
        (Ok (RArr (next_array w) data),
         set_dicts (<[cache c := <[Distribution_key f args kw (sample_count c)
                                   := RArr (next_array w) data]> (dict_of w (cache c))]>
                      (dicts w))
           (set_next_array (S (next_array w))
              (set_calls (calls w ++ [sampler_call f args kw (sample_count c)])
                 (set_next_context (3 + next_context w) w))))
    | Err e =>
        (Err e,
         set_calls (calls w ++ [sampler_call f args kw (sample_count c)])
           (set_next_context (2 + next_context w) w))
    end.
Proof.
  intros Hc Ha Hv. cbn [resolve].
  rewrite (bind_Ok _ _ w _ w) by (unfold obj_at; by rewrite Ha).
  unfold dict_of in Hv. cbv beta match.
  destruct (draw E f args kw (sample_count c) (length (calls w))) as [data|e] eqn:Hd.
  - erewrite with_Context_Some; [|done|].
    2:{ erewrite bind_Ok; [|by eapply cache_key_Distribution_Some].
        erewrite bind_Ok by reflexivity.
        unfold dict_of. cbn -[Distribution_key]. rewrite Hv.
        erewrite bind_Ok.
        2:{ unfold call_sampler. cbn -[Distribution_key]. rewrite Hd. reflexivity. }
        erewrite bind_Ok; [|by eapply cache_key_Distribution_Some].
        erewrite bind_Ok by reflexivity. reflexivity. }
    f_equal. unfold dict_of. world_eq.
  - erewrite with_Context_Some; [|done|].
    2:{ erewrite bind_Ok; [|by eapply cache_key_Distribution_Some].
        erewrite bind_Ok by reflexivity.
        unfold dict_of. cbn -[Distribution_key]. rewrite Hv.
        erewrite bind_Err.
        2:{ unfold call_sampler. cbn -[Distribution_key]. rewrite Hd. reflexivity. }
        reflexivity. }
    f_equal. world_eq.
Qed.

Lemma resolve_Distribution_activate E fuel a w f args kw nm cst :
  heap w !! a = Some (Distribution f args kw nm cst) →
  resolve E (S fuel) a w = resolve E (S fuel) a (activate w).
Proof.
  intros Ha. cbn [resolve].
  rewrite (bind_Ok _ _ w _ w) by (unfold obj_at; by rewrite Ha).
  rewrite (bind_Ok _ _ (activate w) _ (activate w))
    by (unfold obj_at; by rewrite heap_activate, Ha).
  cbv beta match. by rewrite with_Context_activate.
Qed.

(** What resolving a [Distribution] does, in any world: a hit returns the
    cached value and touches nothing but the counter of context instances;
    a miss invokes the sampling function once, with [size] the active
    sample count, and stores what it returns under the node's key. *)
Lemma resolve_Distribution E fuel a w f args kw nm cst :
  heap w !! a = Some (Distribution f args kw nm cst) →
  let c := active w in
  let k := Distribution_key f args kw (sample_count c) in
  ∃ r w',
    resolve E (S fuel) a w = (r, w') ∧
    heap w' = heap w ∧ contextvar w' = Some c ∧ rand w' = rand w ∧
    match dict_of (activate w) (cache c) !! k with
    | Some v =>
        r = Ok v ∧ calls w' = calls w ∧ next_array w' = next_array w ∧
        dicts w' = dicts (activate w)
    | None =>
        calls w' = calls w ++ [sampler_call f args kw (sample_count c)] ∧
        match draw E f args kw (sample_count c) (length (calls w)) with
        | Ok data =>
            r = Ok (RArr (next_array w) data) ∧ next_array w' = S (next_array w) ∧
            dicts w' = <[cache c := <[k := RArr (next_array w) data]>
                                      (dict_of (activate w) (cache c))]>
                         (dicts (activate w))
        | Err e =>
            r = Err e ∧ next_array w' = next_array w ∧ dicts w' = dicts (activate w)
        end
    end.
Proof.
  intros Ha c k. subst c k.
  rewrite (resolve_Distribution_activate _ _ _ _ _ _ _ _ _ Ha).
  pose proof (contextvar_activate w) as Hc.
  assert (heap (activate w) !! a = Some (Distribution f args kw nm cst)) as Ha'
    by (by rewrite heap_activate).
  destruct (dict_of (activate w) (cache (active w)) !! _) as [v|] eqn:Hk.
  - rewrite (resolve_Distribution_hit _ _ _ _ _ _ _ _ _ _ _ Hc Ha' Hk).
    eexists _, _. split; [done|]. cbn.
    by rewrite heap_activate, Hc, rand_activate, calls_activate, next_array_activate.
  - rewrite (resolve_Distribution_miss _ _ _ _ _ _ _ _ _ _ Hc Ha' Hk).
    rewrite calls_activate, next_array_activate.
    destruct (draw E _ _ _ _ _) as [data|e]; eexists _, _; (split; [done|]); cbn;
      by rewrite heap_activate, Hc, rand_activate, ?calls_activate, ?next_array_activate.
Qed.

(** Once resolving a [Distribution] has returned a value, resolving any
    [Distribution] with the same key returns that value from the cache. *)
Lemma resolve_Distribution_again E w a1 a2 f args kw1 kw2 nm1 nm2 c1 c2 fuel1 fuel2 v w1 :
  heap w !! a1 = Some (Distribution f args kw1 nm1 c1) →
  heap w !! a2 = Some (Distribution f args kw2 nm2 c2) →
  kw1 ≡ₚ kw2 →
  resolve E (S fuel1) a1 w = (Ok v, w1) →
  heap w1 = heap w ∧ contextvar w1 = Some (active w) ∧
  dict_of w1 (cache (active w))
    !! Distribution_key f args kw1 (sample_count (active w)) = Some v ∧
  resolve E (S fuel2) a2 w1 = (Ok v, set_next_context (3 + next_context w1) w1).
Proof.
  intros Ha1 Ha2 Hkw Hr.
  destruct (resolve_Distribution E fuel1 a1 w _ _ _ _ _ Ha1)
    as (r & w1' & Hr' & Hh & Hc & _ & Hcase).
  rewrite Hr in Hr'. injection Hr' as <- <-.
  assert (dict_of w1 (cache (active w))
            !! Distribution_key f args kw1 (sample_count (active w)) = Some v) as Hv.
  { destruct (dict_of (activate w) (cache (active w))
                !! Distribution_key f args kw1 (sample_count (active w)))
      as [v'|] eqn:Hk.
    - destruct Hcase as (Hv & _ & _ & Hd). unfold dict_of in *. rewrite Hd.
      by simplify_eq.
    - destruct Hcase as [_ Hcase]. destruct (draw E _ _ _ _ _); [|by destruct Hcase].
      destruct Hcase as (Hv & _ & Hd). unfold dict_of in *. rewrite Hd.
      simplify_eq. by rewrite lookup_total_insert_eq, lookup_insert_eq. }
  do 3 (split; [done|]).
  apply (resolve_Distribution_hit _ _ _ _ (active w) f args kw2 nm2 c2);
    [done|by rewrite Hh|].
  unfold Distribution_key. rewrite <-(sorted_Permutation _ _ Hkw). exact Hv.
Qed.

(** C7. Two [Distribution] nodes with the same function, equal positional
    arguments and equal keyword dictionaries (the same items, in whatever
    order) have the same cache key wherever the active sample count is the
    same.  So when resolving the first returned a value, that value is the
    entry of the active cache under the key of both nodes (on a miss it is
    the array that the one invocation of the sampling function returned),
    and resolving the second afterwards returns that entry: it neither
    invokes the sampling function nor changes any cache. *)
Theorem Distribution_equal_keys_share_cache (E : externals) (w : world) (a1 a2 : nat)
    (f : fn) (args : list Z) (kw1 kw2 : list (string * Z))
    (nm1 nm2 : option string) (c1 c2 : option bool) (fuel1 fuel2 : nat) :
  heap w !! a1 = Some (Distribution f args kw1 nm1 c1) →
  heap w !! a2 = Some (Distribution f args kw2 nm2 c2) →
  kw1 ≡ₚ kw2 →
  (∀ w', heap w' = heap w →
         sample_count (active w') = sample_count (active w) →
         ∃ k, fst (cache_key (S fuel1) a1 w) = Ok k ∧
              fst (cache_key (S fuel2) a2 w') = Ok k) ∧
  (∀ v w1, resolve E (S fuel1) a1 w = (Ok v, w1) →
     Distribution_key f args kw2 (sample_count (active w))
     = Distribution_key f args kw1 (sample_count (active w)) ∧
     dict_of w1 (cache (active w))
       !! Distribution_key f args kw1 (sample_count (active w)) = Some v ∧
     (dict_of (activate w) (cache (active w))
        !! Distribution_key f args kw1 (sample_count (active w)) = None →
      ∃ data,
        draw E f args kw1 (sample_count (active w)) (length (calls w)) = Ok data ∧
        v = RArr (next_array w) data ∧
        calls w1 = calls w ++ [sampler_call f args kw1 (sample_count (active w))]) ∧
     ∃ w2, resolve E (S fuel2) a2 w1 = (Ok v, w2) ∧
           calls w2 = calls w1 ∧ dicts w2 = dicts w1 ∧
           next_array w2 = next_array w1 ∧
           contextvar w2 = contextvar w1).
Proof.
  intros Ha1 Ha2 Hkw. split.
  - intros w' Hh Hn. eexists.
    rewrite (cache_key_Distribution _ _ w _ _ _ _ _ Ha1).
    rewrite (cache_key_Distribution fuel2 a2 w' f args kw2 nm2 c2) by (by rewrite Hh).
    cbn [fst]. unfold Distribution_key.
    by rewrite Hn, (sorted_Permutation _ _ Hkw).
  - intros v w1 Hr.
    destruct (resolve_Distribution_again E w a1 a2 f args kw1 kw2 nm1 nm2 c1 c2
                fuel1 fuel2 v w1 Ha1 Ha2 Hkw Hr) as (_ & _ & Hv & Hagain).
    split; [unfold Distribution_key; by rewrite (sorted_Permutation _ _ Hkw)|].
    split; [exact Hv|]. split.
    + intros Hmiss.
      destruct (resolve_Distribution E fuel1 a1 w _ _ _ _ _ Ha1)
        as (r & w1' & Hr' & _ & _ & _ & Hcase).
      rewrite Hr in Hr'. injection Hr' as <- <-.
      rewrite Hmiss in Hcase. destruct Hcase as [Hcalls Hcase].
      destruct (draw E f args kw1 _ _) as [data|e]; [|by destruct Hcase].
      destruct Hcase as (Hv' & _). exists data. by simplify_eq.
    + rewrite Hagain. by eexists.
Qed.

Lemma Distribution_key_inj f args kw n n' :
  Distribution_key f args kw n = Distribution_key f args kw n' → n = n'.
Proof. unfold Distribution_key. congruence. Qed.

(** C2, as the code has it.  When resolving a [Distribution] returned an
    array, resolving it again under the same context returns the same
    array object without sampling.  In a nested scope that overrides
    [sample_count] with a different value the node is looked up under a
    different key: if the shared cache has no entry under that key, the
    sampling function is invoked once more, with the overridden size, and
    its result is a new array stored next to the first one; if the cache has
    an entry under that key (from an earlier resolution with that sample
    count), that entry is returned and nothing is sampled. *)
Theorem Distribution_resolve_twice (E : externals) (w : world) (a : nat)
    (f : fn) (args : list Z) (kw : list (string * Z)) (nm : option string)
    (cst : option bool) (fuel : nat) (v : rv) (w1 : world) :
  heap w !! a = Some (Distribution f args kw nm cst) →
  resolve E (S fuel) a w = (Ok v, w1) →
  (∃ w2, resolve E (S fuel) a w1 = (Ok v, w2) ∧
         calls w2 = calls w1 ∧ dicts w2 = dicts w1 ∧ next_array w2 = next_array w1) ∧
  (∀ n, n ≠ sample_count (active w) →
     let k := Distribution_key f args kw (sample_count (active w)) in
     let k' := Distribution_key f args kw n in
     k' ≠ k ∧
     ∃ r w3,
       with_Context (with_sample_count n) (λ _, resolve E (S fuel) a) w1 = (r, w3) ∧
       contextvar w3 = Some (active w) ∧
       match dict_of w1 (cache (active w)) !! k' with
       | None =>
           calls w3 = calls w1 ++ [sampler_call f args kw n] ∧
           match draw E f args kw n (length (calls w1)) with
           | Ok data =>
               r = Ok (RArr (next_array w1) data) ∧
               dict_of w3 (cache (active w)) !! k' = Some (RArr (next_array w1) data) ∧
               dict_of w3 (cache (active w)) !! k = Some v
           | Err e => r = Err e
           end
       | Some v' => r = Ok v' ∧ calls w3 = calls w1 ∧ dicts w3 = dicts w1
       end).
Proof.
  intros Ha Hr.
  destruct (resolve_Distribution_again E w a a f args kw kw nm nm cst cst
              fuel fuel v w1 Ha Ha (reflexivity _) Hr) as (Hh & Hc & Hv & Hr2).
  split; [by eexists|].
  intros n Hn k k'. split; [intros Hk; by apply Distribution_key_inj in Hk|].
  set (ci := derive (next_context w1) (active w) (with_sample_count n)).
  set (wi := set_contextvar (Some ci) (bump w1)).
  destruct (resolve_Distribution E fuel a wi f args kw nm cst)
    as (r & w3 & Hr3 & Hh3 & Hc3 & _ & Hcase); [by rewrite <-Hh in Ha|].
  exists r, (set_contextvar (Some (active w)) w3).
  split; [by apply with_Context_Some|]. split; [done|].
  change (active wi) with ci in Hcase. change (activate wi) with wi in Hcase.
  change (sample_count ci) with n in Hcase.
  change (cache ci) with (cache (active w)) in Hcase.
  change (dict_of wi (cache (active w))) with (dict_of w1 (cache (active w))) in Hcase.
  fold k' in Hcase. change (calls wi) with (calls w1) in Hcase.
  change (next_array wi) with (next_array w1) in Hcase.
  change (dicts wi) with (dicts w1) in Hcase.
  destruct (dict_of w1 (cache (active w)) !! k') as [v'|] eqn:Hk'.
  - destruct Hcase as (-> & ? & ? & ?). done.
  - destruct Hcase as [? Hcase]. split; [done|].
    destruct (draw E f args kw n (length (calls w1))) as [data|e].
    + destruct Hcase as (-> & _ & Hd). split; [done|].
      unfold dict_of in *. cbn [dicts set_contextvar]. rewrite Hd.
      rewrite lookup_total_insert_eq. split; [by rewrite lookup_insert_eq|].
      rewrite lookup_insert_ne; [done|].
      intros Hk; by apply Distribution_key_inj in Hk.
    + by destruct Hcase.
Qed.

(** ** Cache keys depend on the heap and the active sample count only *)

Lemma bump_by_bump_by m m' w : bump_by m (bump_by m' w) = bump_by (m + m') w.
Proof. unfold bump_by. world_eq. Qed.

Section pure_as.
Context (h : list obj) (n : Z).

Lemma pure_as_ret {A} (a : A) : pure_as h n (ret a) (ret a).
Proof. intros w c _ _ _. exists 0. unfold ret, bump_by. cbn. f_equal. world_eq. Qed.

Lemma pure_as_raise {A} (e : exn) : pure_as h n (@raise _ A e) (raise e).
Proof. intros w c _ _ _. exists 0. unfold raise, bump_by. cbn. f_equal. world_eq. Qed.

Lemma pure_as_bind {A B} (m1 : M A) (p1 : ST unit A) (k1 : A → M B) k2 :
  pure_as h n m1 p1 → (∀ a, pure_as h n (k1 a) (k2 a)) →
  pure_as h n (bind k1 m1) (bind k2 p1).
Proof.
  intros H1 H2 w c Hh Hc Hn. destruct (H1 w c Hh Hc Hn) as [m Hm].
  unfold bind. rewrite Hm. destruct (p1 tt) as [[a|e] []]; cbn [fst].
  - destruct (H2 a (bump_by m w) c) as [m' Hm']; [done..|].
    exists (m' + m). by rewrite Hm', bump_by_bump_by.
  - by exists m.
Qed.

Lemma pure_as_for_each {A B} (f : A → M B) (g : A → ST unit B) xs :
  (∀ x, pure_as h n (f x) (g x)) → pure_as h n (for_each f xs) (for_each g xs).
Proof.
  intros Hfg. induction xs as [|x xs IH]; cbn [for_each].
  - apply pure_as_ret.
  - apply pure_as_bind; [done|]. intros y.
    apply pure_as_bind; [done|]. intros ys. apply pure_as_ret.
Qed.

Lemma pure_as_replace k : pure_as h n (replace_sample_count k) (replace_sample_count k).
Proof. destruct k; [apply pure_as_raise..|apply pure_as_ret]. Qed.

Lemma pure_as_with_Context {A} (body : SwungdashContext → M A) (p : ST unit A) :
  (∀ context, sample_count context = n → pure_as h n (body context) p) →
  pure_as h n (with_Context no_overrides body) p.
Proof.
  intros Hb w c Hh Hc Hn.
  set (ci := derive (next_context w) c no_overrides).
  destruct (Hb ci Hn (set_contextvar (Some ci) (bump w)) ci) as [m Hm]; [done..|].
  exists (S m). erewrite with_Context_Some by done. f_equal.
  unfold bump_by, bump. world_eq.
Qed.
End pure_as.

Lemma cache_key_pure_as h n fuel a : pure_as h n (cache_key fuel a) (key_at h n fuel a).
Proof.
  revert a. induction fuel as [|fuel IH]; intros a; [apply pure_as_raise|].
  cbn [cache_key key_at].
  assert (∀ o, h !! a = Some o →
    pure_as h n
      (match o with
       | Value (PNum z) _ _ => ret (KNum z)
       | Value PEmpty _ _ => ret KEmpty
       | Value (PObj b) _ _ => cache_key fuel b
       | Operation f this other =>
           do this_key ← cache_key fuel this;
           do other_key ← match other with
                           | Some b => cache_key fuel b
                           | None => raise AttributeError
                           end;
           ret (CacheKey (Some f) None None None (Some [this_key; other_key]))
       | Distribution f args kw _ _ =>
           with_Context no_overrides (λ context,
             ret (CacheKey (Some f) (Some args) (Some (sorted kw))
                           (Some (sample_count context)) None))
       | Mixture values _ _ =>
           with_Context no_overrides (λ context,
             do nested ← for_each (λ value,
                            do k ← cache_key fuel value;
                            replace_sample_count k) values;
             ret (CacheKey None None None (Some (sample_count context)) (Some nested)))
       end)
      (key_at h n (S fuel) a)) as Hbranch.
  { intros o Ho. cbn [key_at]. rewrite Ho.
    destruct o as [[z| |b] cst nm|f this other|f args kw nm cst|vs nm cst].
    - apply pure_as_ret.
    - apply pure_as_ret.
    - apply IH.
    - apply pure_as_bind; [apply IH|]. intros k1.
      apply pure_as_bind; [destruct other; [apply IH|apply pure_as_raise]|].
      intros k2. apply pure_as_ret.
    - apply pure_as_with_Context. intros ci ->. apply pure_as_ret.
    - apply pure_as_with_Context. intros ci ->.
      apply pure_as_bind; [|intros; apply pure_as_ret].
      apply pure_as_for_each. intros v.
      apply pure_as_bind; [apply IH|apply pure_as_replace]. }
  intros w c Hh Hc Hn. unfold bind at 1, obj_at. rewrite Hh.
  destruct (h !! a) as [o|] eqn:Ho.
  - destruct (Hbranch o eq_refl w c Hh Hc Hn) as [m Hm].
    exists m. rewrite Hm. cbn [key_at]. by rewrite ?Ho.
  - exists 0. cbn. f_equal. unfold bump_by. world_eq.
Qed.

Lemma cache_key_pure fuel a w c :
  contextvar w = Some c →
  ∃ m, cache_key fuel a w
       = (fst (key_at (heap w) (sample_count c) fuel a tt), bump_by m w).
Proof. intros Hc. by eapply cache_key_pure_as. Qed.

(** ** Resolving a [Mixture] *)

Lemma key_at_Mixture h n fuel a values nm cst :
  h !! a = Some (Mixture values nm cst) →
  key_at h n (S fuel) a
  = (do nested ← nested_keys h n fuel values; ret (Mixture_key n nested)).
Proof. intros Ha. cbn [key_at]. by rewrite Ha. Qed.

Lemma cache_key_Mixture_activate fuel a w values nm cst :
  heap w !! a = Some (Mixture values nm cst) →
  cache_key (S fuel) a w = cache_key (S fuel) a (activate w).
Proof.
  intros Ha. cbn [cache_key].
  rewrite (bind_Ok _ _ w _ w) by (unfold obj_at; by rewrite Ha).
  rewrite (bind_Ok _ _ (activate w) _ (activate w))
    by (unfold obj_at; by rewrite heap_activate, Ha).
  cbv beta match. by rewrite with_Context_activate.
Qed.

Lemma resolve_Mixture_activate E fuel a w values nm cst :
  heap w !! a = Some (Mixture values nm cst) →
  resolve E (S fuel) a w = resolve E (S fuel) a (activate w).
Proof.
  intros Ha. cbn [resolve].
  rewrite (bind_Ok _ _ w _ w) by (unfold obj_at; by rewrite Ha).
  rewrite (bind_Ok _ _ (activate w) _ (activate w))
    by (unfold obj_at; by rewrite heap_activate, Ha).
  cbv beta match. by rewrite with_Context_activate.
Qed.

(** The outcome of [Mixture.cache_key], in any world. *)
Lemma cache_key_Mixture fuel a w values nm cst :
  heap w !! a = Some (Mixture values nm cst) →
  ∃ m, cache_key (S fuel) a w
       = (fst ((do nested ← nested_keys (heap w) (sample_count (active w)) fuel values;
                ret (Mixture_key (sample_count (active w)) nested)) tt),
          bump_by m (activate w)).
Proof.
  intros Ha. rewrite (cache_key_Mixture_activate _ _ _ _ _ _ Ha).
  destruct (cache_key_pure (S fuel) a (activate w) (active w)) as [m Hm];
    [apply contextvar_activate|].
  exists m. rewrite Hm, heap_activate. by erewrite key_at_Mixture.
Qed.

(** [Mixture._resolve] when computing the key raises: the exception
    propagates out of the scope, and no cache and no sampler is touched. *)
Lemma resolve_Mixture_key_error E fuel a w values nm cst e :
  heap w !! a = Some (Mixture values nm cst) →
  fst (cache_key (S fuel) a w) = Err e →
  ∃ w', resolve E (S fuel) a w = (Err e, w') ∧
        dicts w' = dicts (activate w) ∧ calls w' = calls w ∧
        contextvar w' = Some (active w).
Proof.
  intros Ha He. rewrite (resolve_Mixture_activate _ _ _ _ _ _ _ Ha).
  rewrite (cache_key_Mixture_activate _ _ _ _ _ _ Ha) in He.
  pose proof (contextvar_activate w) as Hc.
  destruct (cache_key_pure (S fuel) a (activate w) (active w) Hc) as [m Hm].
  rewrite Hm in He. cbn [fst] in He.
  set (ci := derive (next_context (activate w)) (active w) no_overrides).
  set (wi := set_contextvar (Some ci) (bump (activate w))).
  destruct (cache_key_pure (S fuel) a wi ci) as [m' Hm']; [done|].
  change (heap wi) with (heap (activate w)) in Hm'.
  change (sample_count ci) with (sample_count (active w)) in Hm'.
  rewrite He in Hm'.
  cbn [resolve].
  rewrite (bind_Ok _ _ (activate w) _ (activate w))
    by (unfold obj_at; by rewrite heap_activate, Ha).
  cbv beta match.
  erewrite with_Context_Some; [|done|].
  2:{ fold ci wi. erewrite bind_Err by exact Hm'. reflexivity. }
  eexists. split; [done|]. cbn. rewrite calls_activate. auto.
Qed.

Lemma nested_keys_TypeError h n fuel values :
  Forall (λ v, ∀ e, fst (key_at h n fuel v tt) = Err e → e = TypeError) values →
  Exists (λ v, ∃ k, fst (key_at h n fuel v tt) = Ok k ∧ is_CacheKey k = false) values →
  fst (nested_keys h n fuel values tt) = Err TypeError.
Proof.
  unfold nested_keys. intros Hall Hex.
  induction Hex as [v vs (k & Hk & Hrec)|v vs Hex IH];
    inversion_clear Hall as [|?? Hv Hvs]; cbn [for_each];
    destruct (key_at h n fuel v tt) as [[k'|e] []] eqn:Hkv; cbn in *; simplify_eq.
  - erewrite bind_Err; [done|]. erewrite bind_Ok by exact Hkv. by destruct k.
  - destruct (is_CacheKey k') eqn:Hrec.
    + destruct k' as [| |f x y z u]; try done.
      erewrite bind_Ok; [|erewrite bind_Ok by exact Hkv; reflexivity].
      specialize (IH Hvs).
      destruct (for_each _ vs tt) as [[ks|e] []] eqn:Hfe; cbn in IH; simplify_eq.
      by erewrite bind_Err by exact Hfe.
    + erewrite bind_Err; [done|]. erewrite bind_Ok by exact Hkv. by destruct k'.
  - rewrite (Hv e eq_refl) in Hkv.
    erewrite bind_Err; [done|]. by erewrite bind_Err by exact Hkv.
Qed.

(** C10. When a component of a [Mixture] has a cache key that is not a
    [CacheKey] record (as a [Value] wrapping a raw number has: its key is the
    number), and computing the keys of the components raises nothing but
    [TypeError], then computing the key of the [Mixture] raises [TypeError],
    and so does resolving the [Mixture], before any cache or sampling
    function is touched. *)
Theorem Mixture_cache_key_TypeError (E : externals) (w : world) (a : nat)
    (values : list nat) (nm : option string) (cst : option bool) (fuel : nat) :
  heap w !! a = Some (Mixture values nm cst) →
  Forall (λ v, ∀ e, fst (cache_key fuel v (activate w)) = Err e → e = TypeError)
         values →
  Exists (λ v, (∃ z c n, heap w !! v = Some (Value (PNum z) c n) ∧ fuel ≠ 0) ∨
               (∃ k, fst (cache_key fuel v (activate w)) = Ok k ∧
                     is_CacheKey k = false)) values →
  fst (cache_key (S fuel) a w) = Err TypeError ∧
  ∃ w', resolve E (S fuel) a w = (Err TypeError, w') ∧
        dicts w' = dicts (activate w) ∧ calls w' = calls w ∧
        contextvar w' = Some (active w).
Proof.
  intros Ha Hall Hex.
  assert (fst (cache_key (S fuel) a w) = Err TypeError) as Hkey.
  { destruct (cache_key_Mixture fuel a w _ _ _ Ha) as [m ->]. cbn [fst].
    pose proof (contextvar_activate w) as Hc.
    assert (∀ v, fst (cache_key fuel v (activate w))
                 = fst (key_at (heap w) (sample_count (active w)) fuel v tt)) as Hpure.
    { intros v. destruct (cache_key_pure fuel v _ _ Hc) as [m' ->].
      by rewrite heap_activate. }
    unfold bind.
    rewrite (surjective_pairing (nested_keys _ _ _ _ _)).
    rewrite (nested_keys_TypeError (heap w) (sample_count (active w)) fuel values).
    - by destruct (snd _).
    - eapply Forall_impl; [exact Hall|]. intros v Hv e. rewrite <-Hpure. apply Hv.
    - eapply Exists_impl; [exact Hex|]. intros v [(z & c & n & Hv & Hf)|(k & Hk & Hr)].
      + exists (KNum z). split; [|done]. destruct fuel; [done|]. cbn. by rewrite Hv.
      + exists k. by rewrite <-Hpure. }
  split; [done|]. by eapply resolve_Mixture_key_error.
Qed.

Lemma _sample_empty (r : nat → M rv) (w : world) :
  ∃ w', _sample r [] w = (Err ZeroDivisionError, w') ∧
        dicts w' = dicts (activate w) ∧ calls w' = calls w ∧
        contextvar w' = Some (active w).
Proof.
  unfold _sample. erewrite bind_Err.
  2:{ unfold _sample_counts. erewrite bind_Err; [reflexivity|].
      apply with_Context_run. reflexivity. }
  eexists. split; [done|]. cbn. rewrite calls_activate. auto.
Qed.

Lemma key_at_Mixture_empty h n fuel a nm cst :
  h !! a = Some (Mixture [] nm cst) →
  key_at h n (S fuel) a tt = (Ok (Mixture_key n []), tt).
Proof. intros Ha. by rewrite (key_at_Mixture _ _ _ _ _ _ _ Ha). Qed.

(** C9, as the code has it.  An empty sequence of components is accepted by
    the constructor and by [Mixture.cache_key]; [Mixture._sample] on it
    raises [ZeroDivisionError] in every world; resolving such a [Mixture]
    never stores anything in a cache and never samples, and it raises
    [ZeroDivisionError] unless the active cache already holds an entry under
    the node's key, which is then returned. *)
Theorem Mixture_empty_resolve (E : externals) (w : world) (a : nat)
    (nm : option string) (cst : option bool) (fuel : nat) :
  heap w !! a = Some (Mixture [] nm cst) →
  let k := Mixture_key (sample_count (active w)) [] in
  (∀ w0, fst (new_Mixture [] nm w0) = Ok (length (heap w0))) ∧
  fst (cache_key (S fuel) a w) = Ok k ∧
  (∀ r w0, fst (_sample r [] w0) = Err ZeroDivisionError) ∧
  ∃ r w', resolve E (S fuel) a w = (r, w') ∧
          dicts w' = dicts (activate w) ∧ calls w' = calls w ∧
          contextvar w' = Some (active w) ∧
          r = match dict_of (activate w) (cache (active w)) !! k with
              | None => Err ZeroDivisionError
              | Some v => Ok v
              end.
Proof.
  intros Ha k. split; [done|]. split.
  { destruct (cache_key_Mixture fuel a w _ _ _ Ha) as [m ->]. done. }
  split.
  { intros r w0. by destruct (_sample_empty r w0) as (w' & -> & _). }
  rewrite (resolve_Mixture_activate _ _ _ _ _ _ _ Ha).
  pose proof (contextvar_activate w) as Hc.
  set (ci := derive (next_context (activate w)) (active w) no_overrides).
  set (wi := set_contextvar (Some ci) (bump (activate w))).
  assert (∀ m, ∃ m', cache_key (S fuel) a (bump_by m wi)
                     = (Ok k, bump_by m' wi)) as Hkey.
  { intros m. destruct (cache_key_pure (S fuel) a (bump_by m wi) ci) as [m' ->]; [done|].
    exists (m' + m). rewrite bump_by_bump_by. f_equal.
    cbn [heap bump_by wi set_next_context set_contextvar bump].
    rewrite heap_activate. by rewrite (key_at_Mixture_empty _ _ _ _ _ _ Ha). }
  assert (wi = bump_by 0 wi) as Hwi by (unfold bump_by; world_eq).
  destruct (Hkey 0) as [m1 Hk1]. rewrite <-Hwi in Hk1.
  destruct (Hkey m1) as [m2 Hk2].
  cbn [resolve].
  rewrite (bind_Ok _ _ (activate w) _ (activate w))
    by (unfold obj_at; by rewrite heap_activate, Ha).
  cbv beta match. fold ci wi.
  destruct (dict_of (activate w) (cache (active w)) !! k) as [v|] eqn:Hv.
  - eexists _, _. split.
    { eapply with_Context_Some; [done|]. fold ci wi.
      erewrite bind_Ok by exact Hk1. erewrite bind_Ok by reflexivity.
      change (dict_of (bump_by m1 wi) (cache ci))
        with (dict_of (activate w) (cache (active w))).
      rewrite Hv.
      erewrite bind_Ok by exact Hk2. erewrite bind_Ok by reflexivity.
      change (dict_of (bump_by m2 wi) (cache ci))
        with (dict_of (activate w) (cache (active w))).
      rewrite Hv. reflexivity. }
    cbn. rewrite calls_activate. auto.
  - destruct (_sample_empty (resolve E fuel) (bump_by m1 wi)) as (w2 & Hs & Hd & Hcs & _).
    eexists _, _. split.
    { eapply with_Context_Some; [done|]. fold ci wi.
      erewrite bind_Ok by exact Hk1. erewrite bind_Ok by reflexivity.
      change (dict_of (bump_by m1 wi) (cache ci))
        with (dict_of (activate w) (cache (active w))).
      rewrite Hv. erewrite bind_Err by exact Hs. reflexivity. }
    cbn. rewrite Hd, Hcs. cbn. rewrite calls_activate. auto.
Qed.

(** ** Stratified allocation ([Mixture._sample]) *)

Lemma sumZ_app l1 l2 : sumZ (l1 ++ l2) = (sumZ l1 + sumZ l2)%Z.
Proof. unfold sumZ. induction l1 as [|x l1 IH]; cbn; lia. Qed.

Lemma sumZ_replicate k x : sumZ (replicate k x) = (Z.of_nat k * x)%Z.
Proof. unfold sumZ. induction k as [|k IH]; cbn [replicate foldr]; lia. Qed.

Global Instance sumZ_Permutation : Proper ((≡ₚ) ==> (=)) sumZ.
Proof. unfold sumZ. induction 1; cbn; lia. Qed.

(** The allocation is [r] counts of [q + 1] followed by [k - r] counts of
    [q], for [q = n // k] and [r = n % k]. *)
Lemma imap_allocation (q : Z) (r k off : nat) :
  imap (λ i count, (count + Z.b2z (bool_decide (Z.of_nat (off + i) < Z.of_nat r)))%Z)
       (replicate k q)
  = replicate (min (r - off) k) (q + 1)%Z ++ replicate (k - (r - off)) q.
Proof.
  revert off. induction k as [|k IH]; intros off.
  { by rewrite Nat.min_0_r. }
  cbn [replicate imap].
  rewrite (imap_ext _ (λ i count,
    (count + Z.b2z (bool_decide (Z.of_nat (S off + i) < Z.of_nat r)))%Z))
    by (intros i x _; cbn; do 2 f_equal; apply bool_decide_ext; lia).
  rewrite IH, Nat.add_0_r.
  destruct (decide (off < r)) as [Hlt|Hge].
  - rewrite bool_decide_eq_true_2 by lia.
    replace (min (r - off) (S k)) with (S (min (r - S off) k)) by lia.
    replace (S k - (r - off)) with (k - (r - S off)) by lia. done.
  - rewrite bool_decide_eq_false_2 by lia.
    replace (r - off) with 0 by lia. replace (r - S off) with 0 by lia.
    cbn. by rewrite Z.add_0_r, !Nat.sub_0_r.
Qed.

Lemma allocation_eq (n : Z) (k : nat) :
  k ≠ 0 →
  allocation n k
  = replicate (Z.to_nat (n mod Z.of_nat k)) (n / Z.of_nat k + 1)%Z
    ++ replicate (k - Z.to_nat (n mod Z.of_nat k)) (n / Z.of_nat k)%Z.
Proof.
  intros Hk. unfold allocation.
  pose proof (Z.mod_pos_bound n (Z.of_nat k)) as Hr.
  rewrite (imap_ext _ (λ i count,
    (count + Z.b2z (bool_decide
       (Z.of_nat (0 + i) < Z.of_nat (Z.to_nat (n mod Z.of_nat k)))))%Z))
    by (intros i x _; cbn; do 2 f_equal; apply bool_decide_ext; lia).
  rewrite imap_allocation, Nat.sub_0_r. f_equal. f_equal. lia.
Qed.

Lemma allocation_sum (n : Z) (k : nat) : k ≠ 0 → sumZ (allocation n k) = n.
Proof.
  intros Hk. rewrite allocation_eq, sumZ_app, !sumZ_replicate by done.
  pose proof (Z.mod_pos_bound n (Z.of_nat k)).
  pose proof (Z.div_mod n (Z.of_nat k)). nia.
Qed.

Lemma allocation_length (n : Z) (k : nat) : length (allocation n k) = k.
Proof. unfold allocation. by rewrite length_imap, length_replicate. Qed.

(** ** [random.sample] permutes *)

Lemma sample_step_Permutation {A} (pool : list A) (j : nat) (x y : A) :
  pool !! j = Some x → last pool = Some y →
  x :: take (length pool - 1) (<[j := y]> pool) ≡ₚ pool.
Proof.
  intros Hj Hlast. apply last_Some in Hlast as [init ->].
  rewrite length_app. cbn [length]. replace (length init + 1 - 1) with (length init) by lia.
  destruct (decide (j < length init)) as [Hlt|Hge].
  - rewrite insert_app_l by done. rewrite take_app_length'
      by (by rewrite length_insert).
    rewrite lookup_app_l in Hj by done.
    rewrite insert_take_drop by done.
    rewrite <-(take_drop_middle init j x Hj) at 3.
    rewrite (Permutation_app_comm _ [y]). cbn [app].
    rewrite <-!Permutation_middle. apply perm_swap.
  - apply lookup_lt_Some in Hj as Hlen. rewrite length_app in Hlen. cbn in Hlen.
    assert (j = length init) as -> by lia.
    rewrite list_lookup_middle in Hj by done. simplify_eq.
    rewrite insert_app_r_alt, Nat.sub_diag by done. cbn.
    rewrite take_app_length. by rewrite Permutation_app_comm.
Qed.

Lemma randbelow_spec (m : nat) (w : world) :
  0 < m →
  ∃ j w1, randbelow m w = (Ok j, w1) ∧ j < m ∧ w1 = set_rand (rand w1) w.
Proof.
  intros Hm. unfold randbelow. destruct (rand w) as [|r rs] eqn:Hr.
  - exists 0, w. split; [done|]. split; [done|]. destruct w; cbn in *; by subst.
  - exists (r mod m), (set_rand rs w). split; [done|].
    split; [apply Nat.mod_upper_bound; lia|done].
Qed.

Lemma random_sample_Permutation {A} (k : nat) : ∀ (pool : list A) (w : world),
  length pool = k →
  ∃ l w', random_sample pool k w = (Ok l, w') ∧ l ≡ₚ pool ∧
          w' = set_rand (rand w') w.
Proof.
  induction k as [|k IH]; intros pool w Hlen.
  { destruct pool; [|done]. exists [], w. split; [done|]. split; [done|]. by destruct w. }
  cbn [random_sample].
  destruct (randbelow_spec (length pool) w) as (j & w1 & Hrb & Hj & Hw1); [lia|].
  erewrite bind_Ok by exact Hrb.
  destruct (lookup_lt_is_Some_2 pool j Hj) as [x Hx]. rewrite Hx.
  destruct (last pool) as [y|] eqn:Hy; [|apply last_None in Hy; by subst].
  destruct (IH (take (length pool - 1) (<[j := y]> pool)) w1) as (l & w' & Hrun & Hp & Hw').
  { rewrite length_take, length_insert. lia. }
  erewrite bind_Ok by exact Hrun. eexists _, _. split; [done|]. split.
  - rewrite Hp. by apply sample_step_Permutation.
  - rewrite Hw', Hw1. by destruct w.
Qed.

Lemma filter_replicate {A} (P : A → Prop) `{!∀ x, Decision (P x)} (k : nat) (x : A) :
  filter P (replicate k x) = if decide (P x) then replicate k x else [].
Proof.
  induction k as [|k IH]; cbn [replicate]; [by destruct (decide (P x))|].
  rewrite filter_cons, IH. by destruct (decide (P x)).
Qed.

Lemma array_data_concat (samples : list rv) (counts : list Z) :
  Forall2 (λ s c, ∃ id data, s = RArr id data ∧ Z.of_nat (length data) = c)
          samples counts →
  ∃ datas, mapM array_data samples = Some datas ∧
           Z.of_nat (length (concat datas)) = sumZ counts.
Proof.
  induction 1 as [|s c samples counts (id & data & -> & Hlen) _ (datas & Hm & Hs)].
  - by exists [].
  - exists (data :: datas). cbn. rewrite Hm. split; [done|].
    rewrite length_app. unfold sumZ in *. cbn. lia.
Qed.

Lemma _sample_counts_run (values : list nat) (w : world) :
  values ≠ [] →
  ∃ counts w1,
    _sample_counts values w = (Ok counts, w1) ∧
    counts ≡ₚ allocation (sample_count (active w)) (length values) ∧
    contextvar w1 = Some (active w) ∧ dicts w1 = dicts (activate w).
Proof.
  intros Hne. unfold _sample_counts.
  assert (Z.of_nat (length values) ≠ 0%Z) as Hk by (destruct values; [done|cbn; lia]).
  erewrite bind_Ok.
  2:{ apply with_Context_run. unfold py_mod, py_floordiv.
      cbn [sample_count derive default kw_sample_count no_overrides].
      rewrite !decide_False by done. reflexivity. }
  cbv beta match.
  fold (allocation (sample_count (active w)) (length values)).
  destruct (random_sample_Permutation (length (allocation (sample_count (active w))
                                                          (length values)))
              (allocation (sample_count (active w)) (length values))
              (set_contextvar (Some (active w)) (entered no_overrides w)) eq_refl)
    as (l & w' & Hrun & Hp & Hw').
  exists l, w'. split; [done|]. split; [done|]. rewrite Hw'. done.
Qed.

(** The shuffle consumes one draw for each pick. *)
Lemma random_sample_rand {A} (k : nat) : ∀ (pool : list A) (w : world),
  length pool = k → rand (snd (random_sample pool k w)) = drop k (rand w).
Proof.
  induction k as [|k IH]; intros pool w Hlen; [done|].
  cbn [random_sample].
  destruct (randbelow_spec (length pool) w) as (j & w1 & Hrb & Hj & _); [lia|].
  erewrite bind_Ok by exact Hrb.
  assert (rand w1 = drop 1 (rand w)) as Hw1.
  { unfold randbelow in Hrb. destruct (rand w) as [|r rs] eqn:Hr; simplify_eq; [|done].
    by rewrite Hr. }
  destruct (lookup_lt_is_Some_2 pool j Hj) as [x Hx]. rewrite Hx.
  destruct (last pool) as [y|] eqn:Hy; [|apply last_None in Hy; by subst].
  specialize (IH (take (length pool - 1) (<[j := y]> pool)) w1).
  unfold bind.
  assert (length (take (length pool - 1) (<[j := y]> pool)) = k) as Hlen'
    by (rewrite length_take, length_insert; lia).
  specialize (IH Hlen').
  destruct (random_sample _ k w1) as [[rest|e] w2]; cbv [ret]; cbn [snd] in *;
    by rewrite IH, Hw1, drop_drop.
Qed.

(** Every arrangement of the pool is the outcome of the shuffle for some
    draws of the random source. *)
Lemma random_sample_reaches {A} (k : nat) : ∀ (pool target : list A) (w : world),
  length pool = k → target ≡ₚ pool →
  ∃ draws, length draws = k ∧
           fst (random_sample pool k (set_rand draws w)) = Ok target.
Proof.
  induction k as [|k IH]; intros pool target w Hlen Hp.
  { destruct pool; [|done]. apply Permutation_nil_r in Hp as ->. by exists []. }
  destruct target as [|x target].
  { apply Permutation_length in Hp. cbn in Hp. lia. }
  assert (x ∈ pool) as Hx by (rewrite <-Hp; left).
  apply list_elem_of_lookup in Hx as [j Hj].
  pose proof (lookup_lt_Some _ _ _ Hj) as Hlt.
  destruct (last pool) as [y|] eqn:Hy; [|apply last_None in Hy; subst; cbn in *; lia].
  set (pool' := take (length pool - 1) (<[j := y]> pool)).
  assert (target ≡ₚ pool') as Hp'.
  { apply (Permutation_cons_inv (a := x)). rewrite Hp. symmetry.
    by apply sample_step_Permutation. }
  destruct (IH pool' target w) as (rs & Hrs & Hrun); [|done|].
  { unfold pool'. rewrite length_take, length_insert. lia. }
  exists (j :: rs). split; [cbn; by rewrite Hrs|].
  cbn [random_sample]. unfold bind at 1, randbelow. cbn [rand set_rand].
  rewrite Nat.mod_small by done. rewrite Hj, Hy. fold pool'.
  unfold bind.
  change (set_rand rs (set_rand (j :: rs) w)) with (set_rand rs w).
  destruct (random_sample pool' k (set_rand rs w)) as [[l|e] w2]; cbn in *;
    by simplify_eq.
Qed.

(** [_sample_counts] is the shuffle of the allocation, run when the scope
    that read the sample count has been left. *)
Lemma _sample_counts_eq (values : list nat) (w : world) :
  values ≠ [] →
  _sample_counts values w
  = random_sample (allocation (sample_count (active w)) (length values))
      (length values)
      (set_contextvar (Some (active w)) (entered no_overrides w)).
Proof.
  intros Hne. unfold _sample_counts.
  assert (Z.of_nat (length values) ≠ 0%Z) as Hk by (destruct values; [done|cbn; lia]).
  erewrite bind_Ok.
  2:{ apply with_Context_run. unfold py_mod, py_floordiv.
      cbn [sample_count derive default kw_sample_count no_overrides].
      rewrite !decide_False by done. reflexivity. }
  cbv beta match.
  fold (allocation (sample_count (active w)) (length values)).
  by rewrite allocation_length.
Qed.

(** What the random source has to do with the counts: one draw is consumed
    for each component, and every arrangement of the allocation is what the
    counts are for some draws. *)
Lemma _sample_counts_shuffle (values : list nat) (w : world) :
  values ≠ [] →
  rand (snd (_sample_counts values w)) = drop (length values) (rand w) ∧
  ∀ target,
    target ≡ₚ allocation (sample_count (active w)) (length values) →
    ∃ draws, length draws = length values ∧
             fst (_sample_counts values (set_rand draws w)) = Ok target.
Proof.
  intros Hne. split.
  - rewrite _sample_counts_eq by done.
    rewrite random_sample_rand by apply allocation_length.
    unfold entered. cbn. by rewrite rand_activate.
  - intros target Hp.
    destruct (random_sample_reaches (length values)
                (allocation (sample_count (active w)) (length values)) target
                (set_contextvar (Some (active w)) (entered no_overrides w)))
      as (draws & Hlen & Hrun); [apply allocation_length|done|].
    exists draws. split; [done|]. rewrite _sample_counts_eq by done.
    assert (active (set_rand draws w) = active w) as -> by done.
    assert (set_contextvar (Some (active w)) (entered no_overrides (set_rand draws w))
            = set_rand draws
                (set_contextvar (Some (active w)) (entered no_overrides w))) as ->;
      [|exact Hrun].
    unfold entered, activate, active. cbn.
    destruct (contextvar w); reflexivity.
Qed.

(** C3. For a [Mixture] of [k] components resolved under sample count [n]
    with [1 <= k <= n]: the allocation is [n // k] for every component, plus
    one for [n % k] of them; the counts used are a random permutation of
    it, drawn from the random source: one draw is consumed for each
    component, and every arrangement of the allocation is what the counts
    are for some draws; they sum to [n]; and when every component resolves,
    in the scope that overrides [sample_count] with its count, to an array
    of that length, the concatenation that [_sample] returns has [n]
    items. *)
Theorem Mixture_sample_allocation (resolve_component : nat → M rv)
    (values : list nat) (w : world) :
  let n := sample_count (active w) in
  let k := length values in
  1 ≤ k → (Z.of_nat k ≤ n)%Z →
  ∃ counts w1,
    _sample_counts values w = (Ok counts, w1) ∧
    counts ≡ₚ allocation n k ∧
    allocation n k
      = replicate (Z.to_nat (n mod Z.of_nat k)) (n / Z.of_nat k + 1)%Z
        ++ replicate (k - Z.to_nat (n mod Z.of_nat k)) (n / Z.of_nat k)%Z ∧
    length counts = k ∧
    Forall (λ c, c = (n / Z.of_nat k)%Z ∨ c = (n / Z.of_nat k + 1)%Z) counts ∧
    length (filter (λ c, c = (n / Z.of_nat k + 1)%Z) counts)
      = Z.to_nat (n mod Z.of_nat k) ∧
    sumZ counts = n ∧
    rand w1 = drop k (rand w) ∧
    (∀ target, target ≡ₚ allocation n k →
       ∃ draws, length draws = k ∧
                fst (_sample_counts values (set_rand draws w)) = Ok target) ∧
    (∀ samples w2,
       _sample_draws resolve_component values counts w1 = (Ok samples, w2) →
       Forall2 (λ s c, ∃ id data, s = RArr id data ∧ Z.of_nat (length data) = c)
               samples counts →
       ∃ id data w3,
         _sample resolve_component values w = (Ok (RArr id data), w3) ∧
         Z.of_nat (length data) = n).
Proof.
  intros n k Hk Hn.
  assert (k ≠ 0) as Hk0 by lia.
  assert (values ≠ []) as Hne by (intros ->; cbn in *; lia).
  destruct (_sample_counts_run values w Hne) as (counts & w1 & Hrun & Hp & _).
  destruct (_sample_counts_shuffle values w Hne) as [Hrand Hreach].
  rewrite Hrun in Hrand. cbn [snd] in Hrand.
  fold n k in Hp. pose proof (allocation_eq n k Hk0) as Heq.
  pose proof (Z.mod_pos_bound n (Z.of_nat k)) as Hr.
  exists counts, w1. split; [done|]. split; [done|]. split; [done|].
  split; [by rewrite Hp, allocation_length|].
  split.
  { rewrite Hp, Heq. apply Forall_app. split; apply Forall_replicate; auto. }
  split.
  { rewrite Hp, Heq, filter_app, !filter_replicate.
    rewrite decide_True by done. rewrite decide_False by lia.
    by rewrite app_nil_r, length_replicate. }
  split; [by rewrite Hp, allocation_sum|].
  split; [exact Hrand|]. split; [exact Hreach|].
  intros samples w2 Hdraws Hsamples.
  destruct (array_data_concat _ _ Hsamples) as (datas & Hm & Hlen).
  exists (next_array w2), (concat datas). eexists.
  split.
  - unfold _sample. erewrite bind_Ok by exact Hrun. erewrite bind_Ok by exact Hdraws.
    unfold np_concatenate.
    destruct samples as [|s samples]; [|by rewrite Hm].
    apply Forall2_length in Hsamples. rewrite Hp, allocation_length in Hsamples.
    cbn in Hsamples. lia.
  - by rewrite Hlen, Hp, allocation_sum.
Qed.

(** ** Constancy analysis *)

Lemma bind_inv {S A B} (m : ST S A) (k : A → ST S B) s r s' :
  bind k m s = (Ok r, s') → ∃ a s1, m s = (Ok a, s1) ∧ k a s1 = (Ok r, s').
Proof. unfold bind. destruct (m s) as [[a|e] s1]; [eauto|done]. Qed.

Lemma is_Value_set_constant c o : is_Value (set_constant c o) = is_Value o.
Proof. by destruct o. Qed.
Lemma get_constant_set_constant c o :
  is_Value o = true → get_constant (set_constant c o) = c.
Proof. by destruct o. Qed.
Lemma set_constant_set_constant c c' o :
  set_constant c (set_constant c' o) = set_constant c o.
Proof. by destruct o. Qed.
Lemma set_constant_id o c : get_constant o = c → is_Value o = true → set_constant c o = o.
Proof. destruct o; cbn; congruence. Qed.

Lemma marked_refl h : marked h h.
Proof. split; [done|]. intros a o Ho. by left. Qed.

Lemma marked_inv h h' a o' :
  marked h h' → h' !! a = Some o' →
  ∃ o, h !! a = Some o ∧
       (o' = o ∨ (is_Value o = true ∧
                  ∃ b, o' = set_constant (Some b) o ∧ classified h (PObj a) b)).
Proof.
  intros [Hlen Hm] Ho'.
  destruct (h !! a) as [o|] eqn:Ho.
  - exists o. split; [done|].
    destruct (Hm a o Ho) as [H|(Hv & b & H & Hc)]; rewrite H in Ho'; simplify_eq;
      [by left|right; eauto].
  - apply lookup_lt_Some in Ho'. apply lookup_ge_None in Ho. lia.
Qed.

(** A classification in a marked heap is a classification in the heap
    the marking started from. *)
Lemma classified_marked h h' t b :
  marked h h' → classified h' t b → classified h t b.
Proof.
  intros Hm Hc.
  induction Hc as [ |z| |a f this other Ha Ho|a o b Ha Ho Hv Hb
                  |a values nm bs Ha Ho Hlen _ IH
                  |a nm b f this x Ha Ho Hb _ IH
                  |a nm b f this other x y Ha Ho Hb _ IHx _ IHy
                  |a nm b o x Ha Ho Hb Hv _ IH
                  |a nm v Ha Ho Hv].
  - constructor.
  - constructor.
  - constructor.
  - destruct (marked_inv _ _ _ _ Hm Ho) as (o & Ho' & [<-|(Hv & b & Heq & _)]).
    + by eapply classified_Operation.
    + by destruct o.
  - destruct (marked_inv _ _ _ _ Hm Ho) as (o0 & Ho' & [<-|(Hv0 & b0 & -> & Hc)]).
    + by eapply classified_declared.
    + rewrite get_constant_set_constant in Hb by done. by simplify_eq.
  - destruct (marked_inv _ _ _ _ Hm Ho) as (o & Ho' & [<-|(Hv & b & Heq & _)]).
    + by eapply classified_Mixture.
    + by destruct o.
  - destruct (marked_inv _ _ _ _ Hm Ho) as (o & Ho' & [<-|(Hv & b0 & Heq & _)]);
      [|by destruct o].
    destruct (marked_inv _ _ _ _ Hm Hb) as (ob & Hb' & [<-|(Hvb & b1 & Heq & _)]);
      [|by destruct ob].
    by eapply classified_unary.
  - destruct (marked_inv _ _ _ _ Hm Ho) as (o & Ho' & [<-|(Hv & b0 & Heq & _)]);
      [|by destruct o].
    destruct (marked_inv _ _ _ _ Hm Hb) as (ob & Hb' & [<-|(Hvb & b1 & Heq & _)]);
      [|by destruct ob].
    by eapply classified_binary.
  - destruct (marked_inv _ _ _ _ Hm Ho) as (o0 & Ho' & [<-|(Hv0 & b0 & Heq & _)]);
      [|by destruct o0].
    destruct (marked_inv _ _ _ _ Hm Hb) as (ob & Hb' & Hob).
    eapply classified_wrapped; [done..| |done].
    destruct Hob as [<-|(Hvb & _)]; done.
  - destruct (marked_inv _ _ _ _ Hm Ho) as (o & Ho' & [<-|(Hv0 & b & Heq & _)]).
    + by eapply classified_other.
    + by destruct o.
Qed.

Lemma marked_trans h h1 h2 : marked h h1 → marked h1 h2 → marked h h2.
Proof.
  intros Hm1 Hm2. pose proof Hm1 as [Hlen1 H1]. pose proof Hm2 as [Hlen2 H2].
  split; [congruence|]. intros a o Ho.
  destruct (H1 a o Ho) as [Ho1|(Hv & b & Ho1 & Hc)].
  - destruct (H2 a o Ho1) as [Ho2|(Hv & b & Ho2 & Hc)]; [by left|].
    right. split; [done|]. exists b. split; [done|]. by eapply classified_marked.
  - destruct (H2 _ _ Ho1) as [Ho2|(Hv2 & b2 & Ho2 & Hc2)].
    + right. eauto.
    + right. split; [done|]. exists b2. rewrite set_constant_set_constant in Ho2.
      split; [done|]. by eapply classified_marked.
Qed.

Lemma assign_constant_inv a c h u h' :
  assign_constant a c h = (Ok u, h') →
  ∃ o, h !! a = Some o ∧ is_Value o = true ∧ h' = <[a := set_constant c o]> h.
Proof.
  unfold assign_constant. destruct (h !! a) as [o|]; [|done].
  destruct (is_Value o) eqn:Hv; [|done]. intros [= <-]. eauto.
Qed.

(** Assigning to a node its classification keeps the heap marked and
    leaves the node settled. *)
Lemma assign_marked h h1 v b u h2 :
  marked h h1 → classified h (PObj v) b →
  assign_constant v (Some b) h1 = (Ok u, h2) →
  marked h h2 ∧ settled h h2 v.
Proof.
  intros Hm Hc Ha. pose proof Hm as [Hlen H1].
  destruct (assign_constant_inv _ _ _ _ _ Ha) as (o1 & Ho1 & Hv1 & ->).
  split.
  - split; [by rewrite length_insert|]. intros a o Ho.
    destruct (decide (a = v)) as [->|Hne].
    + rewrite list_lookup_insert_eq by (by eapply lookup_lt_Some).
      right.
      destruct (H1 v o Ho) as [Ho'|(Hv & b' & Ho' & _)]; rewrite Ho' in Ho1; simplify_eq.
      * eauto.
      * rewrite set_constant_set_constant. eauto.
    + rewrite list_lookup_insert_ne by done. by apply H1.
  - exists (set_constant (Some b) o1), b.
    rewrite list_lookup_insert_eq by (by eapply lookup_lt_Some).
    by rewrite is_Value_set_constant, get_constant_set_constant.
Qed.

Lemma settled_marked h h1 h2 v :
  marked h h1 → marked h1 h2 → settled h h1 v → settled h h2 v.
Proof.
  intros Hm1 [_ H2] (o & b & Ho & Hv & Hb & Hc).
  destruct (H2 v o Ho) as [Ho2|(_ & b2 & Ho2 & Hc2)].
  - by exists o, b.
  - exists (set_constant (Some b2) o), b2.
    rewrite is_Value_set_constant, get_constant_set_constant by done.
    split; [done|]. split; [done|]. split; [done|]. by eapply classified_marked.
Qed.

Lemma read_constant_settled h h' v :
  settled h h' v →
  ∃ b, read_constant v h' = (Ok (Some b), h') ∧ classified h (PObj v) b.
Proof.
  intros (o & b & Ho & Hv & Hb & Hc). exists b. split; [|done].
  unfold read_constant, bind, node_at. by rewrite Ho, Hv, Hb.
Qed.

Lemma mark_and_assign_sound fuel h0 h1 v u h2 :
  sound fuel → marked h0 h1 →
  mark_and_assign fuel v h1 = (Ok u, h2) →
  marked h0 h2 ∧ settled h0 h2 v.
Proof.
  intros Hs Hm Hrun. apply bind_inv in Hrun as (c & hx & Hc & Ha).
  destruct (Hs _ _ _ _ Hc) as (b & -> & Hb & Hmx).
  eapply assign_marked; [by eapply marked_trans|by eapply classified_marked|done].
Qed.

Lemma mark_components_sound fuel (vs : list nat) : ∀ h0 h1 us h2,
  sound fuel → marked h0 h1 →
  for_each (mark_and_assign fuel) vs h1 = (Ok us, h2) →
  marked h0 h2 ∧ Forall (settled h0 h2) vs.
Proof.
  induction vs as [|v vs IH]; intros h0 h1 us h2 Hs Hm Hrun.
  { cbn [for_each] in Hrun. cbv [ret raise] in Hrun; simplify_eq. split; [done|constructor]. }
  cbn [for_each] in Hrun.
  apply bind_inv in Hrun as (u & hx & Hv & Hrun).
  apply bind_inv in Hrun as (us' & hy & Hvs & Hret). cbv [ret raise] in Hret; simplify_eq.
  destruct (mark_and_assign_sound _ _ _ _ _ _ Hs Hm Hv) as [Hmx Hsx].
  destruct (IH h0 hx us' h2 Hs Hmx Hvs) as [Hm2 Hall].
  destruct (IH hx hx us' h2 Hs (marked_refl _) Hvs) as [Hmx2 _].
  split; [done|]. constructor; [|done]. exact (settled_marked _ _ _ _ Hmx Hmx2 Hsx).
Qed.

Lemma read_components h0 h (vs : list nat) :
  Forall (settled h0 h) vs →
  ∃ bs, for_each read_constant vs h = (Ok (Some <$> bs), h) ∧
        length bs = length vs ∧
        ∀ i v b, vs !! i = Some v → bs !! i = Some b → classified h0 (PObj v) b.
Proof.
  induction 1 as [|v vs Hv _ (bs & Hrun & Hlen & Hbs)].
  { exists []. split; [done|]. split; [done|]. by intros []. }
  destruct (read_constant_settled _ _ _ Hv) as (b & Hr & Hc).
  exists (b :: bs). cbn [for_each].
  erewrite bind_Ok by exact Hr. erewrite bind_Ok by exact Hrun.
  split; [done|]. split; [cbn; lia|].
  intros [|i] v' b' ??; simplify_eq/=; eauto.
Qed.

Lemma forallb_truthy bs : forallb truthy (Some <$> bs) = forallb id bs.
Proof. induction bs as [|[] bs IH]; cbn; [done|exact IH|done]. Qed.

Lemma node_at_inv a h o h' : node_at a h = (Ok o, h') → h !! a = Some o ∧ h' = h.
Proof. unfold node_at. destruct (h !! a); [|done]. by intros [= -> ->]. Qed.

Lemma read_constant_inv a h c h' :
  read_constant a h = (Ok c, h') →
  ∃ o, h !! a = Some o ∧ is_Value o = true ∧ c = get_constant o ∧ h' = h.
Proof.
  intros Hr. apply bind_inv in Hr as (o & hx & Ho & Hr).
  apply node_at_inv in Ho as [Ho ->]. exists o.
  destruct (is_Value o); [|done]. cbv [ret] in Hr. by simplify_eq.
Qed.

Lemma settled_read h0 h v c h' :
  settled h0 h v → read_constant v h = (Ok c, h') →
  ∃ b, c = Some b ∧ h' = h ∧ classified h0 (PObj v) b.
Proof.
  intros Hs Hr. destruct (read_constant_settled _ _ _ Hs) as (b & Hr' & Hc).
  rewrite Hr in Hr'. simplify_eq. eauto.
Qed.

(** Whenever [_mark_constancy] returns, it returns a boolean, the one the
    rules give, and it has only marked the heap. *)
Lemma _mark_constancy_sound fuel : sound fuel.
Proof.
  induction fuel as [|fuel IH]; intros t h r h' Hrun; [done|].
  cbn [_mark_constancy] in Hrun.
  destruct t as [z| |a].
  { cbv [ret raise] in Hrun; simplify_eq. exists true. eauto using classified, marked_refl. }
  { cbv [ret raise] in Hrun; simplify_eq. exists true. eauto using classified, marked_refl. }
  destruct (decide (a = _tracer)) as [->|Ha].
  { cbv [ret raise] in Hrun; simplify_eq. exists false. eauto using classified, marked_refl. }
  apply bind_inv in Hrun as (o & hx & Ho & Hrun). apply node_at_inv in Ho as [Ho ->].
  destruct (is_Value o) eqn:Hv; cbn [negb] in Hrun.
  2:{ cbv [ret raise] in Hrun; simplify_eq. exists true. destruct o; try done.
      eauto using classified, marked_refl. }
  destruct (get_constant o) as [b|] eqn:Hb.
  { cbv [ret raise] in Hrun; simplify_eq. exists b. eauto using classified, marked_refl. }
  destruct o as [v cst nm|f this other|f args kw nm cst|values nm cst];
    cbn in Hv, Hb; simplify_eq.
  - (* a Value *)
    destruct v as [z| |b].
    { cbv [ret raise] in Hrun; simplify_eq. exists true.
      split; [done|]. split; [|apply marked_refl].
      by eapply classified_other. }
    { cbv [ret raise] in Hrun; simplify_eq. exists true.
      split; [done|]. split; [|apply marked_refl].
      by eapply classified_other. }
    apply bind_inv in Hrun as (inner & hx & Hi & Hrun).
    apply node_at_inv in Hi as [Hi ->].
    assert (∀ r h', mark_and_assign fuel b h = (Ok tt, h') →
                    read_constant b h' = (Ok r, h') → is_Value inner = true →
                    ∃ x, r = Some x ∧ classified h (PObj a) x ∧ marked h h') as Hwrap.
    { intros r0 h0 Hma Hr Hvi.
      destruct (mark_and_assign_sound _ _ _ _ _ _ IH (marked_refl h) Hma) as [Hm Hs].
      destruct (settled_read _ _ _ _ _ Hs Hr) as (x & -> & _ & Hx).
      exists x. split; [done|]. split; [|done]. by eapply classified_wrapped. }
    destruct inner as [v' cst' nm'|f this other|f args kw nm' cst'|values nm' cst'].
    + apply bind_inv in Hrun as (c & hx & Hc & Hrun).
      apply bind_inv in Hrun as ([] & hy & Has & Hrun).
      pose proof Hrun as Hrun'. apply read_constant_inv in Hrun' as (_ & _ & _ & _ & ->).
      eapply Hwrap; [|done..]. unfold mark_and_assign.
      erewrite bind_Ok by exact Hc. done.
    + (* wrapping an Operation *)
      apply bind_inv in Hrun as (c & hx & Hc & Hrun).
      apply bind_inv in Hrun as ([] & h1 & Has & Hrun).
      assert (mark_and_assign fuel this h = (Ok tt, h1)) as Hma
        by (unfold mark_and_assign; by erewrite bind_Ok by exact Hc).
      destruct (mark_and_assign_sound _ _ _ _ _ _ IH (marked_refl h) Hma) as [Hm1 Hs1].
      destruct other as [other|].
      * apply bind_inv in Hrun as (c' & hx' & Hc' & Hrun).
        apply bind_inv in Hrun as ([] & h2 & Has' & Hrun).
        assert (mark_and_assign fuel other h1 = (Ok tt, h2)) as Hma'
          by (unfold mark_and_assign; by erewrite bind_Ok by exact Hc').
        destruct (mark_and_assign_sound _ _ _ _ _ _ IH Hm1 Hma') as [Hm2 Hs2].
        destruct (mark_and_assign_sound _ _ _ _ _ _ IH (marked_refl h1) Hma') as [Hm12 _].
        pose proof (settled_marked _ _ _ _ Hm1 Hm12 Hs1) as Hs1'.
        apply bind_inv in Hrun as (x & hx2 & Hx & Hrun).
        destruct (settled_read _ _ _ _ _ Hs1' Hx) as (bx & -> & -> & Hcx).
        apply bind_inv in Hrun as (y & hy2 & Hy & Hrun).
        destruct (settled_read _ _ _ _ _ Hs2 Hy) as (by_ & -> & -> & Hcy).
        cbv [ret raise] in Hrun; simplify_eq. exists (bx && by_).
        split; [by destruct bx|]. split; [|done]. by eapply classified_binary.
      * destruct (settled_read _ _ _ _ _ Hs1 Hrun) as (bx & -> & -> & Hcx).
        exists bx. split; [done|]. split; [|done]. by eapply classified_unary.
    + apply bind_inv in Hrun as (c & hx & Hc & Hrun).
      apply bind_inv in Hrun as ([] & hy & Has & Hrun).
      pose proof Hrun as Hrun'. apply read_constant_inv in Hrun' as (_ & _ & _ & _ & ->).
      eapply Hwrap; [|done..]. unfold mark_and_assign.
      erewrite bind_Ok by exact Hc. done.
    + apply bind_inv in Hrun as (c & hx & Hc & Hrun).
      apply bind_inv in Hrun as ([] & hy & Has & Hrun).
      pose proof Hrun as Hrun'. apply read_constant_inv in Hrun' as (_ & _ & _ & _ & ->).
      eapply Hwrap; [|done..]. unfold mark_and_assign.
      erewrite bind_Ok by exact Hc. done.
  - (* a Mixture *)
    apply bind_inv in Hrun as (us & h1 & Hloop & Hrun).
    apply bind_inv in Hrun as (cs & h2 & Hreads & Hrun).
    cbv [ret raise] in Hrun; simplify_eq.
    destruct (mark_components_sound fuel values h h us h1 IH (marked_refl h) Hloop)
      as [Hm Hall].
    destruct (read_components _ _ _ Hall) as (bs & Hr & Hlen & Hbs).
    rewrite Hreads in Hr. simplify_eq.
    exists (forallb id bs). rewrite forallb_truthy.
    split; [done|]. split; [|done]. by eapply classified_Mixture.
Qed.

(** *** Termination on heaps built by the constructors *)

Lemma Value_at_marked h h' a : marked h h' → Value_at h a → Value_at h' a.
Proof.
  intros [_ Hm] (o & Ho & Hv).
  destruct (Hm a o Ho) as [Ho'|(_ & b & Ho' & _)].
  - by exists o.
  - exists (set_constant (Some b) o). by rewrite is_Value_set_constant.
Qed.

Lemma ordered_obj_marked h h' a o :
  marked h h' → ordered_obj h a o → ordered_obj h' a o.
Proof.
  intros Hm. destruct o as [[]|f this [other|]| |values nm cst]; cbn; try done.
  - intros (? & ? & ? & ?). eauto 10 using Value_at_marked.
  - intros (? & ? & _). eauto 10 using Value_at_marked.
  - intros Hall. eapply Forall_impl; [exact Hall|].
    intros v [??]. eauto using Value_at_marked.
Qed.

Lemma ordered_obj_set_constant h a b o :
  ordered_obj h a o → ordered_obj h a (set_constant (Some b) o).
Proof. destruct o as [[]| | |]; cbn; eauto. Qed.

Lemma ordered_marked h h' : marked h h' → ordered h → ordered h'.
Proof.
  intros Hm Hord a o' Ho'.
  destruct (marked_inv _ _ _ _ Hm Ho') as (o & Ho & [->|(_ & b & -> & _)]).
  - eapply ordered_obj_marked; eauto.
  - eapply ordered_obj_marked; [done|]. apply ordered_obj_set_constant. eauto.
Qed.

Lemma mark_and_assign_total fuel h v :
  total fuel → ordered h → v < fuel → Value_at h v →
  ∃ h', mark_and_assign fuel v h = (Ok tt, h') ∧ marked h h' ∧ ordered h' ∧
        settled h h' v.
Proof.
  intros Ht Hord Hv Hval. pose proof Hval as (o & Ho & Hvo).
  destruct (Ht h v Hord Hv) as (r & h1 & Hrun); [by eexists|].
  destruct (_mark_constancy_sound _ _ _ _ _ Hrun) as (b & -> & Hb & Hm).
  destruct (Value_at_marked _ _ _ Hm Hval) as (o1 & Ho1 & Hvo1).
  assert (assign_constant v (Some b) h1
          = (Ok tt, <[v := set_constant (Some b) o1]> h1)) as Ha.
  { unfold assign_constant. by rewrite Ho1, Hvo1. }
  exists (<[v := set_constant (Some b) o1]> h1).
  assert (mark_and_assign fuel v h = (Ok tt, <[v := set_constant (Some b) o1]> h1)) as Hma.
  { unfold mark_and_assign. by erewrite bind_Ok by exact Hrun. }
  split; [done|].
  destruct (mark_and_assign_sound _ _ _ _ _ _ (_mark_constancy_sound fuel)
              (marked_refl h) Hma) as [Hm' Hs].
  split; [done|]. split; [|done]. by eapply ordered_marked.
Qed.

Lemma mark_components_total fuel (vs : list nat) : ∀ h,
  total fuel → ordered h → Forall (λ v, v < fuel ∧ Value_at h v) vs →
  ∃ us h', for_each (mark_and_assign fuel) vs h = (Ok us, h') ∧ marked h h'.
Proof.
  induction vs as [|v vs IH]; intros h Ht Hord Hall.
  { exists [], h. split; [done|apply marked_refl]. }
  inversion_clear Hall as [|?? [Hv Hval] Hvs].
  destruct (mark_and_assign_total _ _ _ Ht Hord Hv Hval) as (h1 & Hrun & Hm & Hord1 & _).
  destruct (IH h1 Ht Hord1) as (us & h2 & Hrun2 & Hm2).
  { eapply Forall_impl; [exact Hvs|]. intros v' [??]. eauto using Value_at_marked. }
  exists (tt :: us), h2. cbn [for_each].
  erewrite bind_Ok by exact Hrun. erewrite bind_Ok by exact Hrun2.
  split; [done|]. by eapply marked_trans.
Qed.

Lemma read_constant_Value_at h v :
  Value_at h v → ∃ c, read_constant v h = (Ok c, h).
Proof.
  intros (o & Ho & Hv). exists (get_constant o).
  unfold read_constant. erewrite bind_Ok by (unfold node_at; by rewrite Ho).
  by rewrite Hv.
Qed.

Lemma read_components_total h (vs : list nat) :
  Forall (Value_at h) vs → ∃ cs, for_each read_constant vs h = (Ok cs, h).
Proof.
  induction 1 as [|v vs Hv _ [cs Hcs]]; [by exists []|].
  destruct (read_constant_Value_at _ _ Hv) as [c Hc].
  exists (c :: cs). cbn [for_each].
  erewrite bind_Ok by exact Hc. by erewrite bind_Ok by exact Hcs.
Qed.

(** On such a heap the analysis of the node at [a] returns with fuel
    [a + 1]: every step of the recursion goes to an older node. *)
Lemma _mark_constancy_total fuel : total fuel.
Proof.
  induction fuel as [|fuel IH]; intros h a Hord Ha [o Ho]; [lia|].
  cbn [_mark_constancy].
  destruct (decide (a = _tracer)); [by eexists _, _|].
  erewrite bind_Ok by (unfold node_at; by rewrite Ho).
  destruct (is_Value o) eqn:Hv; [|by eexists _, _]. cbn [negb].
  destruct (get_constant o) as [b|] eqn:Hb; [by eexists _, _|].
  pose proof (Hord a o Ho) as Hobj.
  destruct o as [v cst nm|f this other|f args kw nm cst|values nm cst];
    cbn in Hv, Hb, Hobj; simplify_eq.
  - destruct v as [z| |b]; [by eexists _, _..|].
    assert (is_Some (h !! b)) as [inner Hi].
    { apply lookup_lt_is_Some. apply lookup_lt_Some in Ho. lia. }
    erewrite bind_Ok by (unfold node_at; by rewrite Hi).
    assert (is_Value inner = true →
            ∃ r h', (do c ← _mark_constancy fuel (PObj b);
                     do _ ← assign_constant b c;
                     read_constant b) h = (Ok r, h')) as Hwrap.
    { intros Hvi.
      destruct (mark_and_assign_total fuel h b IH Hord) as (h1 & Hrun & Hm & _ & Hs);
        [lia|by exists inner|].
      apply bind_inv in Hrun as (c & hx & Hc & Has).
      destruct (read_constant_settled _ _ _ Hs) as (x & Hx & _).
      eexists _, _. erewrite bind_Ok by exact Hc. erewrite bind_Ok by exact Has.
      exact Hx. }
    destruct inner as [v' cst' nm'|f this other|f args kw nm' cst'|values nm' cst'];
      [by apply Hwrap| |by apply Hwrap..].
    pose proof (Hord b _ Hi) as (Hthis & Hvthis & Hother). 
    destruct (mark_and_assign_total fuel h this IH Hord) as (h1 & Hrun & Hm & Hord1 & Hs);
      [lia|done|].
    apply bind_inv in Hrun as (c & hx & Hc & Has).
    erewrite bind_Ok by exact Hc. erewrite bind_Ok by exact Has.
    destruct other as [other|].
    + destruct Hother as [Hlt Hvother].
      destruct (mark_and_assign_total fuel h1 other IH Hord1) as (h2 & Hrun2 & Hm2 & _ & Hs2);
        [lia|by eapply Value_at_marked|].
      apply bind_inv in Hrun2 as (c' & hx' & Hc' & Has').
      erewrite bind_Ok by exact Hc'. erewrite bind_Ok by exact Has'.
      destruct (read_constant_Value_at h2 this) as [x Hx];
        [eauto using Value_at_marked|].
      destruct (read_constant_Value_at h2 other) as [y Hy];
        [eauto using Value_at_marked|].
      erewrite bind_Ok by exact Hx. erewrite bind_Ok by exact Hy. by eexists _, _.
    + destruct (read_constant_Value_at h1 this) as [x Hx];
        [eauto using Value_at_marked|].
      by eexists _, _.
  - destruct (mark_components_total fuel values h IH Hord) as (us & h1 & Hrun & Hm).
    { eapply Forall_impl; [exact Hobj|]. intros v [??]. split; [lia|done]. }
    erewrite bind_Ok by exact Hrun.
    destruct (read_components_total h1 values) as [cs Hcs].
    { eapply Forall_impl; [exact Hobj|]. intros v [??]. by eapply Value_at_marked. }
    erewrite bind_Ok by exact Hcs. by eexists _, _.
Qed.

Lemma Value_atb_spec h a : Value_atb h a = true → Value_at h a.
Proof. unfold Value_atb, Value_at. destruct (h !! a); [eauto|done]. Qed.

Lemma ordered_objb_spec h a o : ordered_objb h a o = true → ordered_obj h a o.
Proof.
  destruct o as [[]|f this other| |values nm cst]; cbn; try done.
  - apply bool_decide_eq_true_1.
  - rewrite !andb_true_iff. intros [[?%bool_decide_eq_true_1 ?%Value_atb_spec] Hother].
    split; [done|]. split; [done|]. destruct other; [|done].
    apply andb_true_iff in Hother as [?%bool_decide_eq_true_1 ?%Value_atb_spec]. done.
  - apply bool_decide_eq_true_1.
  - rewrite forallb_forall, Forall_forall. intros Hall v Hv%list_elem_of_In.
    apply Hall in Hv.
    apply andb_true_iff in Hv as [?%bool_decide_eq_true_1 ?%Value_atb_spec].
    done.
Qed.

Lemma orderedb_spec h : orderedb h = true → ordered h.
Proof.
  unfold orderedb. rewrite forallb_forall. intros Hall a o Ho.
  apply ordered_objb_spec. apply (Hall (a, o)).
  apply list_elem_of_In, list_elem_of_lookup. exists a.
  by rewrite list_lookup_imap, Ho.
Qed.



(** [mark_constancy]: the root, when it is a [Value], gets its own
    classification assigned as well. *)
Lemma mark_constancy_run h tree fuel :
  ordered h → (∀ a, tree = PObj a → is_Some (h !! a) ∧ a < fuel) →
  ∃ h', mark_constancy fuel tree h = (Ok tree, h') ∧ marked h h' ∧
        ∀ a, tree = PObj a → Value_at h a → settled h h' a.
Proof.
  intros Hord Htree. destruct tree as [z| |a].
  - exists h. split; [done|]. split; [apply marked_refl|done].
  - exists h. split; [done|]. split; [apply marked_refl|done].
  - destruct (Htree a eq_refl) as [[o Ho] Hlt]. cbn [mark_constancy].
    erewrite bind_Ok by (unfold node_at; by rewrite Ho).
    destruct (is_Value o) eqn:Hv.
    + destruct (mark_and_assign_total fuel h a (_mark_constancy_total fuel) Hord Hlt)
        as (h' & Hrun & Hm & _ & Hs); [by exists o|].
      apply bind_inv in Hrun as (c & hx & Hc & Has).
      exists h'. erewrite bind_Ok by exact Hc. erewrite bind_Ok by exact Has.
      split; [done|]. split; [done|]. intros a' Ha' _. by simplify_eq.
    + exists h. split; [done|]. split; [apply marked_refl|].
      intros a' Ha' (o' & Ho' & Hv'). simplify_eq. congruence.
Qed.


(** ** Examples *)

(** Nested scopes: the inner override wins inside, the outer one is back
    after the inner exit, and the original context after the outer exit. *)
Example nested_scopes :
  (let '(r, w) :=
     with_Context (with_sample_count 5) (λ outer,
       do inner ← with_Context (with_sample_count 3) (λ _,
                    do c ← getcontext; ret (sample_count c));
       do c ← getcontext;
       ret (inner, sample_count c, ctx_id c =? ctx_id outer)) demo_world in
   (r, contextvar w))
  = (Ok (3%Z, 5%Z, true), Some demo_context).
Proof. reflexivity. Qed.

(** A scope left by an exception. *)
Example scope_left_by_exception :
  (let '(r, w) :=
     with_Context (with_sample_count 5) (λ _, @raise world unit ValueError) demo_world in
   (r, contextvar w))
  = (Err ValueError, Some demo_context).
Proof. reflexivity. Qed.

(** Resolving the [Mixture] of the two equal [Distribution]s under sample
    count 7: the shuffled counts are 3 and 4, each component is sampled
    under its own count (the two keys differ in the count), and the result
    has 7 items. *)
Example resolve_Mixture :
  (let '(r, w) := resolve demo_externals 3 4 demo_world in
   (r, call_size <$> calls w, contextvar w))
  = (Ok (RArr 2 [0; 0; 0; 1; 1; 1; 1]%Z), [3%Z; 4%Z], Some demo_context).
Proof. vm_compute. reflexivity. Qed.

Example test_heap_root : test_heap !! 15 = Some (Value (PObj 14) None None).
Proof. reflexivity. Qed.

(** [test_bfs]: the parts in traversal order, with their [constant]. *)
Example test_bfs :
  (let '(r, w) := bfs 20 test_model module_world in
   match r with
   | Ok (parts, tracer) =>
       Some (omap (λ a, o ← heap w !! a; c ← get_constant o; Some (a, c)) parts, tracer)
   | Err _ => None
   end)
  = Some ([(16, false); (11, false); (5, true); (3, true); (4, true); (9, false);
           (1, false); (7, true); (14, true); (6, true); (12, true)], 2).
Proof. vm_compute. reflexivity. Qed.

(** ** [bfs] and the tracer *)

(** C1, at the model [lambda x: x]: [bfs] makes a copy of the tracer
    (address 2) and returns it, but calls the model with the shared
    [_tracer] (address 1).  The tree is the shared template, the analysis
    marks the shared template, the copy is in no part of the tree, and
    rebinding the copy's value leaves what the tree resolves to as it was. *)
Theorem bfs_passes_shared_tracer :
  ∃ w',
    bfs 2 identity_model module_world = (Ok ([_tracer], 2), w') ∧
    2 ≠ _tracer ∧
    heap w' !! _tracer = Some (Value (PNum 0) (Some false) (Some "x"%string)) ∧
    heap w' !! 2 = Some (Value (PNum 0) None (Some "x"%string)) ∧
    fst ((do _ ← as_model (PObj _tracer) 2 (PNum 5);
          resolve demo_externals 1 _tracer) w') = Ok (RNum 0).
Proof. eexists. split; [vm_compute; reflexivity|]. vm_compute. by repeat split. Qed.

(** ** No resolution changes the tree *)

Lemma reads_heap_ret {A} (a : A) : reads_heap (ret a).
Proof. by intros w. Qed.

Lemma reads_heap_raise {A} (e : exn) : reads_heap (@raise world A e).
Proof. by intros w. Qed.

Lemma reads_heap_bind {A B} (m : M A) (k : A → M B) :
  reads_heap m → (∀ a, reads_heap (k a)) → reads_heap (bind k m).
Proof.
  intros Hm Hk w. specialize (Hm w). unfold bind.
  destruct (m w) as [[a|e] w1]; cbn [snd] in *; [|done].
  by rewrite Hk.
Qed.

Lemma reads_heap_for_each {A B} (f : A → M B) (xs : list A) :
  (∀ x, reads_heap (f x)) → reads_heap (for_each f xs).
Proof.
  intros Hf. induction xs as [|x xs IH]; cbn [for_each]; [apply reads_heap_ret|].
  apply reads_heap_bind; [done|]. intros y.
  apply reads_heap_bind; [done|]. intros ys. apply reads_heap_ret.
Qed.

Lemma reads_heap_with_Context {A} kw (body : SwungdashContext → M A) :
  (∀ context, reads_heap (body context)) → reads_heap (with_Context kw body).
Proof.
  intros Hb w. rewrite with_Context_eq. cbn [snd].
  change (heap (set_contextvar ?c ?w')) with (heap w').
  by rewrite Hb, heap_entered.
Qed.

Lemma reads_heap_obj_at a : reads_heap (obj_at a).
Proof. intros w. unfold obj_at. by destruct (heap w !! a). Qed.

Lemma reads_heap_of_payload r : reads_heap (of_payload r).
Proof. by destruct r as [[z|data]|e]. Qed.

Lemma reads_heap_random_sample {A} (k : nat) :
  ∀ pool : list A, reads_heap (random_sample pool k).
Proof.
  induction k as [|k IH]; intros pool; cbn [random_sample]; [apply reads_heap_ret|].
  apply reads_heap_bind.
  { intros w. unfold randbelow. by destruct (rand w). }
  intros j. destruct (pool !! j); [|apply reads_heap_raise].
  destruct (last pool); [|apply reads_heap_raise].
  apply reads_heap_bind; [apply IH|]. intros rest. apply reads_heap_ret.
Qed.

Lemma reads_heap_cache_key fuel : ∀ a, reads_heap (cache_key fuel a).
Proof.
  induction fuel as [|fuel IH]; intros a; [apply reads_heap_raise|].
  cbn [cache_key]. apply reads_heap_bind; [apply reads_heap_obj_at|].
  intros [[z| |b] cst nm|f this other|f args kw nm cst|values nm cst].
  - apply reads_heap_ret.
  - apply reads_heap_ret.
  - apply IH.
  - apply reads_heap_bind; [apply IH|]. intros k1.
    apply reads_heap_bind; [destruct other; [apply IH|apply reads_heap_raise]|].
    intros k2. apply reads_heap_ret.
  - apply reads_heap_with_Context. intros ci. apply reads_heap_ret.
  - apply reads_heap_with_Context. intros ci.
    apply reads_heap_bind; [|intros; apply reads_heap_ret].
    apply reads_heap_for_each. intros v.
    apply reads_heap_bind; [apply IH|]. intros k.
    by destruct k.
Qed.

Lemma reads_heap__sample (r : nat → M rv) values :
  (∀ v, reads_heap (r v)) → reads_heap (_sample r values).
Proof.
  intros Hr. unfold _sample. apply reads_heap_bind.
  { unfold _sample_counts. apply reads_heap_bind.
    - apply reads_heap_with_Context. intros ci.
      apply reads_heap_bind.
      { unfold py_mod. destruct (decide _); [apply reads_heap_raise|apply reads_heap_ret]. }
      intros x. apply reads_heap_bind; [|intros; apply reads_heap_ret].
      unfold py_floordiv. destruct (decide _); [apply reads_heap_raise|apply reads_heap_ret].
    - intros [x l]. apply reads_heap_random_sample. }
  intros counts. apply reads_heap_bind.
  - unfold _sample_draws. apply reads_heap_for_each. intros [v n].
    apply reads_heap_with_Context. intros _. apply Hr.
  - intros samples. unfold np_concatenate. destruct samples; [apply reads_heap_raise|].
    destruct (mapM _ _); [by intros w|apply reads_heap_raise].
Qed.

Lemma reads_heap_resolve E fuel : ∀ a, reads_heap (resolve E fuel a).
Proof.
  induction fuel as [|fuel IH]; intros a; [apply reads_heap_raise|].
  assert (∀ (context : SwungdashContext) (sample : M rv), reads_heap sample →
            reads_heap
              (do k ← cache_key (S fuel) a;
               do store ← gets (λ w, dict_of w (cache context));
               match store !! k with
               | Some _ =>
                   do k' ← cache_key (S fuel) a;
                   do store' ← gets (λ w, dict_of w (cache context));
                   match store' !! k' with
                   | Some v => ret v
                   | None => raise KeyError
                   end
               | None =>
                   do value ← sample;
                   do k' ← cache_key (S fuel) a;
                   do _ ← dict_setitem (cache context) k' value;
                   ret value
               end)) as Hcached.
  { intros ci sample Hs.
    apply reads_heap_bind; [apply reads_heap_cache_key|]. intros k.
    apply reads_heap_bind; [by intros w|]. intros store.
    destruct (store !! k).
    - apply reads_heap_bind; [apply reads_heap_cache_key|]. intros k'.
      apply reads_heap_bind; [by intros w|]. intros store'.
      destruct (store' !! k'); [apply reads_heap_ret|apply reads_heap_raise].
    - apply reads_heap_bind; [done|]. intros v.
      apply reads_heap_bind; [apply reads_heap_cache_key|]. intros k'.
      apply reads_heap_bind; [by intros w|]. intros _. apply reads_heap_ret. }
  cbn [resolve]. apply reads_heap_bind; [apply reads_heap_obj_at|].
  intros [[z| |b] cst nm|f this other|f args kw nm cst|values nm cst].
  - apply reads_heap_ret.
  - apply reads_heap_ret.
  - apply IH.
  - apply reads_heap_bind; [apply IH|]. intros x.
    apply reads_heap_bind; [destruct other; [apply IH|apply reads_heap_raise]|].
    intros y. destruct y; apply reads_heap_of_payload.
  - apply reads_heap_with_Context. intros ci. apply Hcached.
    intros w. unfold call_sampler. by destruct (draw E _ _ _ _ _).
  - apply reads_heap_with_Context. intros ci. apply Hcached.
    by apply reads_heap__sample.
Qed.

(** ** Nodes that hold a raw value, and operations *)

Lemma resolve_Value_ref E fuel a b c nm w :
  heap w !! a = Some (Value (PObj b) c nm) →
  resolve E (S fuel) a w = resolve E fuel b w.
Proof. intros Ha. cbn [resolve]. unfold bind, obj_at. by rewrite Ha. Qed.

Lemma resolve_Value_raw E fuel a v c nm w :
  heap w !! a = Some (Value v c nm) → (∀ b, v ≠ PObj b) →
  resolve E (S fuel) a w
  = (Ok (raw v), w).
Proof.
  intros Ha Hv. cbn [resolve]. unfold bind, obj_at. rewrite Ha.
  destruct v as [z| |b]; [done|done|]. by destruct (Hv b).
Qed.

Lemma resolve_Operation E fuel a f this other w :
  heap w !! a = Some (Operation f this (Some other)) →
  resolve E (S fuel) a w
  = (do x ← resolve E fuel this;
     do y ← resolve E fuel other;
     match y with
     | REmpty => of_payload (apply1 E f x)
     | _ => of_payload (apply2 E f x y)
     end) w.
Proof. intros Ha. cbn [resolve]. unfold bind at 1, obj_at. by rewrite Ha. Qed.

(** ** Resolving the empty sentinel *)

(** C8, as the code has it.  Resolving a [Value] that wraps the sentinel
    returns the sentinel, as a value like any other: nothing is raised and
    the world is as before.  [Operation._resolve] relies on this: when the
    second operand is such a [Value], the function is called with the first
    operand alone.  When the first operand is such a [Value], the sentinel
    is passed to the function and the outcome is the function's: an
    exception it raises propagates, a value it returns is returned. *)
Theorem Value_empty_resolves_to_sentinel (E : externals) (fuel : nat) (w : world)
    (a : nat) (c : option bool) (n : option string) :
  heap w !! a = Some (Value PEmpty c n) →
  resolve E (S fuel) a w = (Ok REmpty, w) ∧
  (∀ op f this,
     heap w !! op = Some (Operation f this (Some a)) →
     resolve E (S (S fuel)) op w
     = (do x ← resolve E (S fuel) this; of_payload (apply1 E f x)) w) ∧
  (∀ op f other,
     heap w !! op = Some (Operation f a (Some other)) →
     resolve E (S (S fuel)) op w
     = (do y ← resolve E (S fuel) other;
        match y with
        | REmpty => of_payload (apply1 E f REmpty)
        | _ => of_payload (apply2 E f REmpty y)
        end) w ∧
     ∀ y w1, resolve E (S fuel) other w = (Ok y, w1) → y ≠ REmpty →
       (∀ e, apply2 E f REmpty y = Err e →
             resolve E (S (S fuel)) op w = (Err e, w1)) ∧
       (∀ z, apply2 E f REmpty y = Ok (Scalar z) →
             resolve E (S (S fuel)) op w = (Ok (RNum z), w1))).
Proof.
  intros Ha.
  assert (∀ w', heap w' = heap w → resolve E (S fuel) a w' = (Ok REmpty, w')) as Hself.
  { intros w' Hw'. cbn [resolve].
    by erewrite bind_Ok by (unfold obj_at; by rewrite Hw', Ha). }
  split; [by apply Hself|]. split.
  - intros op f this Hop.
    rewrite (resolve_Operation E (S fuel) op f this a w Hop).
    unfold bind at 1 3.
    pose proof (reads_heap_resolve E (S fuel) this w) as Hh.
    destruct (resolve E (S fuel) this w) as [[x|e] w1]; [|done].
    cbn [snd] in Hh. by erewrite bind_Ok by (by apply Hself).
  - intros op f other Hop.
    assert (resolve E (S (S fuel)) op w
            = (do y ← resolve E (S fuel) other;
               match y with
               | REmpty => of_payload (apply1 E f REmpty)
               | _ => of_payload (apply2 E f REmpty y)
               end) w) as Hrun.
    { rewrite (resolve_Operation E (S fuel) op f a other w Hop).
      by erewrite bind_Ok by (by apply Hself). }
    split; [exact Hrun|].
    intros y w1 Hy Hne. rewrite Hrun. erewrite bind_Ok by exact Hy.
    split.
    + intros e He. destruct y; [|done|]; by rewrite He.
    + intros z Hz. destruct y; [|done|]; by rewrite Hz.
Qed.

Lemma Value_empty_resolves_to_sentinel_witness :
  resolve demo_externals 1 0 sentinel_world = (Ok REmpty, sentinel_world) ∧
  resolve demo_externals 2 3 sentinel_world = (Ok (RNum (-3)), sentinel_world) ∧
  resolve demo_externals 2 4 sentinel_world = (Err TypeError, sentinel_world).
Proof.
  destruct (Value_empty_resolves_to_sentinel demo_externals 0 sentinel_world 0
              None None eq_refl) as (Hself & Hsecond & Hfirst).
  split; [exact Hself|]. split.
  - rewrite (Hsecond 3 "neg"%string 2 eq_refl). reflexivity.
  - destruct (Hfirst 4 "add"%string 2 eq_refl) as [_ Hout].
    destruct (Hout (RNum 3) sentinel_world eq_refl) as [Herr _]; [done|].
    apply Herr. reflexivity.
Defined.

(** C8 fails for [~Value(_empty)], here the module's own default operand:
    a normal return of the sentinel, not an exception; and inside
    [-Value(3)] the same [Value(_empty)] is resolved as an operand without
    any exception either. *)
Lemma Value_empty_no_exception :
  fst (resolve demo_externals 1 0 module_world) = Ok REmpty ∧
  fst (resolve demo_externals 2 3 sentinel_world) = Ok (RNum (-3)).
Proof. split; vm_compute; reflexivity. Qed.

Lemma Context_exit_restores_witness :
  ∃ manager' w',
    with_manager (λ _, ret tt) (Context_init (with_sample_count 3), demo_world)
    = (Ok tt, (manager', w')) ∧
    contextvar w' = Some demo_context.
Proof.
  destruct (Context_exit_restores (A := unit) (with_sample_count 5) (λ _, ret tt)
              demo_world) as (saved & self & new & w1 & Hsaved & _ & _ & _ & _ & _ & Hm).
  injection Hsaved as <-.
  destruct (Hm (Context_init (with_sample_count 3)) (λ _, ret tt))
    as [(manager' & w' & Hrun & Hc) _].
  - intros c s. reflexivity.
  - exists manager', w'. split; [exact Hrun|exact Hc].
Defined.

(** ** A manager object entered twice

    C4 fails for a manager object that is entered again inside its own
    scope (one object, the two [with] statements nested): after both exits
    the active context is the one the outer scope created, with its sample
    count 5, and not the context that was active before. *)
Lemma Context_reentered_manager :
  let '(r, (mgr, w')) :=
    with_manager (λ _, with_manager (λ _, ret tt))
      (Context_init (with_sample_count 5), demo_world) in
  contextvar demo_world = Some demo_context ∧
  r = Ok tt ∧
  contextvar w' = Some (derive 1 demo_context (with_sample_count 5)) ∧
  contextvar w' ≠ Some demo_context.
Proof. vm_compute. repeat split. intros [=]. Qed.

(** ** Witnesses and counterexamples for the cache *)

Lemma Context_enter_shallow_copy_witness :
  ∃ saved self new w1,
    fst (getcontext demo_world) = Ok saved ∧
    Context_enter (Context_init (with_sample_count 5)) demo_world = (Ok (self, new), w1) ∧
    cache new = cache saved ∧ sample_count new = 5%Z ∧
    ∀ k v,
      dict_of (snd (with_Context (with_sample_count 5)
                      (λ context, dict_setitem (cache context) k v) demo_world))
              (cache saved) !! k = Some v.
Proof.
  destruct (Context_enter_shallow_copy (with_sample_count 5) demo_world)
    as (saved & self & new & w1 & Hg & He & _ & _ & Hc & _ & Hn & _ & Hshare & _).
  exists saved, self, new, w1. split; [done|]. split; [done|].
  split; [exact Hc|]. split; [exact Hn|].
  intros k v. by destruct (Hshare eq_refl k v).
Defined.

Lemma Distribution_equal_keys_share_cache_witness :
  let v := RArr 0 (replicate 7 0%Z) in
  let w1 := snd (resolve demo_externals 1 2 demo_world) in
  fst (resolve demo_externals 1 2 demo_world) = Ok v ∧
  dict_of w1 0 !! Distribution_key "normal" [0%Z] [("loc", 1%Z); ("scale", 2%Z)] 7
  = Some v ∧
  calls w1 = [sampler_call "normal" [0%Z] [("loc", 1%Z); ("scale", 2%Z)] 7] ∧
  ∃ w2, resolve demo_externals 1 3 w1 = (Ok v, w2) ∧ calls w2 = calls w1.
Proof.
  intros v w1.
  assert (fst (resolve demo_externals 1 2 demo_world) = Ok v) as Hv
    by (vm_compute; reflexivity).
  split; [exact Hv|].
  destruct (Distribution_equal_keys_share_cache demo_externals demo_world 2 3
              "normal" [0%Z] [("loc", 1%Z); ("scale", 2%Z)]%string
              [("scale", 2%Z); ("loc", 1%Z)]%string None None (Some true) (Some true)
              0 0 eq_refl eq_refl (perm_swap _ _ _)) as [_ Hshare].
  destruct (Hshare v w1) as (_ & Hentry & Hmiss & w2 & Hr2 & Hc & _).
  { rewrite <-Hv. apply surjective_pairing. }
  split; [exact Hentry|]. split.
  - destruct Hmiss as (data & _ & _ & Hcalls); [reflexivity|exact Hcalls].
  - exists w2. split; [exact Hr2|exact Hc].
Defined.

Lemma Distribution_resolve_twice_witness :
  ∃ v w1 w2,
    resolve demo_externals 1 2 demo_world = (Ok v, w1) ∧
    resolve demo_externals 1 2 w1 = (Ok v, w2) ∧ calls w2 = calls w1.
Proof.
  destruct (resolve demo_externals 1 2 demo_world) as [[v|e] w1] eqn:Hr;
    [|vm_compute in Hr; discriminate].
  destruct (Distribution_resolve_twice demo_externals demo_world 2
              "normal" [0%Z] [("loc", 1%Z); ("scale", 2%Z)]%string None (Some true)
              0 v w1 eq_refl Hr) as [(w2 & Hr2 & Hc & _) _].
  by exists v, w1, w2.
Defined.

(** C2 fails where the node was resolved under the other sample count
    before: resolve under 5, then twice under 7 (the same array both times),
    then under 5 again.  The last resolution invokes no sampling function;
    it returns the array cached by the first. *)
Lemma Distribution_nested_scope_cached :
  let under5 := with_Context (with_sample_count 5) (λ _, resolve demo_externals 1 2) in
  let '(r0, w0) := under5 demo_world in
  let '(r1, w1) := resolve demo_externals 1 2 w0 in
  let '(r2, w2) := resolve demo_externals 1 2 w1 in
  let '(r3, w3) := under5 w2 in
  sample_count (active w2) = 7%Z ∧
  r1 = Ok (RArr 1 (replicate 7 1%Z)) ∧ r2 = r1 ∧
  r3 = r0 ∧ r3 = Ok (RArr 0 (replicate 5 0%Z)) ∧
  calls w3 = calls w2 ∧ length (calls w3) = 2.
Proof. vm_compute. by repeat split. Qed.

Lemma Mixture_empty_resolve_witness :
  fst (cache_key 1 5 demo_world) = Ok (Mixture_key 7 []) ∧
  fst (resolve demo_externals 1 5 demo_world) = Err ZeroDivisionError.
Proof.
  destruct (Mixture_empty_resolve demo_externals demo_world 5 None None 0 eq_refl)
    as (_ & Hk & _ & r & w' & Hr & _ & _ & _ & ->).
  split; [exact Hk|]. by rewrite Hr.
Defined.

(** C9 fails where the active cache holds an entry under the key of the
    empty [Mixture]: the entry is returned and nothing is raised. *)
Lemma Mixture_empty_cached :
  fst (resolve demo_externals 1 5 seeded_world) = Ok (RArr 99 []).
Proof. vm_compute. reflexivity. Qed.

Lemma Mixture_cache_key_TypeError_witness :
  fst (cache_key 2 7 demo_world) = Err TypeError ∧
  fst (resolve demo_externals 2 7 demo_world) = Err TypeError.
Proof.
  destruct (Mixture_cache_key_TypeError demo_externals demo_world 7 [2; 6] None None 1
              eq_refl) as (Hk & w' & Hr & _).
  - repeat constructor; intros e He; vm_compute in He; discriminate.
  - right. left. left. exists 5%Z, None, None. by split.
  - split; [exact Hk|]. by rewrite Hr.
Defined.

Lemma Mixture_sample_allocation_witness :
  allocation 7 2 = [4; 3]%Z ∧
  fst (_sample_counts [2; 3] demo_world) = Ok [3; 4]%Z ∧
  rand (snd (_sample_counts [2; 3] demo_world)) = [4; 1; 5] ∧
  (∃ draws, fst (_sample_counts [2; 3] (set_rand draws demo_world)) = Ok [4; 3]%Z) ∧
  ∃ id data w3,
    _sample (resolve demo_externals 1) [2; 3] demo_world = (Ok (RArr id data), w3) ∧
    Z.of_nat (length data) = 7%Z.
Proof.
  destruct (Mixture_sample_allocation (resolve demo_externals 1) [2; 3] demo_world)
    as (counts & w1 & Hrun & _ & _ & _ & _ & _ & _ & Hrand & Hreach & Hfinal).
  - cbn. lia.
  - cbn. lia.
  - split; [reflexivity|].
    vm_compute in Hrun. injection Hrun as <- <-.
    split; [vm_compute; reflexivity|]. split; [vm_compute; reflexivity|]. split.
    + destruct (Hreach [4; 3]%Z) as (draws & _ & Hd); [reflexivity|].
      by exists draws.
    + eapply Hfinal.
      * vm_compute. reflexivity.
      * repeat constructor; eexists _, _; (split; [reflexivity|]); reflexivity.
Defined.


(** * Further properties *)

(** ** Resolution keeps the tree, the context and the caches *)

Lemma within_refl c w : contextvar w = Some c → within c w w.
Proof. intros Hc. by repeat split. Qed.

Lemma within_trans c w1 w2 w3 : within c w1 w2 → within c w2 w3 → within c w1 w3.
Proof.
  intros (? & Hh & Hcs & ? & Hd & Hk & Ho) (? & Hh' & Hcs' & ? & Hd' & Hk' & Ho').
  split; [done|]. split; [congruence|]. split; [by etrans|].
  split; [lia|]. split; [congruence|]. split; [eauto|].
  intros d Hne. by rewrite Ho', Ho.
Qed.

Lemma keeps_ret {A} c (a : A) : keeps c (ret a).
Proof. intros w Hc. by apply within_refl. Qed.

Lemma keeps_raise {A} c (e : exn) : keeps c (@raise world A e).
Proof. intros w Hc. by apply within_refl. Qed.

Lemma keeps_bind {A B} c (m : M A) (k : A → M B) :
  keeps c m → (∀ a, keeps c (k a)) → keeps c (bind k m).
Proof.
  intros Hm Hk w Hc. specialize (Hm w Hc). unfold bind.
  destruct (m w) as [[a|e] w1]; cbn [snd] in *; [|done].
  eapply within_trans; [done|]. apply Hk. by destruct Hm.
Qed.

Lemma keeps_for_each {A B} c (f : A → M B) (xs : list A) :
  (∀ x, keeps c (f x)) → keeps c (for_each f xs).
Proof.
  intros Hf. induction xs as [|x xs IH]; cbn [for_each]; [apply keeps_ret|].
  apply keeps_bind; [done|]. intros y.
  apply keeps_bind; [done|]. intros ys. apply keeps_ret.
Qed.

(** A scope that does not replace the cache: its context shares the cache
    of the enclosing one. *)
Lemma keeps_with_Context {A} c kw (body : SwungdashContext → M A) :
  kw_cache kw = None →
  (∀ context, cache context = cache c → keeps context (body context)) →
  keeps c (with_Context kw body).
Proof.
  intros Hkw Hb w Hc.
  set (ci := derive (next_context w) c kw).
  set (wi := set_contextvar (Some ci) (bump w)).
  destruct (body ci wi) as [r w2] eqn:Hrun.
  rewrite (with_Context_Some kw body w c r w2 Hc Hrun). cbn [snd].
  assert (cache ci = cache c) as Hci by (subst ci; cbn; by rewrite Hkw).
  pose proof (Hb ci Hci wi eq_refl) as Hw. rewrite Hrun in Hw.
  destruct Hw as (_ & Hh & Hcs & Hna & Hd & Hk & Ho).
  rewrite Hci in Ho. by repeat split.
Qed.

Lemma keeps_obj_at c a : keeps c (obj_at a).
Proof.
  intros w Hc. unfold obj_at. destruct (heap w !! a); by apply within_refl.
Qed.

Lemma keeps_gets {A} c (f : world → A) : keeps c (gets f).
Proof. intros w Hc. by apply within_refl. Qed.

Lemma keeps_new_array c data : keeps c (new_array data).
Proof.
  intros w Hc. unfold new_array, within. cbn. split_and!; try done. lia.
Qed.

Lemma keeps_of_payload c r : keeps c (of_payload r).
Proof.
  destruct r as [[z|data]|e]; [apply keeps_ret|apply keeps_new_array|apply keeps_raise].
Qed.

Lemma keeps_call_sampler c E f args kw n : keeps c (call_sampler E f args kw n).
Proof.
  intros w Hc. unfold call_sampler.
  destruct (draw E f args kw n (length (calls w))); unfold within; cbn;
    split_and!; try done; try (by apply prefix_app_r); lia.
Qed.

Lemma keeps_dict_setitem c k v : keeps c (dict_setitem (cache c) k v).
Proof.
  intros w Hc. unfold dict_setitem, modify, within. cbn. split_and!; try done.
  - intros d' k' Hk'. unfold dict_of in *. cbn.
    destruct (decide (cache c = d')) as [<-|Hd].
    + rewrite lookup_total_insert_eq. destruct (decide (k = k')) as [->|Hne].
      * by rewrite lookup_insert_eq.
      * by rewrite lookup_insert_ne.
    + by rewrite lookup_total_insert_ne.
  - intros d Hd. unfold dict_of. cbn. by rewrite lookup_total_insert_ne.
Qed.

Lemma keeps_cache_key c fuel a : keeps c (cache_key fuel a).
Proof.
  intros w Hc. destruct (cache_key_pure fuel a w c Hc) as [m ->]. cbn [snd].
  unfold bump_by. by repeat split.
Qed.

Lemma keeps_randbelow c m : keeps c (randbelow m).
Proof.
  intros w Hc. unfold randbelow. destruct (rand w); by repeat split.
Qed.

Lemma keeps_random_sample {A} c (k : nat) :
  ∀ pool : list A, keeps c (random_sample pool k).
Proof.
  induction k as [|k IH]; intros pool; cbn [random_sample]; [apply keeps_ret|].
  apply keeps_bind; [apply keeps_randbelow|]. intros j.
  destruct (pool !! j); [|apply keeps_raise].
  destruct (last pool); [|apply keeps_raise].
  apply keeps_bind; [apply IH|]. intros rest. apply keeps_ret.
Qed.

Lemma keeps_py_mod c n k : keeps c (@py_mod world n k).
Proof. unfold py_mod. destruct (decide _); [apply keeps_raise|apply keeps_ret]. Qed.
Lemma keeps_py_floordiv c n k : keeps c (@py_floordiv world n k).
Proof. unfold py_floordiv. destruct (decide _); [apply keeps_raise|apply keeps_ret]. Qed.

Lemma keeps_np_concatenate c samples : keeps c (np_concatenate samples).
Proof.
  unfold np_concatenate. destruct samples; [apply keeps_raise|].
  destruct (mapM _ _); [apply keeps_new_array|apply keeps_raise].
Qed.

Lemma keeps__sample c (r : nat → M rv) values :
  (∀ c' v, cache c' = cache c → keeps c' (r v)) → keeps c (_sample r values).
Proof.
  intros Hr. unfold _sample. apply keeps_bind.
  { unfold _sample_counts. apply keeps_bind.
    - apply keeps_with_Context; [done|]. intros ci _.
      apply keeps_bind; [apply keeps_py_mod|]. intros x.
      apply keeps_bind; [apply keeps_py_floordiv|]. intros y. apply keeps_ret.
    - intros [x l]. apply keeps_random_sample. }
  intros counts. apply keeps_bind; [|apply keeps_np_concatenate].
  unfold _sample_draws. apply keeps_for_each. intros [v n].
  apply keeps_with_Context; [done|]. intros ci Hci. by apply Hr.
Qed.

Lemma keeps_resolve E fuel : ∀ c a, keeps c (resolve E fuel a).
Proof.
  induction fuel as [|fuel IH]; intros c a; [apply keeps_raise|].
  cbn [resolve]. apply keeps_bind; [apply keeps_obj_at|].
  intros [[z| |b] cst nm|f this other|f args kw nm cst|values nm cst].
  - apply keeps_ret.
  - apply keeps_ret.
  - apply IH.
  - apply keeps_bind; [apply IH|]. intros x.
    apply keeps_bind; [destruct other; [apply IH|apply keeps_raise]|].
    intros y. destruct y; apply keeps_of_payload.
  - apply keeps_with_Context; [done|]. intros ci Hci.
    apply keeps_bind; [apply keeps_cache_key|]. intros k.
    apply keeps_bind; [apply keeps_gets|]. intros store.
    destruct (store !! k).
    + apply keeps_bind; [apply keeps_cache_key|]. intros k'.
      apply keeps_bind; [apply keeps_gets|]. intros store'.
      destruct (store' !! k'); [apply keeps_ret|apply keeps_raise].
    + apply keeps_bind; [apply keeps_call_sampler|]. intros v.
      apply keeps_bind; [apply keeps_cache_key|]. intros k'.
      apply keeps_bind; [apply keeps_dict_setitem|]. intros _. apply keeps_ret.
  - apply keeps_with_Context; [done|]. intros ci Hci.
    apply keeps_bind; [apply keeps_cache_key|]. intros k.
    apply keeps_bind; [apply keeps_gets|]. intros store.
    destruct (store !! k).
    + apply keeps_bind; [apply keeps_cache_key|]. intros k'.
      apply keeps_bind; [apply keeps_gets|]. intros store'.
      destruct (store' !! k'); [apply keeps_ret|apply keeps_raise].
    + apply keeps_bind; [apply keeps__sample; intros; apply IH|]. intros v.
      apply keeps_bind; [apply keeps_cache_key|]. intros k'.
      apply keeps_bind; [apply keeps_dict_setitem|]. intros _. apply keeps_ret.
Qed.

(** X1.  Whatever a resolution returns or raises, under an established
    context: the same context instance is active afterwards, no node of the
    tree has changed, the log of sampler invocations has only been extended,
    no entry has left any cache, and no dictionary other than the cache of
    the active context has been written. *)
Theorem resolve_keeps_world (E : externals) (fuel a : nat) (w : world)
    (c : SwungdashContext) :
  contextvar w = Some c →
  let w' := snd (resolve E fuel a w) in
  contextvar w' = Some c ∧
  heap w' = heap w ∧
  calls w `prefix_of` calls w' ∧
  (∀ d k, is_Some (dict_of w d !! k) → is_Some (dict_of w' d !! k)) ∧
  ∀ d, d ≠ cache c → dict_of w' d = dict_of w d.
Proof.
  intros Hc w'.
  destruct (keeps_resolve E fuel c a w Hc) as (? & ? & ? & _ & _ & ? & ?).
  done.
Qed.

(** ** Keys are structural *)

Lemma for_each_ext {St A B} (f g : A → ST St B) (xs ys : list A) :
  length xs = length ys →
  (∀ i x y s, xs !! i = Some x → ys !! i = Some y → f x s = g y s) →
  ∀ s, for_each f xs s = for_each g ys s.
Proof.
  revert ys. induction xs as [|x xs IH]; intros [|y ys] Hlen Hfg s;
    try discriminate; [done|].
  cbn [for_each]. unfold bind at 1 3. rewrite (Hfg 0 x y s eq_refl eq_refl).
  destruct (g y s) as [[b|e] s1]; [|done].
  unfold bind. rewrite (IH ys); [done|by injection Hlen|].
  intros i x' y' s' Hx Hy. by apply (Hfg (S i)).
Qed.

Lemma key_at_alike h n fuel : ∀ a b, alike h a b →
  ∀ s, key_at h n fuel a s = key_at h n fuel b s.
Proof.
  induction fuel as [|fuel IH]; intros a b Hab s; [done|].
  cbn [key_at].
  destruct Hab as [a b z c1 n1 c2 n2 Ha Hb|a b c1 n1 c2 n2 Ha Hb
                  |a b a' b' c1 n1 c2 n2 Ha Hb Hab
                  |a b f t1 o1 t2 o2 Ha Hb Ht Ho
                  |a b f args kw1 kw2 n1 c1 n2 c2 Ha Hb Hkw
                  |a b vs1 vs2 n1 c1 n2 c2 Ha Hb Hlen Hvs]; rewrite Ha, Hb.
  - done.
  - done.
  - by apply IH.
  - unfold bind. rewrite (IH t1 t2 Ht s).
    destruct (key_at h n fuel t2 s) as [[k1|e] s1]; [|done].
    by rewrite (IH o1 o2 Ho s1).
  - by rewrite (sorted_Permutation kw1 kw2 Hkw).
  - unfold bind at 1 3.
    rewrite (for_each_ext _ (λ value, do k ← key_at h n fuel value;
                                      replace_sample_count k) vs1 vs2 Hlen); [done|].
    intros i v1 v2 s' Hv1 Hv2. unfold bind.
    by rewrite (IH v1 v2 (Hvs i v1 v2 Hv1 Hv2) s').
Qed.

(** X2.  Nodes built alike have the same key: under any established context and
    with any budget, computing the key of one gives what computing the key
    of the other gives (the same key or the same exception).  Neither the
    identity of the nodes, nor [name] or [constant], nor the order of the
    keywords enters a key. *)
Theorem alike_nodes_equal_keys (fuel a b : nat) (w : world) (c : SwungdashContext) :
  contextvar w = Some c → alike (heap w) a b →
  fst (cache_key fuel a w) = fst (cache_key fuel b w).
Proof.
  intros Hc Hab.
  destruct (cache_key_pure fuel a w c Hc) as [m1 ->].
  destruct (cache_key_pure fuel b w c Hc) as [m2 ->].
  cbn [fst]. by rewrite (key_at_alike _ _ _ a b Hab).
Qed.

(** ** Resolving a [Mixture] again *)

Lemma cache_key_Some_run fuel a w c :
  contextvar w = Some c →
  ∃ m, cache_key fuel a w
       = (fst (key_at (heap w) (sample_count c) fuel a tt), bump_by m w).
Proof. apply cache_key_pure. Qed.

(** A hit: the cached value is returned and only context instances are
    created. *)
Lemma resolve_Mixture_hit E fuel a w c values nm cst k v :
  contextvar w = Some c →
  heap w !! a = Some (Mixture values nm cst) →
  fst (key_at (heap w) (sample_count c) (S fuel) a tt) = Ok k →
  dict_of w (cache c) !! k = Some v →
  ∃ m, resolve E (S fuel) a w = (Ok v, bump_by m w).
Proof.
  intros Hc Ha Hk Hv. cbn [resolve].
  erewrite bind_Ok by (unfold obj_at; by rewrite Ha). cbv beta match.
  set (ci := derive (next_context w) c no_overrides).
  set (wi := set_contextvar (Some ci) (bump w)).
  destruct (cache_key_pure (S fuel) a wi ci eq_refl) as [m1 Hk1].
  change (heap wi) with (heap w) in Hk1.
  change (sample_count ci) with (sample_count c) in Hk1. rewrite Hk in Hk1.
  destruct (cache_key_pure (S fuel) a (bump_by m1 wi) ci eq_refl) as [m2 Hk2].
  change (heap (bump_by m1 wi)) with (heap w) in Hk2.
  change (sample_count ci) with (sample_count c) in Hk2. rewrite Hk in Hk2.
  exists (S (m2 + m1)).
  erewrite with_Context_Some; [|done|].
  2:{ fold ci wi. erewrite bind_Ok by exact Hk1. erewrite bind_Ok by reflexivity.
      change (dict_of (bump_by m1 wi) (cache ci)) with (dict_of w (cache c)).
      rewrite Hv. erewrite bind_Ok by exact Hk2. erewrite bind_Ok by reflexivity.
      change (dict_of (bump_by m2 (bump_by m1 wi)) (cache ci))
        with (dict_of w (cache c)).
      rewrite Hv. reflexivity. }
  f_equal. subst wi ci. clear -Hc. unfold bump_by, bump. world_eq.
Qed.

(** What a resolution that returned has left behind: the value is in the
    active cache under the node's key. *)
Lemma resolve_Mixture_returned E fuel a w c values nm cst v w1 :
  contextvar w = Some c →
  heap w !! a = Some (Mixture values nm cst) →
  resolve E (S fuel) a w = (Ok v, w1) →
  ∃ k, fst (key_at (heap w) (sample_count c) (S fuel) a tt) = Ok k ∧
       dict_of w1 (cache c) !! k = Some v.
Proof.
  intros Hc Ha Hrun. cbn [resolve] in Hrun.
  erewrite bind_Ok in Hrun by (unfold obj_at; by rewrite Ha). cbv beta match in Hrun.
  set (ci := derive (next_context w) c no_overrides) in *.
  set (wi := set_contextvar (Some ci) (bump w)) in *.
  destruct (cache_key_pure (S fuel) a wi ci eq_refl) as [m1 Hk1].
  change (heap wi) with (heap w) in Hk1.
  change (sample_count ci) with (sample_count c) in Hk1.
  destruct (fst (key_at (heap w) (sample_count c) (S fuel) a tt)) as [k|e] eqn:Hk.
  2:{ erewrite with_Context_Some in Hrun; [|done|].
      2:{ fold ci wi. erewrite bind_Err by exact Hk1. reflexivity. }
      done. }
  exists k. split; [done|].
  destruct (dict_of w (cache c) !! k) as [v0|] eqn:Hv.
  { destruct (resolve_Mixture_hit E fuel a w c values nm cst k v0 Hc Ha Hk Hv) as [m Hhit].
    cbn [resolve] in Hhit.
    erewrite bind_Ok in Hhit by (unfold obj_at; by rewrite Ha). cbv beta match in Hhit.
    rewrite Hhit in Hrun. by simplify_eq. }
  destruct (_sample (resolve E fuel) values (bump_by m1 wi)) as [[value|e] w2] eqn:Hs.
  2:{ erewrite with_Context_Some in Hrun; [|done|].
      2:{ fold ci wi. erewrite bind_Ok by exact Hk1. erewrite bind_Ok by reflexivity.
          change (dict_of (bump_by m1 wi) (cache ci)) with (dict_of w (cache c)).
          rewrite Hv. erewrite bind_Err by exact Hs. reflexivity. }
      done. }
  pose proof (keeps__sample ci (resolve E fuel) values
                (λ c' v _, keeps_resolve E fuel c' v) (bump_by m1 wi) eq_refl) as Hw.
  rewrite Hs in Hw. cbn [snd] in Hw. destruct Hw as (Hc2 & Hh2 & _).
  destruct (cache_key_pure (S fuel) a w2 ci Hc2) as [m3 Hk3].
  rewrite Hh2 in Hk3. change (heap (bump_by m1 wi)) with (heap w) in Hk3.
  change (sample_count ci) with (sample_count c) in Hk3. rewrite Hk in Hk3.
  erewrite with_Context_Some in Hrun; [|done|].
  2:{ fold ci wi. erewrite bind_Ok by exact Hk1. erewrite bind_Ok by reflexivity.
      change (dict_of (bump_by m1 wi) (cache ci)) with (dict_of w (cache c)).
      rewrite Hv. erewrite bind_Ok by exact Hs. erewrite bind_Ok by exact Hk3.
      erewrite bind_Ok by reflexivity. reflexivity. }
  simplify_eq. unfold dict_of. cbn.
  by rewrite lookup_total_insert_eq, lookup_insert_eq.
Qed.

(** X3.  When resolving a [Mixture] under an established context returned a
    value, resolving it again, or resolving another [Mixture] built alike
    (components alike in the same order), returns the same array object
    from the cache: no sampling function is invoked, no randomness is
    consumed, no cache changes. *)
Theorem Mixture_resolve_again (E : externals) (fuel a b : nat) (w : world)
    (c : SwungdashContext) (values1 values2 : list nat) (nm1 nm2 : option string)
    (cst1 cst2 : option bool) (v : rv) (w1 : world) :
  contextvar w = Some c →
  heap w !! a = Some (Mixture values1 nm1 cst1) →
  heap w !! b = Some (Mixture values2 nm2 cst2) →
  a = b ∨ alike (heap w) a b →
  resolve E (S fuel) a w = (Ok v, w1) →
  ∃ w2, resolve E (S fuel) b w1 = (Ok v, w2) ∧
        calls w2 = calls w1 ∧ rand w2 = rand w1 ∧ dicts w2 = dicts w1 ∧
        next_array w2 = next_array w1 ∧ contextvar w2 = Some c.
Proof.
  intros Hc Ha Hb Hab Hrun.
  destruct (resolve_Mixture_returned E fuel a w c values1 nm1 cst1 v w1 Hc Ha Hrun)
    as (k & Hk & Hv).
  assert (fst (key_at (heap w) (sample_count c) (S fuel) b tt) = Ok k) as Hkb.
  { destruct Hab as [<-|Hab]; [done|]. by rewrite <-(key_at_alike _ _ _ a b Hab). }
  pose proof (keeps_resolve E (S fuel) c a w Hc) as Hw. rewrite Hrun in Hw.
  cbn [snd] in Hw. destruct Hw as (Hc1 & Hh1 & _).
  destruct (resolve_Mixture_hit E fuel b w1 c values2 nm2 cst2 k v Hc1) as [m ->];
    [by rewrite Hh1..|done|].
  by eexists.
Qed.

(** ** Scopes that replace the cache *)

(** X4.  A scope entered with a [cache] keyword runs its body against that
    dictionary: whatever is resolved inside, the cache of the enclosing
    context is left exactly as it was, nothing leaves the dictionary given,
    and the enclosing context is active again afterwards. *)
Theorem Context_cache_override_isolates (E : externals) (kw : overrides) (d : nat)
    (fuel a : nat) (w : world) (c : SwungdashContext) :
  contextvar w = Some c → kw_cache kw = Some d → d ≠ cache c →
  let w' := snd (with_Context kw (λ _, resolve E fuel a) w) in
  dict_of w' (cache c) = dict_of w (cache c) ∧
  (∀ k, is_Some (dict_of w d !! k) → is_Some (dict_of w' d !! k)) ∧
  heap w' = heap w ∧
  contextvar w' = Some c.
Proof.
  intros Hc Hkw Hd w'. subst w'.
  set (ci := derive (next_context w) c kw).
  set (wi := set_contextvar (Some ci) (bump w)).
  destruct (resolve E fuel a wi) as [r w2] eqn:Hrun.
  rewrite (with_Context_Some kw _ w c r w2 Hc Hrun). cbn [snd].
  assert (cache ci = d) as Hci by (subst ci; cbn; by rewrite Hkw).
  pose proof (keeps_resolve E fuel ci a wi eq_refl) as Hw. rewrite Hrun in Hw.
  cbn [snd] in Hw. destruct Hw as (_ & Hh & _ & _ & _ & Hk & Ho).
  split; [|split; [|split]].
  - apply (Ho (cache c)). congruence.
  - intros k. apply (Hk d k).
  - exact Hh.
  - reflexivity.
Qed.

(** ** The active context *)

(** X5.  [getcontext] never fails and is idempotent: the context it returns is
    the active one afterwards, and asking again returns the same instance
    and changes nothing.  Where no context was set, the one installed has
    the default sample count 1000, the rule [constant] and a cache that is
    a new, empty dictionary; the tree, the other dictionaries and the log
    of invocations are untouched. *)
Theorem getcontext_installs_default (w : world) :
  ∃ c w1,
    getcontext w = (Ok c, w1) ∧
    contextvar w1 = Some c ∧
    getcontext w1 = (Ok c, w1) ∧
    (∀ c0, contextvar w = Some c0 → c = c0 ∧ w1 = w) ∧
    (contextvar w = None →
       sample_count c = DEFAULT_SAMPLE_COUNT ∧ cache_rule c = "constant"%string ∧
       cache c = next_dict w ∧ dict_of w1 (cache c) = ∅ ∧
       (∀ d, d ≠ next_dict w → dict_of w1 d = dict_of w d) ∧
       heap w1 = heap w ∧ calls w1 = calls w ∧ rand w1 = rand w).
Proof.
  exists (active w), (activate w). split; [apply getcontext_eq|].
  split; [apply contextvar_activate|].
  split; [by rewrite getcontext_eq, active_activate, activate_idem|].
  split.
  - intros c0 Hc0. destruct (activate_Some w c0 Hc0) as [-> ->]. done.
  - intros Hnone. unfold active, activate, new_default_context, dict_of.
    rewrite Hnone. cbn. split_and!; try done.
    + by rewrite lookup_total_insert_eq.
    + intros d Hd. by rewrite lookup_total_insert_ne.
Qed.

(** ** Computing a key has no effect *)

(** X6.  Under an established context, computing the key of a node only
    creates context instances: the tree, the active context, every cache,
    the log of invocations and the random source are as before.  The key, or
    the exception raised instead, is a function of the tree and of the
    active sample count alone: two worlds that agree on these give the same
    outcome, whatever their caches hold. *)
Theorem cache_key_reads_tree_and_sample_count (fuel a : nat) (w1 w2 : world)
    (c1 c2 : SwungdashContext) :
  contextvar w1 = Some c1 → contextvar w2 = Some c2 →
  heap w1 = heap w2 → sample_count c1 = sample_count c2 →
  fst (cache_key fuel a w1) = fst (cache_key fuel a w2) ∧
  let w1' := snd (cache_key fuel a w1) in
  heap w1' = heap w1 ∧ contextvar w1' = Some c1 ∧ dicts w1' = dicts w1 ∧
  calls w1' = calls w1 ∧ rand w1' = rand w1 ∧ next_array w1' = next_array w1.
Proof.
  intros Hc1 Hc2 Hh Hn.
  destruct (cache_key_pure fuel a w1 c1 Hc1) as [m1 ->].
  destruct (cache_key_pure fuel a w2 c2 Hc2) as [m2 ->].
  cbn [fst snd]. rewrite Hh, Hn. by repeat split.
Qed.

(** ** Resolving a tree without random parts *)

Lemma set_next_array_twice n m w :
  set_next_array n (set_next_array m w) = set_next_array n w.
Proof. reflexivity. Qed.

Lemma set_next_array_id w : set_next_array (next_array w) w = w.
Proof. by destruct w. Qed.

Lemma of_payload_arrays r w :
  ∃ n, next_array w ≤ n ∧ snd (of_payload r w) = set_next_array n w.
Proof.
  destruct r as [[z|data]|e]; cbn.
  - exists (next_array w). by rewrite set_next_array_id.
  - exists (S (next_array w)). split; [lia|done].
  - exists (next_array w). by rewrite set_next_array_id.
Qed.

Lemma resolve_sample_free E fuel : ∀ a w, sample_free (heap w) a →
  ∃ n, next_array w ≤ n ∧ snd (resolve E fuel a w) = set_next_array n w.
Proof.
  induction fuel as [|fuel IH]; intros a w Ha.
  { exists (next_array w). by rewrite set_next_array_id. }
  cbn [resolve]. unfold bind at 1, obj_at.
  destruct Ha as [a v c nm Ha Hv|a f this other Ha Hthis Hother]; rewrite Ha.
  - destruct v as [z| |b].
    + exists (next_array w). by rewrite set_next_array_id.
    + exists (next_array w). by rewrite set_next_array_id.
    + by apply IH, Hv.
  - unfold bind at 1. destruct (IH this w Hthis) as (n1 & Hn1 & H1).
    destruct (resolve E fuel this w) as [[x|e] w1]; cbn [snd] in H1; subst w1;
      [|by exists n1].
    unfold bind.
    assert (∃ n2, n1 ≤ n2 ∧
              snd (match other with
                   | Some b => resolve E fuel b
                   | None => raise TypeError
                   end (set_next_array n1 w)) = set_next_array n2 w)
      as (n2 & Hn2 & H2).
    { destruct other as [b|].
      - destruct (IH b (set_next_array n1 w)) as (n2 & Hn2 & H2); [by apply Hother|].
        exists n2. by rewrite H2.
      - by exists n1. }
    destruct (match other with Some b => resolve E fuel b | None => raise TypeError end
                (set_next_array n1 w)) as [[y|e] w2]; cbn [snd] in H2; subst w2;
      [|exists n2; split; [lia|done]].
    assert (∀ r, ∃ n, next_array w ≤ n ∧
                      snd (of_payload r (set_next_array n2 w)) = set_next_array n w)
      as Hp.
    { intros r. destruct (of_payload_arrays r (set_next_array n2 w)) as (n & Hn & ->).
      exists n. cbn in Hn. split; [lia|done]. }
    destruct y; apply Hp.
Qed.

(** X7.  Resolving a tree of plain [Value]s and [Operation]s leaves the context
    and the caches alone: whatever the budget, the operators and the state
    of the context variable, no scope is entered (no context is installed
    where none was set), no dictionary is written, no sampling function is
    invoked and no randomness is consumed.  All that can change is that the
    operators have created arrays. *)
Theorem sample_free_resolve_stateless (E : externals) (fuel a : nat) (w : world) :
  sample_free (heap w) a →
  let w' := snd (resolve E fuel a w) in
  heap w' = heap w ∧ contextvar w' = contextvar w ∧
  next_context w' = next_context w ∧ dicts w' = dicts w ∧
  next_dict w' = next_dict w ∧ calls w' = calls w ∧ rand w' = rand w ∧
  next_array w ≤ next_array w'.
Proof.
  intros Ha w'. subst w'.
  destruct (resolve_sample_free E fuel a w Ha) as (n & Hn & ->).
  by repeat split.
Qed.

(** ** The constructors build ordered heaps *)

Lemma lookup_snoc {A} (h : list A) (o : A) : (h ++ [o]) !! length h = Some o.
Proof. by rewrite lookup_app_r, Nat.sub_diag by lia. Qed.

Lemma lookup_snoc_lt {A} (h : list A) (o : A) a : a < length h → (h ++ [o]) !! a = h !! a.
Proof. intros. by rewrite lookup_app_l. Qed.

Lemma Value_at_app h l a : Value_at h a → Value_at (h ++ l) a.
Proof.
  intros (o & Ho & Hv). exists o. split; [|done].
  by apply lookup_app_l_Some.
Qed.

Lemma Value_at_snoc h o : is_Value o = true → Value_at (h ++ [o]) (length h).
Proof. intros Hv. exists o. by rewrite lookup_snoc. Qed.

Lemma Value_at_lt h a : Value_at h a → a < length h.
Proof. intros (o & Ho & _). by eapply lookup_lt_Some. Qed.

Lemma ordered_obj_app h l a o : ordered_obj h a o → ordered_obj (h ++ l) a o.
Proof.
  destruct o as [[]|f this [other|]| |values nm cst]; cbn; try done.
  - intros (? & ? & ? & ?). eauto 10 using Value_at_app.
  - intros (? & ? & _). eauto 10 using Value_at_app.
  - intros Hall. eapply Forall_impl; [exact Hall|].
    intros v [??]. eauto using Value_at_app.
Qed.

Lemma ordered_snoc h o : ordered h → ordered_obj h (length h) o → ordered (h ++ [o]).
Proof.
  intros Hord Ho a o' Ha. apply ordered_obj_app.
  apply lookup_app_Some in Ha as [Ha|[Hlen Ha]]; [by apply Hord|].
  apply list_lookup_singleton_Some in Ha as [Ha ->].
  by replace a with (length h) by lia.
Qed.

Lemma set_heap_id w : set_heap (heap w) w = w.
Proof. by destruct w. Qed.

Lemma builds_alloc w o :
  ordered (heap w) → ordered_obj (heap w) (length (heap w)) o → is_Value o = true →
  builds w (alloc o).
Proof.
  intros Hord Ho Hv. unfold builds, alloc. cbn.
  split; [by apply ordered_snoc|]. split; [by apply prefix_app_r|].
  split; [done|]. intros a [= <-]. split; [done|]. by apply Value_at_snoc.
Qed.

(** A wrapped operation: the [Operation] object, then the [Value] around
    it. *)
Lemma builds_wrap w f this other :
  ordered (heap w) → Value_at (heap w) this → Value_at (heap w) other →
  builds w (do op ← alloc (Operation f this (Some other));
            alloc (Value (PObj op) None None)).
Proof.
  intros Hord Hthis Hother. unfold builds, bind, alloc. cbn.
  assert (ordered (heap w ++ [Operation f this (Some other)])) as Hord1.
  { apply ordered_snoc; [done|]. cbn. split_and!; eauto using Value_at_lt. }
  split.
  { apply ordered_snoc; [done|]. cbn. rewrite length_app. cbn. lia. }
  split; [apply prefix_app_r, prefix_app_r; done|].
  split; [done|]. intros a [= <-]. split; [rewrite length_app; lia|].
  exists (Value (PObj (length (heap w))) None None). split; [|done].
  apply lookup_app_Some. right. rewrite length_app. cbn. split; [lia|].
  by replace (_ - _) with 0 by lia.
Qed.

Lemma builds_raise w e : ordered (heap w) → builds w (raise e).
Proof.
  intros Hord. unfold builds, raise. split; [done|]. split; [done|].
  split; [by rewrite set_heap_id|]. done.
Qed.

Lemma builds_after w (o : obj) (k : nat → M nat) :
  builds (set_heap (heap w ++ [o]) w) (k (length (heap w))) →
  builds w (do b ← alloc o; k b).
Proof.
  unfold builds, bind, alloc. cbn.
  destruct (k (length (heap w)) _) as [r w'].
  intros (Hord & Hpre & Hw & Hr). split; [done|].
  split; [etrans; [by apply prefix_app_r|done]|].
  split; [by rewrite Hw at 1|].
  intros a Ha. destruct (Hr a Ha) as [Hlen Hv]. split; [|done].
  rewrite length_app in Hlen. lia.
Qed.

(** X8.  Every constructor of the tree keeps the heap ordered: run on an
    ordered heap with operands that exist and are [Value] instances, as the
    annotations require, [Value], [Distribution], [Mixture] and the operator
    overloads ([_operation], either direction) leave an ordered heap in which
    every existing node is as before, and return a new [Value] instance
    whenever they return. *)
Theorem constructors_build_ordered (w : world) :
  ordered (heap w) →
  (∀ value constant name,
     (∀ b, value = PObj b → b < length (heap w)) →
     builds w (new_Value value constant name)) ∧
  (∀ function args kw name, builds w (new_Distribution function args kw name)) ∧
  (∀ values name,
     Forall (Value_at (heap w)) values → builds w (new_Mixture values name)) ∧
  (∀ self function other reverse,
     Value_at (heap w) self → (∀ b, other = PObj b → Value_at (heap w) b) →
     builds w (_operation self function other reverse)).
Proof.
  intros Hord. split; [|split; [|split]].
  - intros value constant name Hv. apply builds_alloc; [done| |done].
    destruct value; cbn; auto.
  - intros. apply builds_alloc; [done| |done]. by eexists.
  - intros values name Hvs. apply builds_alloc; [done| |done]. cbn.
    eapply Forall_impl; [exact Hvs|]. intros v Hv. eauto using Value_at_lt.
  - intros self f other reverse Hself Hother. unfold _operation.
    assert (∀ w' b, ordered (heap w') → Value_at (heap w') self →
              Value_at (heap w') b →
              builds w'
                (if reverse then
                   do o ← obj_at b;
                   do v ← match o with
                          | Value v _ _ => ret v
                          | _ => raise AttributeError
                          end;
                   if decide (v = PEmpty) then raise AssertionError else
                   do op ← alloc (Operation f b (Some self));
                   alloc (Value (PObj op) None None)
                 else
                   do op ← alloc (Operation f self (Some b));
                   alloc (Value (PObj op) None None))) as Hrest.
    { intros w' b Hord' Hself' Hb. destruct reverse; [|by apply builds_wrap].
      destruct Hb as (o & Ho & Hv).
      assert (builds w' (raise AttributeError)) as Hraise by by apply builds_raise.
      unfold bind at 1, obj_at. unfold builds. rewrite Ho. fold (builds w').
      destruct o as [v c nm| | |]; try exact Hraise.
      unfold bind at 1, ret. unfold builds. cbn beta iota.
      destruct (decide (v = PEmpty)); [by apply builds_raise|].
      apply builds_wrap; [done| |done]. by exists (Value v c nm). }
    destruct other as [z| |b].
    + apply builds_after. apply Hrest; cbn.
      * by apply ordered_snoc.
      * by apply Value_at_app.
      * by apply Value_at_snoc.
    + apply builds_after. apply Hrest; cbn.
      * by apply ordered_snoc.
      * by apply Value_at_app.
      * by apply Value_at_snoc.
    + unfold bind at 1, ret. unfold builds. cbn beta iota.
      apply Hrest; auto.
Qed.

(** ** Operator overloads, built and resolved *)

(** The three objects that an overload with a raw operand creates. *)
Lemma _operation_raw self f v reverse w :
  (∀ b, v ≠ PObj b) → (reverse = true → v ≠ PEmpty) →
  let n := length (heap w) in
  _operation self f v reverse w
  = (Ok (2 + n),
     set_heap (heap w ++ [Value v None None;
                          if reverse then Operation f n (Some self)
                          else Operation f self (Some n);
                          Value (PObj (1 + n)) None None]) w).
Proof.
  intros Hv Hrev n. subst n. unfold _operation.
  assert (alloc (Value v None None) w
          = (Ok (length (heap w)), set_heap (heap w ++ [Value v None None]) w)) as Hal
    by reflexivity.
  replace (match v with PObj b => ret b | _ => alloc (Value v None None) end)
    with (alloc (Value v None None)) by (destruct v as [| |b]; [done|done|by destruct (Hv b)]).
  erewrite bind_Ok by exact Hal.
  destruct reverse.
  - erewrite bind_Ok by (unfold obj_at; cbn [heap set_heap]; by rewrite lookup_snoc).
    erewrite bind_Ok by reflexivity.
    rewrite decide_False by auto.
    unfold bind, alloc. cbn. rewrite !length_app. cbn.
    replace (length (heap w) + 1 + 1) with (S (S (length (heap w)))) by lia.
    replace (length (heap w) + 1) with (S (length (heap w))) by lia.
    rewrite <-!(assoc_L (++)). reflexivity.
  - unfold bind, alloc. cbn. rewrite !length_app. cbn.
    replace (length (heap w) + 1 + 1) with (S (S (length (heap w)))) by lia.
    replace (length (heap w) + 1) with (S (length (heap w))) by lia.
    rewrite <-!(assoc_L (++)). reflexivity.
Qed.

Lemma lookup_app_at {A} (h l : list A) i j :
  j = i + length h → (h ++ l) !! j = l !! i.
Proof. intros ->. rewrite lookup_app_r by lia. f_equal. lia. Qed.

Lemma resolve_wrapped_Operation E fuel r op f this other vx cx nx vy cy ny c nm w :
  heap w !! r = Some (Value (PObj op) c nm) →
  heap w !! op = Some (Operation f this (Some other)) →
  heap w !! this = Some (Value vx cx nx) → (∀ b, vx ≠ PObj b) →
  heap w !! other = Some (Value vy cy ny) → (∀ b, vy ≠ PObj b) →
  resolve E (3 + fuel) r w
  = match raw vy with
    | REmpty => of_payload (apply1 E f (raw vx))
    | y => of_payload (apply2 E f (raw vx) y)
    end w.
Proof.
  intros Hr Hop Hthis Hvx Hother Hvy.
  change (3 + fuel) with (S (S (S fuel))).
  rewrite (resolve_Value_ref E _ r op c nm w Hr).
  rewrite (resolve_Operation E _ op f this other w Hop).
  erewrite bind_Ok by (by eapply resolve_Value_raw).
  erewrite bind_Ok by (by eapply resolve_Value_raw).
  by destruct vy.
Qed.

(** X9.  The operator overloads on a [Value] that holds the number [x], built
    and then resolved: [self op y] resolves to [function(x, y)], the
    reflected [y op self] to [function(y, x)], the unary [op self] (no other
    operand: the sentinel) to [function(x)]; a reflected call without other
    operand fails its assertion. *)
Theorem operator_overloads_resolve (E : externals) (function : fn) (x y : Z)
    (self fuel : nat) (c : option bool) (nm : option string) (w : world) :
  heap w !! self = Some (Value (PNum x) c nm) →
  (∃ r w1, _operation self function (PNum y) false w = (Ok r, w1) ∧
           resolve E (3 + fuel) r w1
           = of_payload (apply2 E function (RNum x) (RNum y)) w1) ∧
  (∃ r w1, _operation self function (PNum y) true w = (Ok r, w1) ∧
           resolve E (3 + fuel) r w1
           = of_payload (apply2 E function (RNum y) (RNum x)) w1) ∧
  (∃ r w1, _operation self function PEmpty false w = (Ok r, w1) ∧
           resolve E (3 + fuel) r w1
           = of_payload (apply1 E function (RNum x)) w1) ∧
  fst (_operation self function PEmpty true w) = Err AssertionError.
Proof.
  intros Hself.
  assert (self < length (heap w)) as Hlt by by eapply lookup_lt_Some.
  split; [|split; [|split]].
  - eexists _, _. split; [by apply _operation_raw|].
    rewrite (resolve_wrapped_Operation E fuel _ (1 + length (heap w)) function self
               (length (heap w)) (PNum x) c nm (PNum y) None None None None);
      cbn [heap set_heap]; try done.
    + by rewrite (lookup_app_at _ _ 2) by lia.
    + by rewrite (lookup_app_at _ _ 1) by lia.
    + by rewrite lookup_app_l.
    + by rewrite (lookup_app_at _ _ 0) by lia.
  - eexists _, _. split; [by apply _operation_raw|].
    rewrite (resolve_wrapped_Operation E fuel _ (1 + length (heap w)) function
               (length (heap w)) self (PNum y) None None (PNum x) c nm None None);
      cbn [heap set_heap]; try done.
    + by rewrite (lookup_app_at _ _ 2) by lia.
    + by rewrite (lookup_app_at _ _ 1) by lia.
    + by rewrite (lookup_app_at _ _ 0) by lia.
    + by rewrite lookup_app_l.
  - eexists _, _. split; [by apply _operation_raw|].
    rewrite (resolve_wrapped_Operation E fuel _ (1 + length (heap w)) function self
               (length (heap w)) (PNum x) c nm PEmpty None None None None);
      cbn [heap set_heap]; try done.
    + by rewrite (lookup_app_at _ _ 2) by lia.
    + by rewrite (lookup_app_at _ _ 1) by lia.
    + by rewrite lookup_app_l.
    + by rewrite (lookup_app_at _ _ 0) by lia.
  - unfold _operation.
    erewrite bind_Ok by reflexivity.
    erewrite bind_Ok by (unfold obj_at; cbn [heap set_heap]; by rewrite lookup_snoc).
    erewrite bind_Ok by reflexivity. reflexivity.
Qed.

(** ** The traversal *)

Lemma for_each_total {St A B} (f : A → ST St B) (P : A → B → Prop) (xs : list A) s :
  Forall (λ x, ∃ y, f x s = (Ok y, s) ∧ P x y) xs →
  ∃ ys, for_each f xs s = (Ok ys, s) ∧ Forall2 P xs ys.
Proof.
  induction 1 as [|x xs (y & Hy & HP) _ (ys & Hys & HPs)]; [by exists []|].
  exists (y :: ys). cbn [for_each].
  erewrite bind_Ok by exact Hy. erewrite bind_Ok by exact Hys.
  split; [done|]. by constructor.
Qed.

Lemma _bfs_total h fuel : ordered h → ∀ tree,
  (∀ a, tree = PObj a → is_Some (h !! a) ∧ a + 1 < fuel) → 0 < fuel →
  ∃ parts, _bfs fuel tree h = (Ok parts, h) ∧
           Forall (λ p, Value_at h p ∧ ∀ a, tree = PObj a → p ≤ a) parts ∧
           ∀ a, tree = PObj a → Value_at h a → head parts = Some a.
Proof.
  intros Hord. induction fuel as [|fuel IH]; intros tree Htree Hfuel; [lia|].
  cbn [_bfs]. destruct tree as [z| |a].
  - exists []. by repeat split.
  - exists []. by repeat split.
  - destruct (Htree a eq_refl) as [[o Ho] Hlt].
    erewrite bind_Ok by (unfold node_at; by rewrite Ho).
    pose proof (Hord a o Ho) as Hoo.
    pose proof (lookup_lt_Some _ _ _ Ho) as Hlen.
    assert (∀ b, b < a →
              ∃ parts, _bfs fuel (PObj b) h = (Ok parts, h) ∧
                       Forall (λ p, Value_at h p ∧ ∀ a', PObj a = PObj a' → p ≤ a')
                              parts) as Hsub.
    { intros b Hb.
      destruct (IH (PObj b)) as (parts & Hrun & Hall & _); [|lia|].
      { intros ? [= <-]. split; [apply lookup_lt_is_Some_2|]; lia. }
      exists parts. split; [done|]. eapply Forall_impl; [exact Hall|].
      intros p [Hp Hle]. split; [done|]. intros ? [= <-].
      specialize (Hle b eq_refl). lia. }
    assert (∀ o', h !! a = Some o' → is_Value o' = true →
              Value_at h a ∧ ∀ a', PObj a = PObj a' → a ≤ a') as Hroot.
    { intros o' Ho' Hv. split; [by exists o'|]. by intros ? [= <-]. }
    destruct o as [v cst nm|f this other|f args kw nm cst|values nm cst].
    + assert (∃ rest, _bfs fuel v h = (Ok rest, h) ∧
                Forall (λ p, Value_at h p ∧ ∀ a', PObj a = PObj a' → p ≤ a') rest)
        as (rest & Hrun & Hall).
      { destruct v as [z| |b].
        - exists []. destruct fuel; [lia|]. done.
        - exists []. destruct fuel; [lia|]. done.
        - by apply Hsub. }
      exists (a :: rest). erewrite bind_Ok by exact Hrun.
      split; [done|]. split; [|by intros ? [= <-]]. constructor; [|done]. by eapply Hroot.
    + destruct Hoo as (Hthis & _ & Hother).
      destruct (Hsub this Hthis) as (l & Hl & Hall).
      assert (∃ r, _bfs fuel (from_option PObj PEmpty other) h = (Ok r, h) ∧
                Forall (λ p, Value_at h p ∧ ∀ a', PObj a = PObj a' → p ≤ a') r)
        as (r & Hr & Hallr).
      { destruct other as [b|]; cbn [from_option].
        - apply Hsub. by destruct Hother.
        - exists []. destruct fuel; [lia|]. done. }
      exists (l ++ r). erewrite bind_Ok by exact Hl. erewrite bind_Ok by exact Hr.
      split; [done|]. split; [by apply Forall_app|].
      intros ? [= <-] (o' & Ho' & Hv'). by simplify_eq.
    + exists [a]. split; [done|]. split; [|by intros ? [= <-]]. constructor; [|done].
      by eapply Hroot.
    + cbn in Hoo.
      destruct (for_each_total (λ value_, _bfs fuel (PObj value_))
                  (λ _ parts, Forall (λ p, Value_at h p ∧
                                           ∀ a', PObj a = PObj a' → p ≤ a') parts)
                  values h) as (nested & Hrun & Hall).
      { eapply Forall_impl; [exact Hoo|]. intros v [Hv _]. by apply Hsub. }
      exists (a :: concat nested). erewrite bind_Ok by exact Hrun.
      split; [done|]. split; [|by intros ? [= <-]]. constructor; [by eapply Hroot|].
      apply Forall_concat. clear -Hall.
      induction Hall; by constructor.
Qed.

(** X10.  On a heap as the constructors build it, [_bfs] returns for every node
    (a budget above the address of the node plus one is enough) and changes
    nothing.  Every part it lists is a [Value] instance, never a bare
    [Operation], and was created no later than the root; when the root is a
    [Value] instance, it is the first part. *)
Theorem bfs_lists_Value_nodes (h : list obj) (a fuel : nat) :
  ordered h → is_Some (h !! a) → a + 1 < fuel →
  ∃ parts,
    _bfs fuel (PObj a) h = (Ok parts, h) ∧
    Forall (λ p, Value_at h p ∧ p ≤ a) parts ∧
    (Value_at h a → head parts = Some a).
Proof.
  intros Hord Ha Hfuel.
  destruct (_bfs_total h fuel Hord (PObj a)) as (parts & Hrun & Hall & Hhead);
    [by intros ? [= <-]|lia|].
  exists parts. split; [done|]. split; [|by apply Hhead].
  eapply Forall_impl; [exact Hall|]. intros p [Hp Hle]. split; [done|by apply Hle].
Qed.

(** ** Marking twice *)

(** X11.  Running [mark_constancy] again on a tree it has marked returns at once
    with the same result and changes nothing: the root's [constant] is set,
    so the analysis does not descend a second time (the budget may be as
    small as the first run allowed). *)
Theorem mark_constancy_idempotent (h h' : list obj) (tree r : pyval) (fuel : nat) :
  mark_constancy fuel tree h = (Ok r, h') →
  mark_constancy fuel tree h' = (Ok r, h').
Proof.
  intros Hrun. destruct tree as [z| |a].
  - cbv [mark_constancy ret] in *. by simplify_eq.
  - cbv [mark_constancy ret] in *. by simplify_eq.
  - cbn [mark_constancy] in *.
    apply bind_inv in Hrun as (o & hx & Ho & Hrun).
    apply node_at_inv in Ho as [Ho ->].
    destruct (is_Value o) eqn:Hv.
    2:{ cbv [ret] in Hrun. simplify_eq.
        erewrite bind_Ok by (unfold node_at; by rewrite Ho). by rewrite Hv. }
    apply bind_inv in Hrun as (c & h1 & Hc & Hrun).
    apply bind_inv in Hrun as (u & h2 & Has & Hrun).
    cbv [ret] in Hrun. simplify_eq.
    destruct (_mark_constancy_sound fuel _ _ _ _ Hc) as (b & -> & _ & _).
    apply assign_constant_inv in Has as (o1 & Ho1 & Hv1 & ->).
    pose proof (lookup_lt_Some _ _ _ Ho1) as Hlt.
    assert (<[a:=set_constant (Some b) o1]> h1 !! a = Some (set_constant (Some b) o1))
      as Ho' by by apply list_lookup_insert_eq.
    erewrite bind_Ok by (unfold node_at; by rewrite Ho').
    rewrite is_Value_set_constant, Hv1.
    assert (_mark_constancy fuel (PObj a) (<[a:=set_constant (Some b) o1]> h1)
            = (Ok (Some b), <[a:=set_constant (Some b) o1]> h1)) as Hagain.
    { destruct fuel as [|fuel]; [done|]. cbn [_mark_constancy] in *.
      destruct (decide (a = _tracer)) as [Ht|Ht].
      - cbv [ret] in Hc. by simplify_eq.
      - erewrite bind_Ok by (unfold node_at; by rewrite Ho').
        rewrite is_Value_set_constant, Hv1. cbn [negb].
        by rewrite get_constant_set_constant. }
    erewrite bind_Ok by exact Hagain.
    erewrite bind_Ok; [reflexivity|].
    unfold assign_constant. rewrite Ho', is_Value_set_constant, Hv1.
    rewrite set_constant_set_constant. by rewrite list_insert_insert_eq.
Qed.

(** ** Every part gets its [constant] *)

Lemma decided_marked h h' p : marked h h' → decided h p → decided h' p.
Proof.
  intros [_ Hm] (o & Ho & Hc).
  destruct (Hm p o Ho) as [Ho'|(Hv & b & Ho' & _)].
  - by exists o.
  - exists (set_constant (Some b) o). split; [done|].
    by rewrite get_constant_set_constant.
Qed.

Lemma children_set_constant h c o : children h (set_constant c o) = children h o.
Proof. by destruct o as [[]| | |]. Qed.

Lemma children_marked h h' o : marked h h' → children h' o = children h o.
Proof.
  intros [Hlen Hm]. destruct o as [[z| |b] c n| | |]; try done. cbn.
  destruct (h !! b) as [ob|] eqn:Hb.
  - destruct (Hm b ob Hb) as [->|(Hv & x & -> & _)]; [done|].
    by destruct ob.
  - apply lookup_ge_None in Hb. rewrite <-Hlen in Hb. apply lookup_ge_None in Hb.
    by rewrite Hb.
Qed.

Lemma children_at_marked h h' a o o' :
  marked h h' → h !! a = Some o → h' !! a = Some o' → children h' o' = children h o.
Proof.
  intros Hm Ho Ho'. rewrite (children_marked h h' o' Hm).
  destruct Hm as [_ Hm].
  destruct (Hm a o Ho) as [H|(_ & b & H & _)]; rewrite H in Ho'; simplify_eq;
    [done|apply children_set_constant].
Qed.

Lemma tracer_raw_marked h h' : marked h h' → tracer_raw h → tracer_raw h'.
Proof.
  intros [_ Hm]. unfold tracer_raw.
  destruct (h !! _tracer) as [o|] eqn:Ho; [|done].
  destruct (Hm _ o Ho) as [->|(_ & b & -> & _)]; [done|].
  by destruct o as [[]| | |].
Qed.

Lemma tracer_raw_children h o : tracer_raw h → h !! _tracer = Some o → children h o = [].
Proof.
  unfold tracer_raw. intros Ht Ho. rewrite Ho in Ht.
  by destruct o as [[]| | |].
Qed.

(** Setting the [constant] of a node whose children are decided keeps the
    heap closed. *)
Lemma closed_insert h v o b :
  closed h → h !! v = Some o → is_Value o = true →
  Forall (decided h) (children h o) →
  closed (<[v := set_constant (Some b) o]> h).
Proof.
  intros Hcl Ho Hv Hch.
  pose proof (lookup_lt_Some _ _ _ Ho) as Hlt.
  assert (marked_like : ∀ p, decided h p → decided (<[v := set_constant (Some b) o]> h) p).
  { intros p (op & Hop & Hc). destruct (decide (p = v)) as [->|Hne].
    - exists (set_constant (Some b) o). rewrite list_lookup_insert_eq by done.
      split; [done|]. by rewrite get_constant_set_constant.
    - exists op. by rewrite list_lookup_insert_ne. }
  assert (same : ∀ x, children (<[v := set_constant (Some b) o]> h) x = children h x).
  { intros [[z| |p] c n| | |]; try done. cbn.
    destruct (decide (p = v)) as [->|Hne].
    - rewrite list_lookup_insert_eq by done. rewrite Ho. by destruct o.
    - by rewrite list_lookup_insert_ne. }
  intros x ox Hx Hc. rewrite same.
  destruct (decide (x = v)) as [->|Hne].
  - rewrite list_lookup_insert_eq in Hx by done. simplify_eq.
    rewrite children_set_constant. eapply Forall_impl; [exact Hch|done].
  - rewrite list_lookup_insert_ne in Hx by done.
    eapply Forall_impl; [exact (Hcl x ox Hx Hc)|done].
Qed.

Lemma mark_and_assign_thorough fuel h v u h2 :
  thorough fuel → ordered h → closed h → tracer_raw h →
  mark_and_assign fuel v h = (Ok u, h2) →
  marked h h2 ∧ ordered h2 ∧ closed h2 ∧ tracer_raw h2 ∧ decided h2 v.
Proof.
  intros Hth Hord Hcl Htr Hrun.
  destruct (mark_and_assign_sound fuel h h v u h2 (_mark_constancy_sound fuel)
              (marked_refl h) Hrun) as [Hm _].
  split; [done|]. split; [by eapply ordered_marked|].
  apply bind_inv in Hrun as (c & h1 & Hc & Ha).
  destruct (Hth _ _ _ _ Hord Hcl Htr Hc) as [Hcl1 Hch].
  destruct (_mark_constancy_sound fuel _ _ _ _ Hc) as (b & -> & _ & _).
  apply assign_constant_inv in Ha as (o1 & Ho1 & Hv1 & ->).
  split; [by apply closed_insert, (Hch v)|].
  split; [by eapply tracer_raw_marked|].
  exists (set_constant (Some b) o1).
  rewrite list_lookup_insert_eq by (by eapply lookup_lt_Some).
  split; [done|]. by rewrite get_constant_set_constant.
Qed.

Lemma mark_components_thorough fuel (vs : list nat) : ∀ h us h2,
  thorough fuel → ordered h → closed h → tracer_raw h →
  for_each (mark_and_assign fuel) vs h = (Ok us, h2) →
  marked h h2 ∧ closed h2 ∧ Forall (decided h2) vs.
Proof.
  induction vs as [|v vs IH]; intros h us h2 Hth Hord Hcl Htr Hrun.
  { cbn [for_each] in Hrun. cbv [ret] in Hrun. simplify_eq.
    split; [apply marked_refl|]. split; [done|constructor]. }
  cbn [for_each] in Hrun.
  apply bind_inv in Hrun as (u & hx & Hv & Hrun).
  apply bind_inv in Hrun as (us' & hy & Hvs & Hret). cbv [ret] in Hret. simplify_eq.
  destruct (mark_and_assign_thorough _ _ _ _ _ Hth Hord Hcl Htr Hv)
    as (Hm & Hord1 & Hcl1 & Htr1 & Hd).
  destruct (IH hx us' h2 Hth Hord1 Hcl1 Htr1 Hvs) as (Hm2 & Hcl2 & Hall).
  split; [by eapply marked_trans|]. split; [done|].
  constructor; [by eapply decided_marked|done].
Qed.

Lemma _mark_constancy_thorough fuel : thorough fuel.
Proof.
  induction fuel as [|fuel IH]; intros t h r h' Hord Hcl Htr Hrun; [done|].
  destruct (_mark_constancy_sound (S fuel) _ _ _ _ Hrun) as (b0 & -> & _ & Hmark).
  cbn [_mark_constancy] in Hrun.
  destruct t as [z| |a].
  { cbv [ret] in Hrun. by simplify_eq. }
  { cbv [ret] in Hrun. by simplify_eq. }
  destruct (decide (a = _tracer)) as [->|Hne].
  { cbv [ret] in Hrun. simplify_eq. split; [done|].
    intros a o' [= <-] Ho' _. by rewrite (tracer_raw_children h' o'). }
  apply bind_inv in Hrun as (o & hx & Ho & Hrun).
  apply node_at_inv in Ho as [Ho ->].
  (* it is enough to show the children of the node, as the heap at the
     start has them, decided at the end *)
  assert (closed h' → Forall (decided h') (children h o) →
          closed h' ∧ ∀ a' o', PObj a = PObj a' → h' !! a' = Some o' →
            is_Value o' = true → Forall (decided h') (children h' o')) as Hfinish.
  { intros Hcl' Hch. split; [done|]. intros a' o' [= <-] Ho' _.
    by rewrite (children_at_marked h h' a o o' Hmark Ho Ho'). }
  destruct (is_Value o) eqn:Hv; cbn [negb] in Hrun.
  2:{ cbv [ret] in Hrun. simplify_eq. split; [done|].
      intros a' o' [= <-] Ho' Hv'. congruence. }
  destruct (get_constant o) as [b|] eqn:Hb.
  { cbv [ret] in Hrun. simplify_eq. apply Hfinish; [done|]. apply (Hcl a o Ho).
    by rewrite Hb. }
  destruct o as [v cst nm|f this other|f args kw nm cst|values nm cst];
    [|done|done|].
  - destruct v as [z| |b].
    { cbv [ret] in Hrun. simplify_eq. by apply Hfinish. }
    { cbv [ret] in Hrun. simplify_eq. by apply Hfinish. }
    apply bind_inv in Hrun as (inner & hx & Hin & Hrun).
    apply node_at_inv in Hin as [Hin ->].
    assert (∀ (rest : H (option bool)) v hs,
              (do c ← _mark_constancy fuel (PObj v);
               do _ ← assign_constant v c; rest) hs = (Ok (Some b0), h') →
              ∃ u h1, mark_and_assign fuel v hs = (Ok u, h1) ∧
                      rest h1 = (Ok (Some b0), h')) as Hsplit.
    { intros rest v hs Hr. apply bind_inv in Hr as (c & h1 & Hc & Hr).
      apply bind_inv in Hr as (u & h2 & Ha & Hr). exists u, h2. split; [|done].
      unfold mark_and_assign. by erewrite bind_Ok by exact Hc. }
    destruct inner as [v' cst' nm'|f this other|f args kw nm' cst'|values nm' cst'].
    + apply Hsplit in Hrun as (u & h1 & Hma & Hrun).
      destruct (mark_and_assign_thorough _ _ _ _ _ IH Hord Hcl Htr Hma)
        as (Hm & Hord1 & Hcl1 & Htr1 & Hd).
      apply read_constant_inv in Hrun as (ob & _ & _ & _ & ->).
      apply Hfinish; [done|]. cbn. rewrite Hin. by constructor.
    + apply Hsplit in Hrun as (u & h1 & Hma & Hrun).
      destruct (mark_and_assign_thorough _ _ _ _ _ IH Hord Hcl Htr Hma)
        as (Hm & Hord1 & Hcl1 & Htr1 & Hd).
      destruct other as [other|].
      * apply Hsplit in Hrun as (u' & h2 & Hma' & Hrun).
        destruct (mark_and_assign_thorough _ _ _ _ _ IH Hord1 Hcl1 Htr1 Hma')
          as (Hm' & Hord2 & Hcl2 & Htr2 & Hd').
        apply bind_inv in Hrun as (x & hy & Hx & Hrun).
        apply read_constant_inv in Hx as (ox & _ & _ & _ & ->).
        apply bind_inv in Hrun as (y & hy & Hy & Hrun).
        apply read_constant_inv in Hy as (oy & _ & _ & _ & ->).
        cbv [ret] in Hrun. simplify_eq.
        apply Hfinish; [done|]. cbn. rewrite Hin. cbn.
        constructor; [by eapply decided_marked|]. by constructor.
      * apply read_constant_inv in Hrun as (ob & _ & _ & _ & ->).
        apply Hfinish; [done|]. cbn. rewrite Hin. by constructor.
    + apply Hsplit in Hrun as (u & h1 & Hma & Hrun).
      destruct (mark_and_assign_thorough _ _ _ _ _ IH Hord Hcl Htr Hma)
        as (Hm & Hord1 & Hcl1 & Htr1 & Hd).
      apply read_constant_inv in Hrun as (ob & _ & _ & _ & ->).
      apply Hfinish; [done|]. cbn. rewrite Hin. by constructor.
    + apply Hsplit in Hrun as (u & h1 & Hma & Hrun).
      destruct (mark_and_assign_thorough _ _ _ _ _ IH Hord Hcl Htr Hma)
        as (Hm & Hord1 & Hcl1 & Htr1 & Hd).
      apply read_constant_inv in Hrun as (ob & _ & _ & _ & ->).
      apply Hfinish; [done|]. cbn. rewrite Hin. by constructor.
  - apply bind_inv in Hrun as (us & h1 & Hloop & Hrun).
    destruct (mark_components_thorough fuel values h us h1 IH Hord Hcl Htr Hloop)
      as (Hm & Hcl1 & Hall).
    destruct (mark_components_sound fuel values h h us h1 (_mark_constancy_sound fuel)
                (marked_refl h) Hloop) as [_ Hset].
    destruct (read_components _ _ _ Hset) as (bs & Hr & _).
    erewrite bind_Ok in Hrun by exact Hr. cbv [ret] in Hrun. simplify_eq.
    by apply Hfinish.
Qed.

Lemma for_each_snd {St A B} (f : A → ST St B) (xs : list A) :
  (∀ x s, snd (f x s) = s) → ∀ s, snd (for_each f xs s) = s.
Proof.
  intros Hf. induction xs as [|x xs IH]; intros s; [done|].
  cbn [for_each]. unfold bind at 1. specialize (Hf x s).
  destruct (f x s) as [[y|e] s1]; cbn [snd] in Hf; subst s1; [|done].
  unfold bind. specialize (IH s).
  by destruct (for_each f xs s) as [[ys|e] s1].
Qed.

(** [_bfs] only reads. *)
Lemma _bfs_heap fuel : ∀ tree h, snd (_bfs fuel tree h) = h.
Proof.
  induction fuel as [|fuel IH]; intros tree h; [done|].
  cbn [_bfs]. destruct tree as [z| |a]; [done|done|].
  unfold bind at 1, node_at. destruct (h !! a) as [o|]; [|done].
  destruct o as [v cst nm|f this other|f args kw nm cst|values nm cst].
  - unfold bind. specialize (IH v h). by destruct (_bfs fuel v h) as [[l|e] h1].
  - unfold bind at 1. pose proof (IH (PObj this) h) as H1.
    destruct (_bfs fuel (PObj this) h) as [[l|e] h1]; cbn [snd] in H1; subst h1;
      [|done].
    unfold bind. pose proof (IH (from_option PObj PEmpty other) h) as H2.
    by destruct (_bfs fuel (from_option PObj PEmpty other) h) as [[r|e] h2].
  - done.
  - unfold bind.
    pose proof (for_each_snd (λ value_, _bfs fuel (PObj value_)) values
                  (λ x s, IH (PObj x) s) h) as H1.
    by destruct (for_each _ values h) as [[nested|e] h1].
Qed.

Lemma for_each_Forall {St A B} (f : A → ST St B) (P : B → Prop) (xs : list A) s :
  (∀ x s, snd (f x s) = s) →
  Forall (λ x, ∀ y s', f x s = (Ok y, s') → P y) xs →
  ∀ ys s', for_each f xs s = (Ok ys, s') → Forall P ys.
Proof.
  intros Hf. induction 1 as [|x xs Hx _ IH]; intros ys s' Hrun.
  { cbn [for_each] in Hrun. cbv [ret] in Hrun. by simplify_eq. }
  cbn [for_each] in Hrun.
  apply bind_inv in Hrun as (y & s1 & Hy & Hrun).
  apply bind_inv in Hrun as (ys' & s2 & Hys & Hret). cbv [ret] in Hret. simplify_eq.
  pose proof (Hf x s) as Hs. rewrite Hy in Hs. cbn [snd] in Hs. subst s1.
  constructor; eauto.
Qed.

Lemma covered_Value h a : Value_at h a → decided h a → covered h (PObj a).
Proof. intros (o & Ho & Hv) Hd. unfold covered. rewrite Ho. by destruct o. Qed.

Lemma _bfs_decided h : ordered h → closed h → ∀ fuel tree parts h',
  _bfs fuel tree h = (Ok parts, h') → covered h tree → Forall (decided h) parts.
Proof.
  intros Hord Hcl. induction fuel as [|fuel IH]; intros tree parts h' Hrun Hcov;
    [done|].
  cbn [_bfs] in Hrun. destruct tree as [z| |a].
  { cbv [ret] in Hrun. by simplify_eq. }
  { cbv [ret] in Hrun. by simplify_eq. }
  apply bind_inv in Hrun as (o & hx & Ho & Hrun).
  apply node_at_inv in Ho as [Ho ->].
  pose proof (Hord a o Ho) as Hoo. unfold covered in Hcov. rewrite Ho in Hcov.
  destruct o as [v cst nm|f this other|f args kw nm cst|values nm cst].
  - apply bind_inv in Hrun as (rest & hx & Hrest & Hrun).
    cbv [ret] in Hrun. simplify_eq. constructor; [done|].
    apply (IH _ _ _ Hrest).
    destruct Hcov as (o & Ho' & Hc). simplify_eq.
    pose proof (Hcl a _ Ho Hc) as Hch. unfold covered.
    destruct v as [z| |b]; [done|done|]. cbn in Hch.
    destruct (h !! b) as [[]|]; try done.
    + by apply Forall_cons_1 in Hch as [??].
    + apply Forall_cons_1 in Hch as [Hthis Hother]. split; [done|].
      intros b' ->. cbn in Hother. by apply Forall_cons_1 in Hother as [??].
    + by apply Forall_cons_1 in Hch as [??].
    + by apply Forall_cons_1 in Hch as [??].
  - apply bind_inv in Hrun as (l & hx & Hl & Hrun).
    apply bind_inv in Hrun as (r & hy & Hr & Hrun).
    cbv [ret] in Hrun. simplify_eq.
    destruct Hoo as (_ & Hthis & Hother). destruct Hcov as [Hdt Hdo].
    pose proof (_bfs_heap fuel (PObj this) h) as Hh. rewrite Hl in Hh.
    cbn [snd] in Hh. subst hx.
    apply Forall_app. split.
    + apply (IH _ _ _ Hl). by apply covered_Value.
    + apply (IH _ _ _ Hr). destruct other as [b|]; [|done].
      apply covered_Value; [by destruct Hother|by apply Hdo].
  - cbv [ret] in Hrun. simplify_eq. by constructor.
  - apply bind_inv in Hrun as (nested & hx & Hn & Hrun).
    cbv [ret] in Hrun. simplify_eq. constructor; [done|].
    destruct Hcov as (o & Ho' & Hc). simplify_eq.
    pose proof (Hcl a _ Ho Hc) as Hch. cbn in Hch, Hoo.
    apply Forall_concat.
    eapply (for_each_Forall (λ value_, _bfs fuel (PObj value_))); [| |exact Hn].
    { intros x s. apply _bfs_heap. }
    apply Forall_forall. intros v Hv l s' Hl. apply (IH _ _ _ Hl).
    rewrite Forall_forall in Hch, Hoo.
    apply covered_Value; [by apply Hoo|by apply Hch].
Qed.

Lemma decidedb_spec h p : decidedb h p = true → decided h p.
Proof.
  unfold decidedb, decided. destruct (h !! p) as [o|]; [|done].
  intros Hd%bool_decide_eq_true_1. by exists o.
Qed.

Lemma closedb_spec h : closedb h = true → closed h.
Proof.
  unfold closedb. rewrite forallb_forall. intros Hall a o Ho Hc.
  specialize (Hall o). rewrite orb_true_iff in Hall.
  destruct Hall as [Hn|Hch].
  - apply list_elem_of_In. by eapply list_elem_of_lookup_2.
  - apply negb_true_iff, bool_decide_eq_false_1 in Hn. done.
  - rewrite forallb_forall in Hch. apply Forall_forall. intros p Hp.
    apply decidedb_spec, Hch. by apply list_elem_of_In.
Qed.

(** Marking, then traversing. *)
Lemma mark_then_bfs (h : list obj) (a fuel : nat) :
  ordered h → closed h → tracer_raw h → Value_at h a → a + 1 < fuel →
  ∃ h' parts,
    mark_constancy fuel (PObj a) h = (Ok (PObj a), h') ∧
    _bfs fuel (PObj a) h' = (Ok parts, h') ∧
    head parts = Some a ∧
    Forall (decided h') parts.
Proof.
  intros Hord Hcl Htr Ha Hfuel.
  destruct (mark_constancy_run h (PObj a) fuel Hord) as (h' & Hrun & Hm & _).
  { intros ? [= <-]. destruct Ha as (o & Ho & _). split; [by eexists|lia]. }
  exists h'.
  assert (closed h' ∧ decided h' a) as [Hcl' Hd].
  { pose proof Hrun as Hrun'. cbn [mark_constancy] in Hrun'.
    destruct Ha as (o & Ho & Hv).
    erewrite bind_Ok in Hrun' by (unfold node_at; by rewrite Ho).
    rewrite Hv in Hrun'.
    apply bind_inv in Hrun' as (c & h1 & Hc & Hrun').
    apply bind_inv in Hrun' as (u & h2 & Has & Hrun').
    cbv [ret] in Hrun'. simplify_eq.
    destruct (mark_and_assign_thorough fuel h a u h' (_mark_constancy_thorough fuel)
                Hord Hcl Htr) as (_ & _ & ? & _ & ?); [|done].
    unfold mark_and_assign. by erewrite bind_Ok by exact Hc. }
  pose proof (ordered_marked _ _ Hm Hord) as Hord'.
  pose proof (Value_at_marked _ _ _ Hm Ha) as Ha'.
  destruct (_bfs_total h' fuel Hord' (PObj a)) as (parts & Hbfs & _ & Hhead);
    [|lia|].
  { intros ? [= <-]. destruct Ha' as (o & Ho & _). split; [by eexists|lia]. }
  exists parts. split; [done|]. split; [done|]. split; [by apply Hhead|].
  eapply _bfs_decided; [done|done|exact Hbfs|]. by apply covered_Value.
Qed.

(** X12.  The assertion of [test_bfs] that no part is left with [constant]
    unset, for every tree: on a heap as the constructors build it (ordered,
    the tracer holding a number, and no node with [constant] set above one
    without), [mark_constancy] on a [Value] root followed by [_bfs] returns,
    and every part listed has its [constant] set. *)
Theorem bfs_parts_all_decided (h : list obj) (a fuel : nat) :
  ordered h → closed h → tracer_raw h → Value_at h a → a + 1 < fuel →
  ∃ h' parts,
    mark_constancy fuel (PObj a) h = (Ok (PObj a), h') ∧
    _bfs fuel (PObj a) h' = (Ok parts, h') ∧
    head parts = Some a ∧
    Forall (decided h') parts.
Proof. apply mark_then_bfs. Qed.

(** ** A sampling function that raises *)

(** X13.  When the sampling function of a [Distribution] raises on a cache miss,
    the exception leaves [_resolve] as it is, the enclosing context is
    active again, and nothing is stored: the caches are as before, so the
    next resolution of the node invokes the sampling function once more,
    with the same arguments. *)
Theorem Distribution_failure_not_cached (E : externals) (fuel a : nat) (w : world)
    (c : SwungdashContext) (f : fn) (args : list Z) (kw : list (string * Z))
    (nm : option string) (cst : option bool) (e : exn) :
  contextvar w = Some c →
  heap w !! a = Some (Distribution f args kw nm cst) →
  dict_of w (cache c) !! Distribution_key f args kw (sample_count c) = None →
  draw E f args kw (sample_count c) (length (calls w)) = Err e →
  ∃ w1,
    resolve E (S fuel) a w = (Err e, w1) ∧
    contextvar w1 = Some c ∧ dicts w1 = dicts w ∧ heap w1 = heap w ∧
    calls w1 = calls w ++ [sampler_call f args kw (sample_count c)] ∧
    calls (snd (resolve E (S fuel) a w1))
    = calls w ++ [sampler_call f args kw (sample_count c);
                  sampler_call f args kw (sample_count c)].
Proof.
  intros Hc Ha Hk Hd.
  pose proof (resolve_Distribution_miss E fuel a w c f args kw nm cst Hc Ha Hk) as Hrun.
  rewrite Hd in Hrun. eexists. split; [exact Hrun|].
  split; [done|]. split; [done|]. split; [done|]. split; [done|].
  set (w1 := set_calls _ _).
  pose proof (resolve_Distribution_miss E fuel a w1 c f args kw nm cst Hc Ha Hk) as Hrun1.
  rewrite Hrun1.
  destruct (draw E f args kw (sample_count c) (length (calls w1))); cbn;
    by rewrite <-(assoc_L (++)).
Qed.

(** ** [bfs], for every model *)

Lemma in_heap_run {A} (m : H A) w r h' :
  m (heap w) = (r, h') → in_heap m w = (r, set_heap h' w).
Proof. unfold in_heap. by intros ->. Qed.

(** X14.  [bfs] on any model that returns a [Value] root and leaves a heap
    that is ordered and closed (no node with [constant] set above one with
    [constant] unset) and in which the tracer holds a number: the model is
    called once, with the shared [_tracer], in the world in which the copy
    of the tracer has just been created; the tracer returned is that copy, a
    new object and so never [_tracer] itself; the parts start with the root
    and each has its [constant] set; the world the model left is changed in
    [constant] fields only.  Without closedness the conclusion fails: below
    a node whose [constant] was passed to the constructor the analysis does
    not descend, and [_bfs] lists what is below. *)
Theorem bfs_returns_decided_parts (fuel : nat) (model : pyval → M pyval)
    (w w2 : world) (o : obj) (a : nat) :
  heap w !! _tracer = Some o →
  model (PObj _tracer) (set_heap (heap w ++ [o]) w) = (Ok (PObj a), w2) →
  ordered (heap w2) → closed (heap w2) → tracer_raw (heap w2) →
  Value_at (heap w2) a → a + 1 < fuel →
  ∃ parts w',
    bfs fuel model w = (Ok (parts, length (heap w)), w') ∧
    length (heap w) ≠ _tracer ∧
    head parts = Some a ∧
    Forall (decided (heap w')) parts ∧
    marked (heap w2) (heap w') ∧
    w' = set_heap (heap w') w2.
Proof.
  intros Ho Hmodel Hord Hcl Htr Ha Hfuel.
  destruct (mark_then_bfs (heap w2) a fuel Hord Hcl Htr Ha Hfuel)
    as (h' & parts & Hmark & Hbfs & Hhead & Hall).
  destruct (mark_constancy_run (heap w2) (PObj a) fuel Hord) as (h'' & Hrun & Hm & _).
  { intros ? [= <-]. destruct Ha as (oa & Hoa & _). split; [by eexists|lia]. }
  rewrite Hmark in Hrun. simplify_eq.
  exists parts, (set_heap h'' w2). split.
  - unfold bfs, copy.
    erewrite bind_Ok; [|erewrite bind_Ok by (unfold obj_at; by rewrite Ho); reflexivity].
    erewrite bind_Ok by exact Hmodel.
    erewrite bind_Ok by (apply in_heap_run; exact Hmark).
    erewrite bind_Ok by (apply in_heap_run; exact Hbfs).
    reflexivity.
  - apply lookup_lt_Some in Ho. unfold _tracer in *.
    split; [lia|]. split; [exact Hhead|]. split; [exact Hall|]. split; [exact Hm|].
    reflexivity.
Qed.

(** The heap that [declared_model] leaves is ordered but not closed, and
    [bfs] returns the two operands with [constant] unset. *)
Example bfs_below_declared :
  (let '(r, w) := bfs 10 declared_model module_world in
   match r with
   | Ok (parts, tracer) =>
       Some ((λ a, (a, get_constant <$> heap w !! a)) <$> parts,
             orderedb (heap w), closedb (heap w))
   | Err _ => None
   end)
  = Some ([(6, Some (Some false)); (3, Some None); (4, Some None)], true, false).
Proof. vm_compute. reflexivity. Qed.

(** ** Models made from parts *)

(** X15.  [as_model(part, tracer)(x)] evaluates the part at [x]: for a part
    that is an operation on the tracer and a raw operand, calling the model
    with the number [z] returns the part, rebinds only the value of the
    tracer (its [name] and [constant] stay), and the part then resolves to
    the function applied to [z] and the operand. *)
Theorem as_model_evaluates_at (E : externals) (part tracer op other fuel : nat)
    (function : fn) (v vy : pyval) (c ct cy : option bool) (nm nt ny : option string)
    (z : Z) (w : world) :
  heap w !! part = Some (Value (PObj op) c nm) →
  heap w !! op = Some (Operation function tracer (Some other)) →
  heap w !! other = Some (Value vy cy ny) → (∀ b, vy ≠ PObj b) →
  heap w !! tracer = Some (Value v ct nt) →
  tracer ≠ part → tracer ≠ other →
  ∃ w',
    as_model (PObj part) tracer (PNum z) w = (Ok (PObj part), w') ∧
    w' = set_heap (<[tracer := Value (PNum z) ct nt]> (heap w)) w ∧
    resolve E (3 + fuel) part w'
    = match raw vy with
      | REmpty => of_payload (apply1 E function (RNum z))
      | y => of_payload (apply2 E function (RNum z) y)
      end w'.
Proof.
  intros Hpart Hop Hother Hvy Htracer Hne1 Hne2.
  assert (tracer ≠ op) as Hne3 by (intros ->; congruence).
  eexists. split; [|split; [reflexivity|]].
  - unfold as_model, assign_value.
    erewrite bind_Ok; [reflexivity|].
    erewrite bind_Ok by (unfold obj_at; by rewrite Htracer). reflexivity.
  - apply (resolve_wrapped_Operation E fuel part op function tracer other
             (PNum z) ct nt vy cy ny c nm); cbn [heap set_heap]; try done.
    + by rewrite list_lookup_insert_ne.
    + by rewrite list_lookup_insert_ne.
    + apply list_lookup_insert_eq. by eapply lookup_lt_Some.
    + by rewrite list_lookup_insert_ne.
Qed.

(** ** More components than samples *)

(** X16.  A [Mixture] with more components than the active sample count [n]
    (which is not negative): the counts are [n] ones and zeros for the rest,
    in an order drawn from the random source (one draw is consumed for each
    component, and every arrangement is what the counts are for some
    draws), one count for every component, and they still sum to [n]. *)
Theorem Mixture_sample_few (values : list nat) (w : world) :
  let n := sample_count (active w) in
  let k := length values in
  (0 ≤ n)%Z → (n < Z.of_nat k)%Z →
  ∃ counts w1,
    _sample_counts values w = (Ok counts, w1) ∧
    counts ≡ₚ replicate (Z.to_nat n) 1%Z ++ replicate (k - Z.to_nat n) 0%Z ∧
    length counts = k ∧
    sumZ counts = n ∧
    rand w1 = drop k (rand w) ∧
    (∀ target,
       target ≡ₚ replicate (Z.to_nat n) 1%Z ++ replicate (k - Z.to_nat n) 0%Z →
       ∃ draws, length draws = k ∧
                fst (_sample_counts values (set_rand draws w)) = Ok target).
Proof.
  intros n k Hn Hk.
  assert (k ≠ 0) as Hk0 by lia.
  assert (values ≠ []) as Hne by (intros ->; cbn in *; lia).
  destruct (_sample_counts_run values w Hne) as (counts & w1 & Hrun & Hp & _).
  destruct (_sample_counts_shuffle values w Hne) as [Hrand Hreach].
  rewrite Hrun in Hrand. cbn [snd] in Hrand.
  fold n k in Hp, Hreach. exists counts, w1. split; [done|].
  pose proof (allocation_eq n k Hk0) as Heq.
  rewrite Z.mod_small, Z.div_small in Heq by lia.
  split; [by rewrite Hp, Heq|].
  split; [by rewrite Hp, allocation_length|].
  split; [by rewrite Hp, allocation_sum|].
  split; [exact Hrand|].
  intros target Ht. apply Hreach. by rewrite Heq.
Qed.

(** ** The first resolution *)

(** X17.  Resolving a [Distribution] where no context was ever set: the default
    context is installed and stays active, the sampling function is invoked
    once with [size] 1000, and what it returns is stored in the cache of
    that context, a dictionary created for it. *)
Theorem Distribution_default_sample_count (E : externals) (fuel a : nat) (w : world)
    (f : fn) (args : list Z) (kw : list (string * Z)) (nm : option string)
    (cst : option bool) :
  contextvar w = None →
  heap w !! a = Some (Distribution f args kw nm cst) →
  ∃ r w' c,
    resolve E (S fuel) a w = (r, w') ∧
    contextvar w' = Some c ∧
    sample_count c = DEFAULT_SAMPLE_COUNT ∧ cache c = next_dict w ∧
    calls w' = calls w ++ [sampler_call f args kw DEFAULT_SAMPLE_COUNT] ∧
    r = match draw E f args kw DEFAULT_SAMPLE_COUNT (length (calls w)) with
        | Ok data => Ok (RArr (next_array w) data)
        | Err e => Err e
        end ∧
    ∀ v, r = Ok v →
      dict_of w' (cache c) = {[ Distribution_key f args kw DEFAULT_SAMPLE_COUNT := v ]}.
Proof.
  intros Hnone Ha.
  destruct (resolve_Distribution E fuel a w f args kw nm cst Ha)
    as (r & w' & Hrun & _ & Hc & _ & Hcase).
  assert (active w = {| ctx_id := next_context w; cache := next_dict w;
                        cache_rule := "constant";
                        sample_count := DEFAULT_SAMPLE_COUNT |}) as Hact
    by (unfold active; by rewrite Hnone).
  assert (dict_of (activate w) (next_dict w) = ∅) as Hempty.
  { unfold dict_of, activate, new_default_context. rewrite Hnone. cbn.
    by rewrite lookup_total_insert_eq. }
  rewrite Hact in Hcase, Hc. cbn [cache sample_count] in Hcase |- *.
  rewrite Hempty, lookup_empty in Hcase. destruct Hcase as [Hcalls Hcase].
  exists r, w', (active w). rewrite Hact. split; [done|]. split; [exact Hc|].
  split; [done|]. split; [done|]. split; [done|].
  destruct (draw E f args kw DEFAULT_SAMPLE_COUNT (length (calls w))) as [data|e].
  - destruct Hcase as (-> & _ & Hd). split; [done|]. intros v [= <-].
    unfold dict_of. rewrite Hd. cbn. rewrite lookup_total_insert_eq.
    by rewrite insert_empty.
  - destruct Hcase as (-> & _). split; [done|]. by intros v.
Qed.

(** ** Instances *)

Lemma resolve_keeps_world_witness :
  let w' := snd (resolve demo_externals 3 4 demo_world) in
  contextvar w' = Some demo_context ∧ heap w' = demo_heap.
Proof.
  destruct (resolve_keeps_world demo_externals 3 4 demo_world demo_context eq_refl)
    as (Hc & Hh & _).
  split; [exact Hc|exact Hh].
Defined.

Lemma Mixture_resolve_again_witness :
  let v := RArr 2 [0; 0; 0; 1; 1; 1; 1]%Z in
  let w1 := snd (resolve demo_externals 2 4 demo_world) in
  fst (resolve demo_externals 2 4 demo_world) = Ok v ∧
  ∃ w2, resolve demo_externals 2 4 w1 = (Ok v, w2) ∧ calls w2 = calls w1.
Proof.
  intros v w1.
  assert (fst (resolve demo_externals 2 4 demo_world) = Ok v) as Hv
    by (vm_compute; reflexivity).
  split; [exact Hv|].
  destruct (Mixture_resolve_again demo_externals 1 4 4 demo_world demo_context
              [2; 3] [2; 3] None None None None v w1 eq_refl eq_refl eq_refl
              (or_introl eq_refl)) as (w2 & Hr2 & Hc & _).
  - rewrite <-Hv. apply surjective_pairing.
  - exists w2. split; [exact Hr2|exact Hc].
Defined.

Lemma Context_cache_override_isolates_witness :
  dict_of (snd (with_Context (with_cache 1) (λ _, resolve demo_externals 1 2)
                  demo_world)) 0
  = dict_of demo_world 0.
Proof.
  destruct (Context_cache_override_isolates demo_externals (with_cache 1) 1 1 2
              demo_world demo_context eq_refl eq_refl) as [Hd _].
  - cbn. lia.
  - exact Hd.
Defined.

Lemma cache_key_reads_tree_and_sample_count_witness :
  fst (cache_key 2 4 demo_world) = fst (cache_key 2 4 seeded_world).
Proof.
  destruct (cache_key_reads_tree_and_sample_count 2 4 demo_world seeded_world
              demo_context demo_context eq_refl eq_refl eq_refl eq_refl) as [Hk _].
  exact Hk.
Defined.

Lemma alike_nodes_equal_keys_witness :
  fst (cache_key 1 2 demo_world) = fst (cache_key 1 3 demo_world).
Proof.
  apply (alike_nodes_equal_keys 1 2 3 demo_world demo_context eq_refl).
  eapply alike_Distribution; [reflexivity|reflexivity|]. apply perm_swap.
Defined.

Lemma sample_free_resolve_stateless_witness :
  let w' := snd (resolve demo_externals 3 8 test_world) in
  contextvar test_world = None ∧
  fst (resolve demo_externals 3 8 test_world) = Ok (RNum 0) ∧
  heap w' = test_heap ∧ contextvar w' = None ∧ next_context w' = 0 ∧
  dicts w' = ∅ ∧ calls w' = [] ∧ rand w' = rand test_world.
Proof.
  intros w'. split; [reflexivity|]. split; [vm_compute; reflexivity|].
  destruct (sample_free_resolve_stateless demo_externals 3 8 test_world)
    as (Hh & Hc & Hn & Hd & _ & Hcalls & Hr & _).
  - eapply sample_free_Value; [reflexivity|]. intros b [= <-].
    eapply sample_free_Operation; [reflexivity| |].
    + eapply sample_free_Value; [reflexivity|]. intros b Hb. discriminate.
    + intros b [= <-]. eapply sample_free_Value; [reflexivity|].
      intros b Hb. discriminate.
  - split; [exact Hh|]. split; [exact Hc|]. split; [exact Hn|].
    split; [exact Hd|]. split; [exact Hcalls|exact Hr].
Defined.

Lemma constructors_build_ordered_witness :
  builds module_world (_operation _tracer "pow" (PNum 2) false).
Proof.
  destruct (constructors_build_ordered module_world) as (_ & _ & _ & Hop).
  - apply orderedb_spec. vm_compute. reflexivity.
  - apply Hop.
    + apply Value_atb_spec. vm_compute. reflexivity.
    + intros b Hb. discriminate.
Defined.

Lemma operator_overloads_resolve_witness :
  fst (_operation _tracer "neg" PEmpty true module_world) = Err AssertionError.
Proof.
  destruct (operator_overloads_resolve demo_externals "neg" 0 0 _tracer 0 None
              (Some "x"%string) module_world eq_refl) as (_ & _ & _ & Hrev).
  exact Hrev.
Defined.

Lemma bfs_lists_Value_nodes_witness :
  ∃ parts, _bfs 17 (PObj 15) test_heap = (Ok parts, test_heap) ∧ head parts = Some 15.
Proof.
  destruct (bfs_lists_Value_nodes test_heap 15 17) as (parts & Hrun & _ & Hhead).
  - apply orderedb_spec. vm_compute. reflexivity.
  - by eexists.
  - lia.
  - exists parts. split; [exact Hrun|]. apply Hhead.
    apply Value_atb_spec. vm_compute. reflexivity.
Defined.

Lemma mark_constancy_idempotent_witness :
  let h' := snd (mark_constancy 16 (PObj 15) test_heap) in
  mark_constancy 16 (PObj 15) h' = (Ok (PObj 15), h').
Proof.
  apply (mark_constancy_idempotent test_heap). vm_compute. reflexivity.
Defined.

Lemma bfs_parts_all_decided_witness :
  ∃ h' parts,
    mark_constancy 17 (PObj 15) test_heap = (Ok (PObj 15), h') ∧
    _bfs 17 (PObj 15) h' = (Ok parts, h') ∧ Forall (decided h') parts.
Proof.
  destruct (bfs_parts_all_decided test_heap 15 17)
    as (h' & parts & Hm & Hb & _ & Hall).
  - apply orderedb_spec. vm_compute. reflexivity.
  - apply closedb_spec. vm_compute. reflexivity.
  - vm_compute. exact I.
  - apply Value_atb_spec. vm_compute. reflexivity.
  - lia.
  - by exists h', parts.
Defined.

Lemma Distribution_failure_not_cached_witness :
  ∃ w1, resolve demo_externals 1 2 failing_world = (Err (External 0), w1) ∧
        dicts w1 = dicts failing_world.
Proof.
  destruct (Distribution_failure_not_cached demo_externals 0 2 failing_world
              (derive 0 demo_context (with_sample_count (-1)))
              "normal" [0%Z] [("loc", 1%Z); ("scale", 2%Z)]%string None (Some true)
              (External 0) eq_refl eq_refl eq_refl eq_refl)
    as (w1 & Hr & _ & Hd & _).
  by exists w1.
Defined.

Lemma bfs_returns_decided_parts_witness :
  ∃ parts w', bfs 20 test_model module_world = (Ok (parts, 2), w') ∧
              Forall (decided (heap w')) parts.
Proof.
  destruct (bfs_returns_decided_parts 20 test_model module_world
              (snd (test_model (PObj _tracer)
                      (set_heap (heap module_world
                                 ++ [Value (PNum 0) None (Some "x"%string)])
                         module_world)))
              (Value (PNum 0) None (Some "x"%string)) 16)
    as (parts & w' & Hrun & _ & _ & Hall & _).
  - reflexivity.
  - vm_compute. reflexivity.
  - apply orderedb_spec. vm_compute. reflexivity.
  - apply closedb_spec. vm_compute. reflexivity.
  - vm_compute. exact I.
  - apply Value_atb_spec. vm_compute. reflexivity.
  - lia.
  - exists parts, w'. split; [exact Hrun|exact Hall].
Defined.

Lemma as_model_evaluates_at_witness :
  ∃ w', as_model (PObj 8) _tracer (PNum 3) test_world = (Ok (PObj 8), w') ∧
        resolve demo_externals 3 8 w' = (Ok (RNum 9), w').
Proof.
  destruct (as_model_evaluates_at demo_externals 8 _tracer 7 6 0 "pow"
              (PNum 0) (PNum 2) None None None None (Some "x"%string) None 3
              test_world eq_refl eq_refl eq_refl)
    as (w' & Hm & _ & Hr).
  - intros b Hb. discriminate.
  - reflexivity.
  - unfold _tracer. lia.
  - unfold _tracer. lia.
  - exists w'. split; [exact Hm|exact Hr].
Defined.

Lemma Mixture_sample_few_witness :
  fst (_sample_counts [2; 3] scarce_world) = Ok [0; 1]%Z ∧
  rand (snd (_sample_counts [2; 3] scarce_world)) = [4; 1; 5] ∧
  ∃ draws, fst (_sample_counts [2; 3] (set_rand draws scarce_world)) = Ok [1; 0]%Z.
Proof.
  destruct (Mixture_sample_few [2; 3] scarce_world)
    as (counts & w1 & Hr & _ & _ & _ & Hrand & Hreach).
  - cbn. lia.
  - cbn. lia.
  - vm_compute in Hr. injection Hr as <- <-.
    split; [vm_compute; reflexivity|]. split; [vm_compute; reflexivity|].
    destruct (Hreach [1; 0]%Z) as (draws & _ & Hd); [reflexivity|].
    by exists draws.
Defined.

Lemma Distribution_default_sample_count_witness :
  ∃ r w' c, resolve demo_externals 1 2 unset_world = (r, w') ∧
            contextvar w' = Some c ∧ sample_count c = 1000%Z.
Proof.
  destruct (Distribution_default_sample_count demo_externals 0 2 unset_world
              "normal" [0%Z] [("loc", 1%Z); ("scale", 2%Z)]%string None (Some true)
              eq_refl eq_refl) as (r & w' & c & Hr & Hc & Hn & _).
  by exists r, w', c.
Defined.
